(** * rlcomp.dpg: deep deterministic policy gradient graphs

    A shallow embedding of [rlcomp/dpg.py].  The Python module builds
    TensorFlow computation graphs; building a graph is modelled as a
    state-and-exception computation over an explicit graph state (the
    variable collection, the variable store, the current variable scope,
    the summaries), and the tensors it returns are symbolic expression
    trees.  A denotational semantics over the real numbers gives the
    arithmetic nodes their meaning. *)

From Stdlib Require Import String Ascii List ZArith QArith Bool Lia.
From Stdlib Require Import Reals Lra Qreals.
From Stdlib Require Import DecimalString.
Import ListNotations.

Open Scope list_scope.
Open Scope string_scope.

(* ================================================================== *)
(** ** Python values: strings, exceptions *)

(** [pat in s] on Python strings: substring containment. *)
Fixpoint contains (pat s : string) : bool :=
  if String.prefix pat s then true
  else match s with
       | EmptyString => false
       | String _ s' => contains pat s'
       end.

(** [s.startswith(pat)]. *)
Definition startswith (s pat : string) : bool := String.prefix pat s.

(** ["%i" % n] for a non-negative index. *)
Definition str_of_nat (n : nat) : string :=
  NilEmpty.string_of_uint (Nat.to_uint n).

(** [s[n:]]. *)
Fixpoint drop_chars (n : nat) (s : string) : string :=
  match n, s with
  | O, _ => s
  | S n', String _ s' => drop_chars n' s'
  | S _, EmptyString => EmptyString
  end.

Inductive exn : Type :=
| AssertionError
| NotImplementedError (msg : string)
| ValueError (msg : string)
| IndexError
| TypeError
| AttributeError (attr : string).

(* ================================================================== *)
(** ** Symbolic tensors *)

(** The kinds of graph node the module creates (directly, or through the
    recurrent cells and decoders of the library). *)
Inductive opk : Type :=
| OAdd | OSub | OMul | ODiv | ONeg | OSquare | OAbs
| OTanh | OSigmoid | OSoftmax | OSqueeze | OStopGradient
| OActivation
| OReduceMean (axis : option Z)
| OReduceSum (axis : option Z)
| OReduceMax
| OConcat (axis : Z)
| OPack
| OAddN
| OSplit (axis : Z) (num : Z) (i : nat)
| OExpandDims (axis : Z)
| OShape
| OGetItem (i : Z)
| OZeros
| ORandomNormal (uid : nat) (mean stddev : Q)
| OMatMul
| OBatchNorm (eps : Q) (scale_after : bool)
| OAssign
| OGroup
| OAttention.

#[warnings="-register-all"]
Inductive tensor : Type :=
| Placeholder (uid : nat) (name : string) (shape : list (option Z))
| VarRef (name : string)
| Const (value : Q) (shape : list Z)
| IntConst (z : Z)
| Op (o : opk) (args : list tensor).

(** A Python value held in an attribute of a DPG instance: a tensor (or
    an operation) or a list of tensors. *)
Inductive pyval : Type :=
| PT (t : tensor)
| PL (l : list tensor).

(** Python truthiness of [x] in [x or y] and [not x]: [None] and the
    empty list are false; a tensor object is true. *)
Definition truthy (x : option pyval) : bool :=
  match x with
  | None => false
  | Some (PT _) => true
  | Some (PL l) => negb (match l with [] => true | _ => false end)
  end.

(* ================================================================== *)
(** ** Graph state and the construction monad *)

Inductive initializer : Type :=
| InitDefault
| InitTruncatedNormal (stddev : Q)
| InitZeros
| InitConstant (value : Q)
| InitTrack (live : string).

Record variable : Type := mkVar {
  v_name : string;          (* op name, without the output suffix *)
  v_shape : list Z;
  v_init : initializer;
  v_store : bool            (* registered in the variable store *)
}.

(** [var.name]: the name of the variable's output tensor. *)
Definition var_name (v : variable) : string := v_name v ++ ":0".

Record var_scope : Type := mkScope {
  vs_name : string;
  vs_reuse : bool;
  vs_init : option initializer
}.

Record graph : Type := mkGraph {
  g_vars : list variable;                 (* tf.all_variables(), in order *)
  g_uid : nat;                            (* next fresh node identity *)
  g_summaries : list (string * tensor);
  g_scope : var_scope
}.

Definition root_scope : var_scope := mkScope "" false None.
Definition empty_graph : graph := mkGraph [] 0 [] root_scope.

Definition M (A : Type) : Type := graph -> (exn + A) * graph.

Definition ret {A} (a : A) : M A := fun g => (inr a, g).
Definition raise {A} (e : exn) : M A := fun g => (inl e, g).
Definition bind {A B} (m : M A) (k : A -> M B) : M B :=
  fun g => match m g with
           | (inl e, g') => (inl e, g')
           | (inr a, g') => k a g'
           end.

Notation "x <- m ;; k" := (bind m (fun x => k))
  (at level 61, m at next level, right associativity).
Notation "m ;;; k" := (bind m (fun _ => k))
  (at level 61, right associativity).

Fixpoint mapM {A B} (f : A -> M B) (l : list A) : M (list B) :=
  match l with
  | [] => ret []
  | a :: l' => b <- f a ;; bs <- mapM f l' ;; ret (b :: bs)
  end.

(** [for i, a in enumerate(l)] with the index starting at [i]. *)
Fixpoint mapM_enum {A B} (f : nat -> A -> M B) (i : nat) (l : list A)
  : M (list B) :=
  match l with
  | [] => ret []
  | a :: l' => b <- f i a ;; bs <- mapM_enum f (S i) l' ;; ret (b :: bs)
  end.

(** [zip]. *)
Fixpoint zip {A B} (l1 : list A) (l2 : list B) : list (A * B) :=
  match l1, l2 with
  | a :: l1', b :: l2' => (a, b) :: zip l1' l2'
  | _, _ => []
  end.

(** [range(n)] for a Python integer [n]. *)
Definition range (n : Z) : list nat := seq 0 (Z.to_nat n).

(* ================================================================== *)
(** ** The tensor-execution engine (TensorFlow), as far as the module
       uses it *)

Module tf.

Definition join_scope (scope name : string) : string :=
  if String.eqb scope "" then name else scope ++ "/" ++ name.

Definition set_scope (s : var_scope) (g : graph) : graph :=
  mkGraph (g_vars g) (g_uid g) (g_summaries g) s.

Definition get_variable_scope : M var_scope :=
  fun g => (inr (g_scope g), g).

(** The scope [name] opened inside the scope [old]: reuse and the
    initializer are inherited unless given. *)
Definition sub_scope (old : var_scope) (name : string)
    (reuse : option bool) (init : option initializer) : var_scope :=
  mkScope (join_scope (vs_name old) name)
          (match reuse with Some true => true | _ => vs_reuse old end)
          (match init with Some i => Some i | None => vs_init old end).

(** [with tf.variable_scope(name, reuse=..., initializer=...): body].
    The previous scope is restored when the body is left, also by an
    exception. *)
Definition variable_scope {A} (name : string) (reuse : option bool)
    (init : option initializer) (body : M A) : M A :=
  fun g =>
    if String.eqb name "" then
      (inl (ValueError "Scope name cannot be empty."), g)
    else
      let old := g_scope g in
      let '(r, g') := body (set_scope (sub_scope old name reuse init) g) in
      (r, set_scope old g').

(** [tf.get_variable_scope().reuse_variables()]. *)
Definition reuse_variables : M unit :=
  fun g =>
    let s := g_scope g in
    (inr tt, set_scope (mkScope (vs_name s) true (vs_init s)) g).

Definition in_store (full : string) (g : graph) : bool :=
  existsb (fun v => v_store v && String.eqb (v_name v) full) (g_vars g).

Definition add_var (v : variable) (g : graph) : graph :=
  mkGraph (g_vars g ++ [v])%list (g_uid g) (g_summaries g) (g_scope g).

(** [tf.get_variable(name, shape, initializer=...)]: the variable of
    the store named by the current scope; it must exist under reuse
    and must not exist otherwise. *)
Definition get_variable (name : string) (shape : list Z)
    (init : option initializer) : M tensor :=
  fun g =>
    let sc := g_scope g in
    let full := join_scope (vs_name sc) name in
    if in_store full g then
      if vs_reuse sc then (inr (VarRef full), g)
      else (inl (ValueError "Over-sharing: variable already exists"), g)
    else
      if vs_reuse sc then
        (inl (ValueError "Under-sharing: variable does not exist"), g)
      else
        let i := match init with
                 | Some i => i
                 | None => match vs_init sc with
                           | Some i => i
                           | None => InitDefault
                           end
                 end in
        (inr (VarRef full), add_var (mkVar full shape i true) g).

Definition name_used (n : string) (g : graph) : bool :=
  existsb (fun v => String.eqb (v_name v) n) (g_vars g).

(** The graph's unique-name rule: [n], or [n_k] for the first free
    [k >= 1]. *)
Definition unique_name (n : string) (g : graph) : string :=
  if name_used n g then
    match find (fun k => negb (name_used (n ++ "_" ++ str_of_nat k) g))
               (seq 1 (S (length (g_vars g)))) with
    | Some k => n ++ "_" ++ str_of_nat k
    | None => n
    end
  else n.

(** [tf.Variable(tf.constant(value, shape=shape), name=name)]: always a
    new variable, outside the variable store, named in the current
    scope. *)
Definition new_Variable (value : Q) (shape : list Z) (name : string)
  : M tensor :=
  fun g =>
    let full := unique_name (join_scope (vs_name (g_scope g)) name) g in
    (inr (VarRef full),
     add_var (mkVar full shape (InitConstant value) false) g).

(** [tf.all_variables()]. *)
Definition all_variables : M (list variable) :=
  fun g => (inr (g_vars g), g).

Definition fresh_uid : M nat :=
  fun g => (inr (g_uid g),
            mkGraph (g_vars g) (S (g_uid g)) (g_summaries g) (g_scope g)).

Definition placeholder (shape : list (option Z)) (name : string)
  : M tensor :=
  u <- fresh_uid ;; ret (Placeholder u name shape).

(** [tf.random_normal(shape, mean, stddev)]: every call is a node of
    its own. *)
Definition random_normal (shape : tensor) (mean stddev : Q) : M tensor :=
  u <- fresh_uid ;; ret (Op (ORandomNormal u mean stddev) [shape]).

Definition scalar_summary (tag : string) (t : tensor) : M unit :=
  fun g => (inr tt,
            mkGraph (g_vars g) (g_uid g) (g_summaries g ++ [(tag, t)])%list
                    (g_scope g)).

Definition add (a b : tensor) : tensor := Op OAdd [a; b].
Definition sub (a b : tensor) : tensor := Op OSub [a; b].
Definition mul (a b : tensor) : tensor := Op OMul [a; b].
Definition div (a b : tensor) : tensor := Op ODiv [a; b].
Definition neg (a : tensor) : tensor := Op ONeg [a].
Definition square (a : tensor) : tensor := Op OSquare [a].
Definition abs (a : tensor) : tensor := Op OAbs [a].
Definition tanh (a : tensor) : tensor := Op OTanh [a].
Definition sigmoid (a : tensor) : tensor := Op OSigmoid [a].
Definition squeeze (a : tensor) : tensor := Op OSqueeze [a].
Definition stop_gradient (a : tensor) : tensor := Op OStopGradient [a].
Definition matmul (a b : tensor) : tensor := Op OMatMul [a; b].
Definition reduce_mean (a : tensor) (axis : option Z) : tensor :=
  Op (OReduceMean axis) [a].
Definition reduce_sum (a : tensor) (axis : option Z) : tensor :=
  Op (OReduceSum axis) [a].
Definition reduce_max (a : tensor) : tensor := Op OReduceMax [a].
Definition concat (axis : Z) (l : list tensor) : tensor :=
  Op (OConcat axis) l.
Definition pack (l : list tensor) : tensor := Op OPack l.
Definition add_n (l : list tensor) : tensor := Op OAddN l.
Definition expand_dims (a : tensor) (axis : Z) : tensor :=
  Op (OExpandDims axis) [a].
Definition shape (a : tensor) : tensor := Op OShape [a].
Definition getitem (a : tensor) (i : Z) : tensor := Op (OGetItem i) [a].
Definition zeros (shp : tensor) : tensor := Op OZeros [shp].
Definition split (axis num : Z) (a : tensor) : list tensor :=
  map (fun i => Op (OSplit axis num i) [a]) (range num).
Definition group (l : list tensor) : tensor := Op OGroup l.
Definition assign (ref value : tensor) : tensor := Op OAssign [ref; value].
Definition softmax (a : tensor) : tensor := Op OSoftmax [a].
Definition batch_norm_with_global_normalization
    (t m v beta gamma : tensor) (eps : Q) (scale_after : bool) : tensor :=
  Op (OBatchNorm eps scale_after) [t; m; v; beta; gamma].

End tf.

(* ================================================================== *)
(** ** Configuration and DPG instances *)

(** The MDP collaborator: [mdp.state_dim], [mdp.action_dim]. *)
Record mdp_t : Type := mkMdp {
  state_dim : Z;
  action_dim : Z
}.

(** The model specification: [spec.policy_dims], [spec.critic_dims]. *)
Record spec_t : Type := mkSpec {
  policy_dims : list Z;
  critic_dims : list Z
}.

(** A noiser: called as [noiser(inputs, actions)]. *)
Definition noiser_t : Type := pyval -> pyval -> M pyval.

(** A DPG instance.  The configuration attributes are fields; the
    attributes that hold tensors live in the instance dictionary
    [attrs] (most recent binding first).  [input_dim], [vocab_size],
    [seq_length] and [bn_actions] are set by the subclass constructors
    only. *)
Record dpg : Type := mkDpg {
  noiser : noiser_t;
  mdp_spec : mdp_t;
  spec : spec_t;
  name : string;
  input_dim : Z;
  vocab_size : Z;
  seq_length : Z;
  bn_actions : bool;
  attrs : list (string * pyval)
}.

(** [self.k], [None] when the attribute is unset or holds [None]. *)
Fixpoint lookup_attr (l : list (string * pyval)) (k : string)
  : option pyval :=
  match l with
  | [] => None
  | (k', v) :: l' => if String.eqb k' k then Some v else lookup_attr l' k
  end.

Definition attr (self : dpg) (k : string) : option pyval :=
  lookup_attr (attrs self) k.

(** [self.k = v]. *)
Definition setattr (self : dpg) (k : string) (v : pyval) : dpg :=
  mkDpg (noiser self) (mdp_spec self) (spec self) (name self)
        (input_dim self) (vocab_size self) (seq_length self)
        (bn_actions self) ((k, v) :: attrs self).

(** Reading an attribute where the engine needs one tensor. *)
Definition get_tensor (self : dpg) (k : string) : M tensor :=
  match attr self k with
  | Some (PT t) => ret t
  | Some (PL _) => raise TypeError
  | None => raise (AttributeError k)
  end.

(** Reading an attribute that is iterated over. *)
Definition get_list (self : dpg) (k : string) : M (list tensor) :=
  match attr self k with
  | Some (PL l) => ret l
  | Some (PT _) => raise TypeError
  | None => raise (AttributeError k)
  end.

(** [x or make()]. *)
Definition py_or (x : option pyval) (make : M pyval) : M pyval :=
  match x with
  | Some v => if truthy x then ret v else make
  | None => make
  end.

(** The handle of a variable of the collection. *)
Definition handle (v : variable) : tensor := VarRef (v_name v).

(* ================================================================== *)
(** ** [rlcomp.util] *)

Module util.

(** Modelled from the spec: [util.mlp] is not among the sources.  The
    spec gives it as a feedforward-stack builder taking the input
    dimension, the output dimension, the hidden widths, the
    bias-at-output flag and an optional tracking scope that wires the
    constructed layers as the tracked counterparts of a live stack.
    Layer [i] owns a weight matrix [W<i>] and, unless it is the output
    layer of a stack without output bias, a bias [b<i>], obtained from
    the current variable scope; hidden layers end in a
    nonlinearity. *)
Fixpoint mlp_from (x : tensor) (i : nat) (src_dim : Z) (hidden : list Z)
    (outp_dim : Z) (bias_output : bool) (track_scope : option string)
  : M tensor :=
  let Wi := "W" ++ str_of_nat i in
  let bi := "b" ++ str_of_nat i in
  let init_of n := match track_scope with
                   | Some sc => Some (InitTrack (sc ++ "/" ++ n))
                   | None => None
                   end in
  let bias_init := match track_scope with
                   | Some sc => Some (InitTrack (sc ++ "/" ++ bi))
                   | None => Some InitZeros
                   end in
  match hidden with
  | [] =>
      W <- tf.get_variable Wi [src_dim; outp_dim] (init_of Wi) ;;
      let x := tf.matmul x W in
      if bias_output then
        b <- tf.get_variable bi [outp_dim] bias_init ;;
        ret (tf.add x b)
      else ret x
  | tgt_dim :: hidden' =>
      W <- tf.get_variable Wi [src_dim; tgt_dim] (init_of Wi) ;;
      let x := tf.matmul x W in
      b <- tf.get_variable bi [tgt_dim] bias_init ;;
      let x := Op OActivation [tf.add x b] in
      mlp_from x (S i) tgt_dim hidden' outp_dim bias_output track_scope
  end.

Definition mlp (inp : tensor) (inp_dim outp_dim : Z) (hidden : list Z)
    (bias_output : bool) (track_scope : option string) : M tensor :=
  mlp_from inp 0 inp_dim hidden outp_dim bias_output track_scope.

(** Modelled from the spec: [util.track_model_updates] is not among
    the sources.  Per the spec's Target Tracker: for every live
    parameter (name under the live scope prefix) the tracked
    parameter with the same suffix under the tracked prefix is updated
    by [tracked <- tracked + tau * (live - tracked)]; a live parameter
    without tracked counterpart is a configuration error; the updates
    form one grouped operation. *)
Definition track_update_of (main_name track_name : string) (tau : tensor)
    (vars : list variable) (live : variable) : M tensor :=
  let suffix := drop_chars (String.length main_name + 1) (v_name live) in
  let tracked_name := track_name ++ "/" ++ suffix in
  match find (fun v => String.eqb (v_name v) tracked_name) vars with
  | Some tracked =>
      let tr := handle tracked in
      ret (tf.assign tr (tf.add tr (tf.mul tau (tf.sub (handle live) tr))))
  | None => raise (ValueError "no tracked counterpart")
  end.

Definition track_model_updates (main_name track_name : string)
    (tau : tensor) : M tensor :=
  vars <- tf.all_variables ;;
  let live := filter (fun v => startswith (var_name v) (main_name ++ "/"))
                     vars in
  updates <- mapM (track_update_of main_name track_name tau vars) live ;;
  ret (tf.group updates).

End util.

(* ================================================================== *)
(** ** The recurrent cells and decoders of the engine's model library *)

(** The [RNNCell] interface. *)
Record RNNCell : Type := mkCell {
  input_size : Z;
  output_size : Z;
  state_size : Z;
  (** [cell(inputs, state, scope=None)] *)
  call : tensor -> tensor -> option string -> M (tensor * tensor)
}.

(** [scope or default]: an empty name counts as none. *)
Definition scope_or (scope : option string) (default : string) : string :=
  match scope with
  | Some s => if String.eqb s "" then default else s
  | None => default
  end.

Module rnn_cell.

(** [linear.linear(args, output_size, bias, bias_start)]. *)
Definition linear (args : list tensor) (output_size : Z) (bias : bool)
    (bias_start : Q) : M tensor :=
  tf.variable_scope "Linear" None None (
    matrix <- tf.get_variable "Matrix" [output_size] None ;;
    let res := match args with
               | [a] => tf.matmul a matrix
               | _ => tf.matmul (tf.concat 1 args) matrix
               end in
    if bias then
      bias_term <- tf.get_variable "Bias" [output_size]
                     (Some (InitConstant bias_start)) ;;
      ret (tf.add res bias_term)
    else ret res).

(** [GRUCell(num_units).__call__]. *)
Definition GRUCell_call (num_units : Z) (inputs state : tensor)
    (scope : option string) : M (tensor * tensor) :=
  tf.variable_scope (scope_or scope "GRUCell") None None (
    ru <- tf.variable_scope "Gates" None None
            (linear [inputs; state] (2 * num_units) true 1) ;;
    let r := tf.sigmoid (Op (OSplit 1 2 0) [ru]) in
    let u := tf.sigmoid (Op (OSplit 1 2 1) [ru]) in
    c <- tf.variable_scope "Candidate" None None
           (lin <- linear [inputs; tf.mul r state] num_units true 0 ;;
            ret (tf.tanh lin)) ;;
    let new_h := tf.add (tf.mul u state)
                        (tf.mul (tf.sub (Const 1 []) u) c) in
    ret (new_h, new_h)).

Definition GRUCell (num_units : Z) : RNNCell :=
  mkCell num_units num_units num_units (GRUCell_call num_units).

End rnn_cell.

Module rnn.

(** The body of the unrolling loop of [rnn.rnn], from time step [time]
    on. *)
Fixpoint rnn_steps (cell : RNNCell) (time : nat) (state : tensor)
    (inputs : list tensor) : M (list tensor * list tensor) :=
  match inputs with
  | [] => ret ([], [])
  | input_ :: rest =>
      (if Nat.ltb 0 time then tf.reuse_variables else ret tt) ;;;
      os <- call cell input_ state None ;;
      let '(output, state') := os in
      r <- rnn_steps cell (S time) state' rest ;;
      let '(outputs, states) := r in
      ret (output :: outputs, state' :: states)
  end.

(** [rnn.rnn(cell, inputs, dtype=tf.float32, scope=scope)]: returns the
    outputs and the state after every input. *)
Definition rnn (cell : RNNCell) (inputs : list tensor)
    (scope : option string) : M (list tensor * list tensor) :=
  match inputs with
  | [] => raise (ValueError "inputs must not be empty")
  | input0 :: _ =>
      tf.variable_scope (scope_or scope "RNN") None None (
        let batch_size := tf.getitem (tf.shape input0) 0 in
        let state := tf.zeros (tf.pack [batch_size;
                                        IntConst (state_size cell)]) in
        rnn_steps cell 0 state inputs)
  end.

End rnn.

(** A loop function: [loop_function(output_t, t)]. *)
Definition loop_fn_t : Type := tensor -> nat -> M tensor.

Module seq2seq.

(** The loop of [seq2seq.rnn_decoder] from step [i] on; [state] is
    [states[-1]]. *)
Fixpoint rnn_decoder_steps (cell : RNNCell)
    (loop_function : option loop_fn_t) (i : nat) (prev : option tensor)
    (state : tensor) (decoder_inputs : list tensor)
  : M (list tensor * list tensor) :=
  match decoder_inputs with
  | [] => ret ([], [])
  | inp :: rest =>
      inp' <- match loop_function, prev with
              | Some lf, Some p =>
                  tf.variable_scope "loop_function" (Some true) None (
                    x <- lf p i ;; ret (tf.stop_gradient x))
              | _, _ => ret inp
              end ;;
      (if Nat.ltb 0 i then tf.reuse_variables else ret tt) ;;;
      os <- call cell inp' state None ;;
      let '(output, new_state) := os in
      let prev' := match loop_function with
                   | Some _ => Some (tf.stop_gradient output)
                   | None => prev
                   end in
      r <- rnn_decoder_steps cell loop_function (S i) prev' new_state
             rest ;;
      let '(outputs, states) := r in
      ret (output :: outputs, new_state :: states)
  end.

(** [seq2seq.rnn_decoder(decoder_inputs, initial_state, cell,
    loop_function=...)]: the outputs, and the states headed by the
    initial state. *)
Definition rnn_decoder (decoder_inputs : list tensor)
    (initial_state : tensor) (cell : RNNCell)
    (loop_function : option loop_fn_t)
  : M (list tensor * list tensor) :=
  tf.variable_scope "rnn_decoder" None None (
    r <- rnn_decoder_steps cell loop_function 0 None initial_state
           decoder_inputs ;;
    let '(outputs, states) := r in
    ret (outputs, initial_state :: states)).

End seq2seq.

(* ================================================================== *)
(** ** [rlcomp.pointer_network] *)

Module pointer_network.

(** Modelled from the spec: [ptr_net_decoder] is not among the
    sources.  Per the spec (4.7) the decoder recurrence starts from
    the given initial state; at each step the cell runs on that
    step's input and the previous state, the step's raw output is
    scored against the encoder memory (attention), and the feedback
    function turns the step's output into the next step's input, which
    is retained.  It returns the outputs, the states headed by the
    initial state, and the inputs used at each step. *)
Fixpoint ptr_net_decoder_steps (cell : RNNCell) (attn_states : tensor)
    (loop_function : loop_fn_t) (i : nat) (prev : option tensor)
    (state : tensor) (decoder_inputs : list tensor)
  : M (list tensor * list tensor * list tensor) :=
  match decoder_inputs with
  | [] => ret ([], [], [])
  | inp :: rest =>
      (if Nat.ltb 0 i then tf.reuse_variables else ret tt) ;;;
      inp' <- match prev with
              | Some p => loop_function p i
              | None => ret inp
              end ;;
      os <- call cell inp' state None ;;
      let '(cell_output, new_state) := os in
      v <- tf.variable_scope "Attention" None None
             (tf.get_variable "AttnV" [output_size cell] None) ;;
      let output := Op OAttention [attn_states; cell_output; v] in
      r <- ptr_net_decoder_steps cell attn_states loop_function (S i)
             (Some output) new_state rest ;;
      let '(outputs, states, inputs) := r in
      ret (output :: outputs, new_state :: states, inp' :: inputs)
  end.

Definition ptr_net_decoder (decoder_inputs : list tensor)
    (initial_state attention_states : tensor) (cell : RNNCell)
    (loop_function : loop_fn_t) (scope : option string)
  : M (list tensor * list tensor * list tensor) :=
  tf.variable_scope (scope_or scope "ptr_net_decoder") None None (
    r <- ptr_net_decoder_steps cell attention_states loop_function 0 None
           initial_state decoder_inputs ;;
    let '(outputs, states, inputs) := r in
    ret (outputs, initial_state :: states, inputs)).

End pointer_network.

(* ================================================================== *)
(** ** [rlcomp.dpg] *)

Definition as_tensor (v : pyval) : M tensor :=
  match v with
  | PT t => ret t
  | PL _ => raise TypeError
  end.

Definition as_list (v : pyval) : M (list tensor) :=
  match v with
  | PL l => ret l
  | PT _ => raise TypeError
  end.

(** [l[0]]. *)
Definition index0 {A} (l : list A) : M A :=
  match l with
  | x :: _ => ret x
  | [] => raise IndexError
  end.

(** [l[-1]]. *)
Definition index_last {A} (l : list A) : M A :=
  match rev l with
  | x :: _ => ret x
  | [] => raise IndexError
  end.

(** [policy_model(inp, mdp, spec, name, reuse, track_scope)]. *)
Definition policy_model (inp : tensor) (mdp : mdp_t) (spec : spec_t)
    (name : string) (reuse : option bool) (track_scope : option string)
  : M tensor :=
  tf.variable_scope name reuse (Some (InitTruncatedNormal (1 # 2))) (
    util.mlp inp (state_dim mdp) (action_dim mdp) (policy_dims spec)
             false track_scope).

Definition noise_gaussian_tensor (actions : tensor) (stddev : Q)
  : M tensor :=
  noise <- tf.random_normal (tf.shape actions) 0 stddev ;;
  ret (tf.add actions noise).

(** [noise_gaussian(inp, actions, stddev)]: a list of per-timestep
    actions is noised element by element. *)
Definition noise_gaussian (inp actions : pyval) (stddev : Q) : M pyval :=
  match actions with
  | PL l =>
      l' <- mapM (fun actions_t => noise_gaussian_tensor actions_t stddev)
                 l ;;
      ret (PL l')
  | PT t =>
      t' <- noise_gaussian_tensor t stddev ;;
      ret (PT t')
  end.

(** [critic_model(inp, actions, mdp, spec, name, reuse, track_scope)]. *)
Definition critic_model (inp actions : tensor) (mdp : mdp_t)
    (spec : spec_t) (name : string) (reuse : option bool)
    (track_scope : option string) : M tensor :=
  tf.variable_scope name reuse (Some (InitTruncatedNormal (1 # 4))) (
    output <- util.mlp (tf.concat 1 [inp; actions])
                       (state_dim mdp + action_dim mdp) 1
                       (critic_dims spec) true track_scope ;;
    ret (tf.squeeze (tf.tanh output))).

(** The reuse flag the sequence critics give timestep [t]:
    [(reuse or t > 0) or None]. *)
Definition reuse_at (reuse : option bool) (t : nat) : option bool :=
  if (match reuse with Some true => true | _ => false end) || Nat.ltb 0 t
  then Some true else None.

(** The methods [DPG.__init__] calls on [self]; a subclass supplies its
    own. *)
Record methods : Type := mkMethods {
  m_make_params : dpg -> M dpg;
  m_make_inputs : dpg -> M dpg;
  m_make_graph : dpg -> M dpg;
  m_make_objectives : dpg -> M dpg;
  m_make_updates : dpg -> M dpg
}.

(** An instance before any constructor ran. *)
Definition blank : dpg :=
  mkDpg (fun _ a => ret a) (mkMdp 0 0) (mkSpec [] []) "" 0 0 0 false [].

(** The assignments a sequence subclass makes before it calls the base
    constructor: [self.input_dim = ...] and the like. *)
Definition set_sequence_config (self : dpg) (i v s : Z) (bn : bool) : dpg :=
  mkDpg (noiser self) (mdp_spec self) (spec self) (name self) i v s bn
        (attrs self).

Definition bind_opt (k : string) (v : option pyval)
  : list (string * pyval) :=
  match v with
  | Some x => [(k, x)]
  | None => []
  end.

(** The assignments at the head of [DPG.__init__]: the noiser (the
    Gaussian one with standard deviation 0.1 by default), the
    hyperparameters, the inputs and the name. *)
Definition init_self (self : dpg) (mdp : mdp_t) (spec : spec_t)
    (inputs q_targets tau : option pyval) (noiser : option noiser_t)
    (name : string) : dpg :=
  mkDpg (match noiser with
         | None => fun inp actions => noise_gaussian inp actions (1 # 10)
         | Some n => n
         end)
        mdp spec name (input_dim self) (vocab_size self) (seq_length self)
        (bn_actions self)
        (bind_opt "tau" tau ++ bind_opt "q_targets" q_targets
         ++ bind_opt "inputs" inputs ++ attrs self)%list.

Module DPG.

Definition _make_params (self : dpg) : M dpg := ret self.

Definition _make_inputs (self : dpg) : M dpg :=
  inputs <- py_or (attr self "inputs")
              (p <- tf.placeholder [None; Some (state_dim (mdp_spec self))]
                                   "inputs" ;; ret (PT p)) ;;
  let self := setattr self "inputs" inputs in
  q_targets <- py_or (attr self "q_targets")
                 (p <- tf.placeholder [None] "q_targets" ;; ret (PT p)) ;;
  let self := setattr self "q_targets" q_targets in
  tau <- py_or (attr self "tau")
           (p <- tf.placeholder [Some 1%Z] "tau" ;; ret (PT p)) ;;
  ret (setattr self "tau" tau).

Definition _make_graph (self : dpg) : M dpg :=
  (* Build main model: actor *)
  inputs <- get_tensor self "inputs" ;;
  a_pred <- policy_model inputs (mdp_spec self) (spec self) "policy"
              None None ;;
  let self := setattr self "a_pred" (PT a_pred) in
  a_explore <- noiser self (PT inputs) (PT a_pred) ;;
  let self := setattr self "a_explore" a_explore in
  (* Build main model: critic (on- and off-policy) *)
  critic_on <- critic_model inputs a_pred (mdp_spec self) (spec self)
                 "critic" None None ;;
  let self := setattr self "critic_on" (PT critic_on) in
  a_explore_t <- as_tensor a_explore ;;
  critic_off <- critic_model inputs a_explore_t (mdp_spec self)
                  (spec self) "critic" (Some true) None ;;
  let self := setattr self "critic_off" (PT critic_off) in
  (* Build tracking models. *)
  a_pred_track <- policy_model inputs (mdp_spec self) (spec self)
                    "policy_track" None
                    (Some (name self ++ "/policy")) ;;
  let self := setattr self "a_pred_track" (PT a_pred_track) in
  critic_on_track <- critic_model inputs a_pred (mdp_spec self)
                       (spec self) "critic_track" None
                       (Some (name self ++ "/critic")) ;;
  ret (setattr self "critic_on_track" (PT critic_on_track)).

Definition _make_objectives (self : dpg) : M dpg :=
  vars <- tf.all_variables ;;
  let policy_params :=
    filter (fun var => contains "policy/" (var_name var)) vars in
  vars' <- tf.all_variables ;;
  let critic_params :=
    filter (fun var => contains "critic/" (var_name var)) vars' in
  let self := setattr self "policy_params" (PL (map handle policy_params)) in
  let self := setattr self "critic_params" (PL (map handle critic_params)) in
  (* Policy objective: maximize on-policy critic activations *)
  critic_on <- get_tensor self "critic_on" ;;
  let self := setattr self "policy_objective"
                (PT (tf.neg (tf.reduce_mean critic_on None))) in
  (* Critic objective: minimize MSE of off-policy Q-value predictions *)
  critic_off <- get_tensor self "critic_off" ;;
  q_targets <- get_tensor self "q_targets" ;;
  let q_errors := tf.square (tf.sub critic_off q_targets) in
  ret (setattr self "critic_objective" (PT (tf.reduce_mean q_errors None))).

Definition _make_updates (self : dpg) : M dpg :=
  tau <- get_tensor self "tau" ;;
  policy_track_update <-
    util.track_model_updates (name self ++ "/policy")
                             (name self ++ "/policy_track") tau ;;
  critic_track_update <-
    util.track_model_updates (name self ++ "/critic")
                             (name self ++ "/critic_track") tau ;;
  ret (setattr self "track_update"
         (PT (tf.group [policy_track_update; critic_track_update]))).

Definition cls : methods :=
  mkMethods _make_params _make_inputs _make_graph _make_objectives
            _make_updates.

(** [DPG.__init__(self, mdp, spec, inputs, q_targets, tau, noiser,
    name)], with the methods of the instance's class in [c]. *)
Definition __init__ (c : methods) (self : dpg) (mdp : mdp_t)
    (spec : spec_t) (inputs q_targets tau : option pyval)
    (noiser : option noiser_t) (name : string) : M dpg :=
  let self := init_self self mdp spec inputs q_targets tau noiser name in
  tf.variable_scope name None None (
    self <- m_make_params c self ;;
    self <- m_make_inputs c self ;;
    self <- m_make_graph c self ;;
    self <- m_make_objectives c self ;;
    m_make_updates c self).

(** [DPG(mdp, spec, inputs=..., q_targets=..., tau=..., noiser=...,
    name=...)]. *)
Definition new (mdp : mdp_t) (spec : spec_t)
    (inputs q_targets tau : option pyval) (noiser : option noiser_t)
    (name : string) : M dpg :=
  __init__ cls blank mdp spec inputs q_targets tau noiser name.

End DPG.

(** A batch of soft actions handed to [harden_actions]: a Numpy matrix. *)
Definition matrix : Type := list (list Q).

Module RecurrentDPG.

(** What a concrete subclass may supply in place of the abstract
    methods. *)
Record overrides : Type := mkOverrides {
  ov_loop_function : option (dpg -> M loop_fn_t);
  ov_harden_actions : option (dpg -> list matrix -> M (list matrix))
}.

(** The class itself: nothing overridden. *)
Definition abstract : overrides := mkOverrides None None.

Definition _make_inputs (self : dpg) : M dpg :=
  inputs <- py_or (attr self "inputs")
              (p <- tf.placeholder [None; Some (input_dim self)] "inputs" ;;
               ret (PT p)) ;;
  let self := setattr self "inputs" inputs in
  q_targets <- py_or (attr self "q_targets")
                 (p <- tf.placeholder [None] "q_targets" ;; ret (PT p)) ;;
  let self := setattr self "q_targets" q_targets in
  tau <- py_or (attr self "tau")
           (p <- tf.placeholder [Some 1%Z] "tau" ;; ret (PT p)) ;;
  let self := setattr self "tau" tau in
  (* HACK: Provide inputs for single steps in recurrence. *)
  d0 <- index0 (policy_dims (spec self)) ;;
  decoder_state_ind <- tf.placeholder [None; Some d0] "dec_state_ind" ;;
  let self := setattr self "decoder_state_ind" (PT decoder_state_ind) in
  decoder_action_ind <-
    tf.placeholder [None; Some (action_dim (mdp_spec self))]
                   "dec_action_ind" ;;
  ret (setattr self "decoder_action_ind" (PT decoder_action_ind)).

(** [PolicyRNNCell(cell, dpg).__call__]. *)
Definition PolicyRNNCell_call (cell : RNNCell) (self : dpg)
    (inputs state : tensor) (scope : option string)
  : M (tensor * tensor) :=
  (* Run the wrapped cell. *)
  os <- call cell inputs state None ;;
  let '(output, res_state) := os in
  actions <- tf.variable_scope (scope_or scope "PolicyRNNCell") None None
               (policy_model output (mdp_spec self) (spec self) "policy"
                             None None) ;;
  ret (actions, res_state).

Definition PolicyRNNCell (cell : RNNCell) (self : dpg) : RNNCell :=
  mkCell (input_size cell) (action_dim (mdp_spec self)) (state_size cell)
         (PolicyRNNCell_call cell self).

Definition _policy_cell (self : dpg) (decoder_cell : RNNCell) : RNNCell :=
  PolicyRNNCell decoder_cell self.

(** The abstract [_loop_function]. *)
Definition _loop_function (self : dpg) : M loop_fn_t :=
  raise (NotImplementedError "abstract method").

(** [self._loop_function()] on an instance of a class with overrides
    [ov]. *)
Definition call_loop_function (ov : overrides) (self : dpg)
  : M loop_fn_t :=
  match ov_loop_function ov with
  | Some f => f self
  | None => _loop_function self
  end.

Definition _critic (self : dpg) (states_list actions_list : list tensor)
    (reuse : option bool) : M (list tensor) :=
  mapM_enum
    (fun t sa =>
       let '(states_t, actions_t) := sa in
       let reuse_t := reuse_at reuse t in
       critic_model states_t actions_t (mdp_spec self) (spec self)
                    "critic" reuse_t None)
    0 (zip states_list actions_list).

(** The abstract [harden_actions]. *)
Definition harden_actions (self : dpg) (action_list : list matrix)
  : M (list matrix) :=
  raise (NotImplementedError "abstract method").

Definition call_harden_actions (ov : overrides) (self : dpg)
    (action_list : list matrix) : M (list matrix) :=
  match ov_harden_actions ov with
  | Some f => f self action_list
  | None => harden_actions self action_list
  end.

Definition _make_graph (ov : overrides) (self : dpg) : M dpg :=
  d0 <- index0 (policy_dims (spec self)) ;;
  let decoder_cell := rnn_cell.GRUCell d0 in
  let decoder_cell := _policy_cell self decoder_cell in
  (* Prepare dummy decoder inputs. *)
  inputs <- get_tensor self "inputs" ;;
  let batch_size := tf.getitem (tf.shape inputs) 0 in
  let input_shape := tf.pack [batch_size; IntConst (input_dim self)] in
  let decoder_inputs :=
    map (fun _ => tf.zeros input_shape) (range (seq_length self)) in
  (* Build decoder loop function which maps from decoder outputs /
     policy actions to decoder inputs. *)
  loop_function <- call_loop_function ov self ;;
  (* Build dummy initial state for decoder. *)
  let init_state :=
    tf.zeros (tf.pack [batch_size; IntConst (state_size decoder_cell)]) in
  r <- seq2seq.rnn_decoder decoder_inputs init_state decoder_cell
         (Some loop_function) ;;
  let '(a_pred, decoder_states) := r in
  let self := setattr self "a_pred" (PL a_pred) in
  (* Drop init state. *)
  let decoder_states := tl decoder_states in
  let self := setattr self "decoder_states" (PL decoder_states) in
  a_explore <- noiser self (PT inputs) (PL a_pred) ;;
  let self := setattr self "a_explore" a_explore in
  (* Build main model: critic (on- and off-policy) *)
  critic_on_seq <- _critic self decoder_states a_pred None ;;
  let self := setattr self "critic_on_seq" (PL critic_on_seq) in
  a_explore_l <- as_list a_explore ;;
  critic_off_seq <- _critic self decoder_states a_explore_l (Some true) ;;
  let self := setattr self "critic_off_seq" (PL critic_off_seq) in
  (* Build helper for predicting Q-value in an isolated state (not part
     of a larger recurrence) *)
  decoder_state_ind <- get_tensor self "decoder_state_ind" ;;
  os <- call decoder_cell inputs decoder_state_ind None ;;
  let '(a_pred_ind, _) := os in
  a_explore_ind <- noiser self (PT inputs) (PT a_pred_ind) ;;
  critic_on <- critic_model decoder_state_ind a_pred_ind (mdp_spec self)
                 (spec self) "critic" (Some true) None ;;
  let self := setattr self "critic_on" (PT critic_on) in
  a_explore_ind_t <- as_tensor a_explore_ind ;;
  critic_off <- critic_model decoder_state_ind a_explore_ind_t
                  (mdp_spec self) (spec self) "critic" (Some true) None ;;
  let self := setattr self "critic_off" (PT critic_off) in
  (* DEV: monitor average activations *)
  tf.scalar_summary "a_pred_ind.mean" (tf.reduce_mean a_pred_ind None) ;;;
  tf.scalar_summary "critic_on(a_pred_ind).mean"
                    (tf.reduce_mean critic_on None) ;;;
  ret self.

Definition _make_updates (self : dpg) : M dpg :=
  (* TODO support tracking model *)
  ret self.

Definition cls (ov : overrides) : methods :=
  mkMethods DPG._make_params _make_inputs (_make_graph ov)
            DPG._make_objectives _make_updates.

(** [RecurrentDPG.__init__(self, mdp, spec, input_dim, vocab_size,
    seq_length, **kwargs)] for an instance of a class with overrides
    [ov]. *)
Definition __init__ (ov : overrides) (mdp : mdp_t) (spec : spec_t)
    (input_dim vocab_size seq_length : Z)
    (inputs q_targets tau : option pyval) (noiser : option noiser_t)
    (name : string) : M dpg :=
  let self :=
    set_sequence_config blank input_dim vocab_size seq_length false in
  DPG.__init__ (cls ov) self mdp spec inputs q_targets tau noiser name.

End RecurrentDPG.

Module PointerNetDPG.

Definition _make_params (self : dpg) : M dpg :=
  if bn_actions self then
    tf.variable_scope "bn" None None (
      let shape := [action_dim (mdp_spec self)] in
      bn_beta <- tf.new_Variable 0 shape "beta" ;;
      let self := setattr self "bn_beta" (PT bn_beta) in
      bn_gamma <- tf.new_Variable 1 shape "gamma" ;;
      let self := setattr self "bn_gamma" (PT bn_gamma) in
      (* Track avg values of the beta + gamma (scale + shift) *)
      tf.scalar_summary "bn_beta.mean" (tf.reduce_mean bn_beta None) ;;;
      tf.scalar_summary "bn_gamma.mean" (tf.reduce_mean bn_gamma None) ;;;
      ret self)
  else ret self.

Definition _make_inputs (self : dpg) : M dpg :=
  self <- (if negb (truthy (attr self "inputs")) then
             ps <- mapM (fun _ => tf.placeholder
                                    [None; Some (input_dim self)] "")
                        (range (seq_length self)) ;;
             ret (setattr self "inputs" (PL ps))
           else ret self) ;;
  tau <- py_or (attr self "tau")
           (p <- tf.placeholder [Some 1%Z] "tau" ;; ret (PT p)) ;;
  ret (setattr self "tau" tau).

(** [PointerNetDPG._loop_function]: the feedback function of the
    pointer network. *)
Definition loop_fn (attn_states : tensor) : loop_fn_t :=
  fun output_t t =>
    let output_t := tf.softmax output_t in
    let weighted_mems :=
      tf.mul attn_states (tf.expand_dims output_t 2) in
    let processed := tf.reduce_sum weighted_mems (Some 1%Z) in
    ret processed.

Definition _loop_function (self : dpg) : M loop_fn_t :=
  (* Use logits from output layer to compute a weighted sum of encoder
     memory elements. *)
  encoder_states <- get_list self "encoder_states" ;;
  let attn_states :=
    tf.concat 1 (map (fun states_t => tf.expand_dims states_t 1)
                     encoder_states) in
  ret (loop_fn attn_states).

Definition _critic (self : dpg) (actions_lst : pyval)
    (reuse : option bool) : M (list tensor) :=
  (* Here our state representation is a concatenation of 1) decoder
     hidden state and 2) decoder input. *)
  decoder_inputs <- get_list self "decoder_inputs" ;;
  decoder_states <- get_list self "decoder_states" ;;
  let states_lst :=
    map (fun p => let '(inputs_t, states_t) := p in
                  tf.concat 1 [inputs_t; states_t])
        (zip decoder_inputs decoder_states) in
  actions_lst <- as_list actions_lst ;;
  (* Evaluate Q(s, a) at each timestep. *)
  mapM_enum
    (fun t sa =>
       let '(states_t, actions_t) := sa in
       let reuse_t := reuse_at reuse t in
       critic_model states_t actions_t (mdp_spec self) (spec self)
                    "critic" reuse_t None)
    0 (zip states_lst actions_lst).

Definition _make_q_targets (self : dpg) : M dpg :=
  if negb (truthy (attr self "q_targets")) then
    ps <- mapM (fun _ => tf.placeholder [None] "")
               (range (seq_length self)) ;;
    ret (setattr self "q_targets" (PL ps))
  else ret self.

Definition _make_graph (self : dpg) : M dpg :=
  (* Encode sequence. *)
  d0 <- index0 (policy_dims (spec self)) ;;
  let encoder_cell := rnn_cell.GRUCell d0 in
  inputs <- get_list self "inputs" ;;
  r <- rnn.rnn encoder_cell inputs (Some "encoder") ;;
  let '(_, encoder_states) := r in
  let self := setattr self "encoder_states" (PL encoder_states) in
  (if Z.eqb (Z.of_nat (length encoder_states)) (seq_length self)
   then ret tt else raise AssertionError) ;;;
  (* Reshape encoder states into an "attention states" tensor of shape
     batch_size * seq_length * policy_dim. *)
  let attn_states :=
    tf.concat 1 (map (fun state_t => tf.expand_dims state_t 1)
                     encoder_states) in
  (* Build a simple GRU-powered recurrent decoder cell. *)
  let decoder_cell := rnn_cell.GRUCell d0 in
  (* Prepare dummy encoder input. *)
  inputs0 <- index0 inputs ;;
  let batch_size := tf.getitem (tf.shape inputs0) 0 in
  let dec_inp_shape :=
    tf.pack [batch_size; IntConst (input_size decoder_cell)] in
  let dec_inp_dummy := tf.zeros dec_inp_shape in
  let dec_inp := repeat dec_inp_dummy (Z.to_nat (seq_length self)) in
  (* Build pointer-network decoder. *)
  last_state <- index_last encoder_states ;;
  loop_function <- _loop_function self ;;
  r <- pointer_network.ptr_net_decoder dec_inp last_state attn_states
         decoder_cell loop_function (Some "decoder") ;;
  let '(a_pred, dec_states, dec_inputs) := r in
  let self := setattr self "a_pred" (PL a_pred) in
  (* Store dynamically calculated inputs -- critic may want to use
     these *)
  let self := setattr self "decoder_inputs" (PL dec_inputs) in
  (* Again strip the initial state. *)
  let self := setattr self "decoder_states" (PL (tl dec_states)) in
  (* Optional batch normalization. *)
  self <- (if bn_actions self then
             (* Compute moments over all timesteps (treat as one big
                batch). *)
             let batch_pred := tf.concat 0 a_pred in
             let mean := tf.reduce_mean batch_pred (Some 0%Z) in
             let variance :=
               tf.reduce_mean (tf.square (tf.sub batch_pred mean))
                              (Some 0%Z) in
             let batch_pred :=
               tf.expand_dims (tf.expand_dims batch_pred 1) 1 in
             bn_beta <- get_tensor self "bn_beta" ;;
             bn_gamma <- get_tensor self "bn_gamma" ;;
             let batch_pred :=
               tf.batch_norm_with_global_normalization
                 batch_pred mean variance bn_beta bn_gamma (1 # 1000)
                 true in
             ret (setattr self "a_pred"
                    (PL (tf.split 0 (seq_length self)
                                  (tf.squeeze batch_pred))))
           else ret self) ;;
  (* Use noiser to build exploratory rollouts. *)
  a_pred' <- get_list self "a_pred" ;;
  a_explore <- noiser self (PL inputs) (PL a_pred') ;;
  let self := setattr self "a_explore" a_explore in
  (* Build main model: recurrently apply a critic over the entire
     rollout. *)
  critic_on <- _critic self (PL a_pred') None ;;
  let self := setattr self "critic_on" (PL critic_on) in
  critic_off <- _critic self a_explore (Some true) ;;
  let self := setattr self "critic_off" (PL critic_off) in
  _make_q_targets self.

Definition _policy_params : M (list variable) :=
  vars <- tf.all_variables ;;
  ret (filter (fun var => contains "encoder/" (var_name var)
                          || contains "decoder/" (var_name var)) vars).

Definition _make_objectives (self : dpg) : M dpg :=
  policy_params <- _policy_params ;;
  vars <- tf.all_variables ;;
  let critic_params :=
    filter (fun var => contains "critic/" (var_name var)) vars in
  let policy_params := map handle policy_params in
  let critic_params := map handle critic_params in
  let self := setattr self "policy_params" (PL policy_params) in
  let self := setattr self "critic_params" (PL critic_params) in
  self <- (if bn_actions self then
             bn_beta <- get_tensor self "bn_beta" ;;
             bn_gamma <- get_tensor self "bn_gamma" ;;
             let bn_params := [bn_beta; bn_gamma] in
             let self := setattr self "policy_params"
                           (PL (policy_params ++ bn_params)%list) in
             ret (setattr self "critic_params"
                    (PL (critic_params ++ bn_params)%list))
           else ret self) ;;
  (* Policy objective: maximize on-policy critic activations *)
  critic_on <- get_list self "critic_on" ;;
  let mean_critic_over_time :=
    tf.div (tf.add_n critic_on) (IntConst (seq_length self)) in
  let mean_critic := tf.reduce_mean mean_critic_over_time None in
  let self := setattr self "policy_objective" (PT (tf.neg mean_critic)) in
  tf.scalar_summary "critic(a_pred).mean" mean_critic ;;;
  (* Critic objective: minimize MSE of off-policy Q-value predictions *)
  critic_off <- get_list self "critic_off" ;;
  q_targets <- get_list self "q_targets" ;;
  let q_errors :=
    map (fun p => let '(critic_off_t, q_targets_t) := p in
                  tf.reduce_mean
                    (tf.square (tf.sub critic_off_t q_targets_t)) None)
        (zip critic_off q_targets) in
  let critic_objective :=
    tf.div (tf.add_n q_errors) (IntConst (seq_length self)) in
  let self := setattr self "critic_objective" (PT critic_objective) in
  tf.scalar_summary "critic_objective" critic_objective ;;;
  let mean_critic_off :=
    tf.div (tf.reduce_mean (tf.add_n critic_off) None)
           (IntConst (seq_length self)) in
  tf.scalar_summary "critic(a_explore).mean" mean_critic_off ;;;
  a_pred <- get_list self "a_pred" ;;
  tf.scalar_summary "a_pred.mean"
    (tf.div (tf.reduce_mean (tf.add_n a_pred) None)
            (IntConst (seq_length self))) ;;;
  tf.scalar_summary "a_pred.maxabs"
    (tf.reduce_max (tf.abs (tf.pack a_pred))) ;;;
  ret self.

Definition _make_updates (self : dpg) : M dpg :=
  (* TODO support tracking model *)
  ret self.

(** The abstract [harden_actions]. *)
Definition harden_actions (self : dpg) (action_list : list matrix)
  : M (list matrix) :=
  raise (NotImplementedError "abstract method").

(** [self.harden_actions(action_list)] on an instance of a class that
    may override it. *)
Definition call_harden_actions
    (ov : option (dpg -> list matrix -> M (list matrix))) (self : dpg)
    (action_list : list matrix) : M (list matrix) :=
  match ov with
  | Some f => f self action_list
  | None => harden_actions self action_list
  end.

Definition cls : methods :=
  mkMethods _make_params _make_inputs _make_graph _make_objectives
            _make_updates.

(** [PointerNetDPG.__init__(self, mdp, spec, input_dim, seq_length,
    bn_actions=False, **kwargs)]. *)
Definition __init__ (mdp : mdp_t) (spec : spec_t)
    (input_dim seq_length : Z) (bn_actions : bool)
    (inputs q_targets tau : option pyval) (noiser : option noiser_t)
    (name : string) : M dpg :=
  let self := set_sequence_config blank input_dim 0 seq_length
                                  bn_actions in
  d0 <- index0 (policy_dims spec) ;;
  (if Z.eqb (state_dim mdp) (d0 * 2) then ret tt
   else raise AssertionError) ;;;
  DPG.__init__ cls self mdp spec inputs q_targets tau noiser name.

End PointerNetDPG.

(** The default arguments of the constructors. *)
Definition default_name : string := "dpg".

(* ================================================================== *)
(** ** The networks as expressions over their parameters *)

(** The expression [util.mlp] builds in the scope named [sc], from layer
    [i] on: a function of the parameters [sc/W<i>], [sc/b<i>] alone. *)
Fixpoint mlp_net (sc : string) (x : tensor) (i : nat) (hidden : list Z)
    (bias_output : bool) : tensor :=
  let W := VarRef (tf.join_scope sc ("W" ++ str_of_nat i)) in
  let b := VarRef (tf.join_scope sc ("b" ++ str_of_nat i)) in
  match hidden with
  | [] => if bias_output then tf.add (tf.matmul x W) b else tf.matmul x W
  | _ :: hidden' =>
      mlp_net sc (Op OActivation [tf.add (tf.matmul x W) b]) (S i) hidden'
              bias_output
  end.

(** The critic whose parameters live in the scope named [sc], as a
    function of the state and the action it is applied to. *)
Definition critic_net (sc : string) (spec : spec_t) (inp actions : tensor)
  : tensor :=
  tf.squeeze (tf.tanh (mlp_net sc (tf.concat 1 [inp; actions]) 0
                               (critic_dims spec) true)).

(** The policy whose parameters live in the scope named [sc]. *)
Definition policy_net (sc : string) (spec : spec_t) (inp : tensor)
  : tensor :=
  mlp_net sc inp 0 (policy_dims spec) false.

(** The names of the parameters of a stack in scope [sc]. *)
Fixpoint mlp_param_names (sc : string) (i : nat) (hidden : list Z)
    (bias_output : bool) : list string :=
  let W := tf.join_scope sc ("W" ++ str_of_nat i) in
  let b := tf.join_scope sc ("b" ++ str_of_nat i) in
  match hidden with
  | [] => if bias_output then [W; b] else [W]
  | _ :: hidden' => W :: b :: mlp_param_names sc (S i) hidden' bias_output
  end.

(** Whether the placeholder with identity [u] feeds the tensor [t]. *)
Fixpoint mentions (u : nat) (t : tensor) : bool :=
  match t with
  | Placeholder u' _ _ => Nat.eqb u' u
  | Op _ args =>
      (fix any (l : list tensor) : bool :=
         match l with
         | [] => false
         | a :: l' => mentions u a || any l'
         end) args
  | _ => false
  end.

Definition mentions_val (u : nat) (v : pyval) : bool :=
  match v with
  | PT t => mentions u t
  | PL l => existsb (mentions u) l
  end.

(** The per-timestep pairing the sequence critics iterate over. *)
Definition map2 {A B C} (f : A -> B -> C) (l1 : list A) (l2 : list B)
  : list C :=
  map (fun p => f (fst p) (snd p)) (zip l1 l2).

(* ================================================================== *)
(** ** Values and the meaning of the arithmetic nodes *)

Open Scope R_scope.

(** A tensor value: a real, an integer (shapes), or an array. *)
#[warnings="-register-all"]
Inductive val : Type :=
| VR (r : R)
| VI (z : Z)
| VA (l : list val).

Fixpoint shape_of (v : val) : list nat :=
  match v with
  | VA l => length l :: match l with
                        | x :: _ => shape_of x
                        | [] => []
                        end
  | _ => []
  end.

Definition rank (v : val) : nat := length (shape_of v).

(** [has_shape dims v]: [v] is a regular array of reals of dimensions
    [dims]. *)
Fixpoint has_shape (dims : list nat) (v : val) : Prop :=
  match v with
  | VR _ => dims = []
  | VI _ => False
  | VA l =>
      match dims with
      | n :: dims' =>
          length l = n /\
          (fix all (l : list val) : Prop :=
             match l with
             | [] => True
             | x :: l' => has_shape dims' x /\ all l'
             end) l
      | [] => False
      end
  end.

(** The array of dimensions [dims] whose entry at index [idx] is
    [f idx]. *)
Fixpoint fill (dims : list nat) (f : list nat -> R) : val :=
  match dims with
  | [] => VR (f [])
  | n :: dims' =>
      VA (map (fun i => fill dims' (fun idx => f (i :: idx)%list)) (seq 0 n))
  end.

Fixpoint mapO {A B} (f : A -> option B) (l : list A) : option (list B) :=
  match l with
  | [] => Some []
  | a :: l' =>
      match f a, mapO f l' with
      | Some b, Some bs => Some (b :: bs)
      | _, _ => None
      end
  end.

(** Elementwise application; an integer is read as a real. *)
Fixpoint vmap (f : R -> R) (v : val) : val :=
  match v with
  | VR r => VR (f r)
  | VI z => VR (f (IZR z))
  | VA l => VA (map (vmap f) l)
  end.

(** Elementwise combination of two arrays of the same rank; a dimension
    of length one is broadcast. *)
Fixpoint bop_same (f : R -> R -> R) (a b : val) {struct a} : option val :=
  match a with
  | VR x => Some (vmap (f x) b)
  | VI z => Some (vmap (f (IZR z)) b)
  | VA la =>
      match b with
      | VR y => Some (vmap (fun x => f x y) a)
      | VI z => Some (vmap (fun x => f x (IZR z)) a)
      | VA lb =>
          if Nat.eqb (length la) (length lb) then
            option_map VA
              ((fix zipb (la lb : list val) : option (list val) :=
                  match la, lb with
                  | x :: la', y :: lb' =>
                      match bop_same f x y, zipb la' lb' with
                      | Some v, Some vs => Some (v :: vs)
                      | _, _ => None
                      end
                  | _, _ => Some []
                  end) la lb)
          else
            match lb with
            | [y] =>
                option_map VA
                  ((fix mapb (la : list val) : option (list val) :=
                      match la with
                      | [] => Some []
                      | x :: la' =>
                          match bop_same f x y, mapb la' with
                          | Some v, Some vs => Some (v :: vs)
                          | _, _ => None
                          end
                      end) la)
            | _ =>
                match la with
                | [x] => option_map VA (mapO (fun y => bop_same f x y) lb)
                | _ => None
                end
            end
      end
  end.

(** Apply [g] to the sub-arrays at depth [k]. *)
Fixpoint lift_at (k : nat) (g : val -> option val) (v : val) : option val :=
  match k with
  | O => g v
  | S k' =>
      match v with
      | VA l => option_map VA (mapO (lift_at k' g) l)
      | _ => None
      end
  end.

(** Elementwise combination with broadcasting: the operand of lower
    rank is aligned with the trailing dimensions of the other. *)
Definition bop (f : R -> R -> R) (a b : val) : option val :=
  if Nat.ltb (rank a) (rank b)
  then lift_at (rank b - rank a) (fun b' => bop_same f a b') b
  else lift_at (rank a - rank b) (fun a' => bop_same f a' b) a.

(** The entries of an array, in order. *)
Fixpoint flatten (v : val) : list R :=
  match v with
  | VR r => [r]
  | VI z => [IZR z]
  | VA l => flat_map flatten l
  end.

Definition Rsum (l : list R) : R := fold_right Rplus 0 l.

Definition mean (l : list R) : R := Rsum l / INR (length l).

Definition as_real (v : val) : option R :=
  match v with VR r => Some r | _ => None end.

Definition as_array (v : val) : option (list val) :=
  match v with VA l => Some l | _ => None end.

Definition as_int (v : val) : option Z :=
  match v with VI z => Some z | _ => None end.

(** The row of reals [xs] as a vector. *)
Definition vec (xs : list R) : val := VA (map VR xs).

(** Softmax of one row of logits. *)
Definition softmax_vec (xs : list R) : list R :=
  map (fun x => exp x / Rsum (map exp xs)) xs.

(** Softmax along the last axis. *)
Fixpoint vsoftmax (v : val) : option val :=
  match v with
  | VA l =>
      match mapO as_real l with
      | Some xs => Some (vec (softmax_vec xs))
      | None => option_map VA (mapO vsoftmax l)
      end
  | _ => None
  end.

(** The sum of the entries of a non-empty list of arrays. *)
Definition vsum (l : list val) : option val :=
  match l with
  | [] => None
  | x :: l' =>
      fold_left (fun acc y => match acc with
                              | Some a => bop_same Rplus a y
                              | None => None
                              end) l' (Some x)
  end.

Fixpoint reduce_sum_axis (n : nat) (v : val) : option val :=
  match v with
  | VA l =>
      match n with
      | O => vsum l
      | S n' => option_map VA (mapO (reduce_sum_axis n') l)
      end
  | _ => None
  end.

Fixpoint expand_dims_axis (n : nat) (v : val) : option val :=
  match n with
  | O => Some (VA [v])
  | S n' =>
      match v with
      | VA l => option_map VA (mapO (expand_dims_axis n') l)
      | _ => None
      end
  end.

Fixpoint vconcat (n : nat) (vs : list val) : option val :=
  match mapO as_array vs with
  | None => None
  | Some ls =>
      match n with
      | O => Some (VA (List.concat ls))
      | S n' =>
          match ls with
          | [] => None
          | l0 :: _ =>
              if forallb (fun l => Nat.eqb (length l) (length l0)) ls then
                option_map VA
                  (mapO (fun i => vconcat n' (map (fun l => nth i l (VI 0)) ls))
                        (seq 0 (length l0)))
              else None
          end
      end
  end.

(** What the values of the nodes depend on. *)
Record env : Type := mkEnv {
  feed : nat -> option val;            (* the placeholders, by identity *)
  var_value : string -> option val;    (* the current parameter values *)
  sample : nat -> list nat -> R;       (* standard normal draws, per node *)
  opaque : opk -> list val -> option val  (* the remaining node kinds *)
}.

Definition axis_nat (axis : Z) : option nat :=
  if Z.leb 0 axis then Some (Z.to_nat axis) else None.

Definition eval_op (e : env) (o : opk) (vs : list val) : option val :=
  match o, vs with
  | OAdd, [a; b] => bop Rplus a b
  | OSub, [a; b] => bop Rminus a b
  | OMul, [a; b] => bop Rmult a b
  | ODiv, [a; b] => bop Rdiv a b
  | ONeg, [a] => Some (vmap Ropp a)
  | OSquare, [a] => Some (vmap (fun x => x * x) a)
  | OAbs, [a] => Some (vmap Rabs a)
  | OTanh, [a] => Some (vmap tanh a)
  | OSoftmax, [a] => vsoftmax a
  | OStopGradient, [a] => Some a
  | OReduceMean None, [a] =>
      match flatten a with
      | [] => None
      | xs => Some (VR (mean xs))
      end
  | OReduceSum (Some axis), [a] =>
      match axis_nat axis with
      | Some n => reduce_sum_axis n a
      | None => opaque e o vs
      end
  | OConcat axis, _ =>
      match axis_nat axis with
      | Some n => vconcat n vs
      | None => opaque e o vs
      end
  | OExpandDims axis, [a] =>
      match axis_nat axis with
      | Some n => expand_dims_axis n a
      | None => opaque e o vs
      end
  | OShape, [a] => Some (VA (map (fun d => VI (Z.of_nat d)) (shape_of a)))
  | ORandomNormal u m s, [VA dims] =>
      match mapO as_int dims with
      | Some ds =>
          Some (fill (map Z.to_nat ds)
                     (fun idx => Q2R m + Q2R s * sample e u idx))
      | None => None
      end
  | _, _ => opaque e o vs
  end.

(** The value of a tensor. *)
Fixpoint eval (e : env) (t : tensor) : option val :=
  match t with
  | Placeholder u _ _ => feed e u
  | VarRef n => var_value e n
  | Const q shp => Some (fill (map Z.to_nat shp) (fun _ => Q2R q))
  | IntConst z => Some (VI z)
  | Op o args =>
      match (fix evals (l : list tensor) : option (list val) :=
               match l with
               | [] => Some []
               | a :: l' =>
                   match eval e a, evals l' with
                   | Some v, Some vs => Some (v :: vs)
                   | _, _ => None
                   end
               end) args with
      | Some vs => eval_op e o vs
      | None => None
      end
  end.

Close Scope R_scope.

(* ================================================================== *)
(** ** Relations between graph states *)

(** [extends g g']: the scope, the node counter and the summaries are
    those of [g], and the variables of [g] are still there, in the same
    order, followed by new ones. *)
Definition extends (g g' : graph) : Prop :=
  g_scope g' = g_scope g /\ g_uid g' = g_uid g /\
  g_summaries g' = g_summaries g /\
  exists new, g_vars g' = (g_vars g ++ new)%list.

(** The graph after one more node identity was handed out. *)
Definition bump (g : graph) : graph :=
  mkGraph (g_vars g) (S (g_uid g)) (g_summaries g) (g_scope g).

(** The recurrence cell of a [RecurrentDPG] instance. *)
Definition decoder_cell_of (self : dpg) (d0 : Z) : RNNCell :=
  RecurrentDPG._policy_cell self (rnn_cell.GRUCell d0).

(** The state representation the pointer-network critic is given at one
    timestep. *)
Definition ptr_state (inputs_t states_t : tensor) : tensor :=
  tf.concat 1 [inputs_t; states_t].

(** Keys the objective builders assign. *)
Definition objective_keys : list string :=
  ["policy_params"; "critic_params"; "policy_objective"; "critic_objective"].

(** Whether a run produced a result. *)
Definition succeeded {A} (r : (exn + A) * graph) : bool :=
  match fst r with
  | inr _ => true
  | inl _ => false
  end.

(** The claim of C8 as it is worded: the critic's state input at a
    timestep is the decoder hidden state followed by the decoder
    input. *)
Definition state_then_input (inputs_t states_t : tensor) : tensor :=
  tf.concat 1 [states_t; inputs_t].

(** Pairwise combination of two lists of values. *)
Fixpoint zipO (f : val -> val -> option val) (la lb : list val)
  : option (list val) :=
  match la, lb with
  | x :: la', y :: lb' =>
      match f x y, zipO f la' lb' with
      | Some v, Some vs => Some (v :: vs)
      | _, _ => None
      end
  | _, _ => Some []
  end.

(** The dimensions a nested array shows: those up to the first empty
    one. *)
Fixpoint trunc (dims : list nat) : list nat :=
  match dims with
  | [] => []
  | O :: _ => [O]
  | n :: dims' => n :: trunc dims'
  end.

(** An environment that feeds every placeholder the 2 x 2 batch
    [[1 2] [3 4]]. *)
Definition example_env : env :=
  mkEnv (fun _ => Some (VA [VA [VR 1; VR 2]; VA [VR 3; VR 4]]))
        (fun _ => None) (fun _ _ => 0%R) (fun _ _ => None).

(** A batch of rows as a matrix value. *)
Definition mat (m : list (list R)) : val := VA (map vec m).

(** Entrywise sum of two rows. *)
Definition vadd (r1 r2 : list R) : list R := map2 Rplus r1 r2.

(** The sum of a non-empty sequence of rows. *)
Definition sum_rows (rows : list (list R)) : list R :=
  match rows with
  | [] => []
  | r :: rs => fold_left vadd rs r
  end.

(** The memory rows [mems], each weighted by its weight in [ws], summed
    over the sequence. *)
Definition attend (ws : list R) (mems : list (list R)) : list R :=
  sum_rows (map2 (fun m w => map (fun x => (x * w)%R) m) mems ws).

(** The expression [loop_fn] returns for the decoder output
    [output_t]. *)
Definition attend_expr (attn_states output_t : tensor) : tensor :=
  tf.reduce_sum (tf.mul attn_states (tf.expand_dims (tf.softmax output_t) 2))
                (Some 1%Z).

(** The encoder memory of example [b]: its row in each encoder state. *)
Definition memory_of (Es : list (list (list R))) (b : nat)
  : list (list R) :=
  map (fun E => nth b E []) Es.

(** The attention states built from the retained encoder states. *)
Definition attn_of (encoder_states : list tensor) : tensor :=
  tf.concat 1 (map (fun states_t => tf.expand_dims states_t 1)
                   encoder_states).

(** An environment with two encoder states for one example, memory rows
    [[1 2]] and [[3 4]], and decoder logits [[0 0]]. *)
Definition attention_env : env :=
  mkEnv (fun u => match u with
                  | O => Some (mat [[1; 2]])
                  | S O => Some (mat [[3; 4]])
                  | _ => Some (mat [[0; 0]])
                  end)%R
        (fun _ => None) (fun _ _ => 0%R) (fun _ _ => None).

(** No placeholder with identity [u] feeds [t]. *)
Definition clean (u : nat) (t : tensor) : Prop := mentions u t = false.

Definition clean_val (u : nat) (v : pyval) : Prop := mentions_val u v = false.

(** A cell whose outputs are fed by its arguments and its parameters
    only. *)
Definition cell_clean (u : nat) (cell : RNNCell) : Prop :=
  forall inputs state scope g o s g',
    call cell inputs state scope g = (inr (o, s), g') ->
    clean u inputs -> clean u state -> clean u o /\ clean u s.

(** A feedback function whose result is fed by its argument only, as far
    as the placeholder [u] goes. *)
Definition loop_clean (u : nat) (lf : loop_fn_t) : Prop :=
  forall out t g x g', lf out t g = (inr x, g') -> clean u out -> clean u x.

(** A noiser whose result is fed by its arguments only, as far as the
    placeholder [u] goes: it may bring in placeholders of its own, but
    not [u]. *)
Definition noiser_clean (u : nat) (nz : noiser_t) : Prop :=
  forall inp a g r g',
    nz inp a g = (inr r, g') -> clean_val u inp -> clean_val u a ->
    clean_val u r.

(** The noiser an instance ends up with. *)
Definition noiser_of (noiser : option noiser_t) : noiser_t :=
  match noiser with
  | None => fun inp actions => noise_gaussian inp actions (1 # 10)
  | Some n => n
  end.

(** A concrete subclass: the next decoder input is the softmax of the
    action. *)
Definition softmax_feedback : RecurrentDPG.overrides :=
  RecurrentDPG.mkOverrides
    (Some (fun _ => ret (fun output_t _ => ret (tf.softmax output_t))))
    None.

(** Another concrete subclass: its [_loop_function] reads
    [self.decoder_action_ind] and feeds the decoder that placeholder at
    every step after the first. *)
Definition action_ind_feedback : RecurrentDPG.overrides :=
  RecurrentDPG.mkOverrides
    (Some (fun self =>
             ind <- get_tensor self "decoder_action_ind" ;;
             ret (fun _ _ => ret ind)))
    None.

(** The name tests of the objective builders: [_make_objectives] keeps
    the variables with ["policy/" in var.name] and those with
    ["critic/" in var.name]. *)
Definition policy_scoped (var : variable) : bool :=
  contains "policy/" (var_name var).

Definition critic_scoped (var : variable) : bool :=
  contains "critic/" (var_name var).

(** [PointerNetDPG._policy_params]: ["encoder/" in var.name or
    "decoder/" in var.name]. *)
Definition encoder_decoder_scoped (var : variable) : bool :=
  contains "encoder/" (var_name var) || contains "decoder/" (var_name var).

(** Two lists of handles without a common member. *)
Definition disjoint (l1 l2 : list tensor) : Prop :=
  forall h, In h l1 -> In h l2 -> False.

(** What the two parameter lists [pp] and [cp] are with respect to the
    variables [vars] of the graph, the policy name test [pol] and the
    batch-norm parameters [bn]: each scoped variable is in its list,
    each list holds nothing else beside [bn], and a handle is in both
    lists only if it is in [bn] or belongs to a variable whose name
    passes both tests. *)
Definition split_by_name (pol : variable -> bool) (vars : list variable)
    (bn pp cp : list tensor) : Prop :=
  (forall var, In var vars -> pol var = true -> In (handle var) pp) /\
  (forall var, In var vars -> critic_scoped var = true ->
               In (handle var) cp) /\
  (forall h, In h pp ->
             In h bn \/
             exists var, In var vars /\ h = handle var /\ pol var = true) /\
  (forall h, In h cp ->
             In h bn \/
             exists var, In var vars /\ h = handle var
                         /\ critic_scoped var = true) /\
  (forall h, In h bn -> In h pp /\ In h cp) /\
  (forall h, In h pp -> In h cp ->
             In h bn \/
             exists var, In var vars /\ h = handle var /\ pol var = true
                         /\ critic_scoped var = true).

(** Whether none of the variables [vars] has a name that passes both
    the test [pol] and the critic test. *)
Definition no_clash (pol : variable -> bool) (vars : list variable) : bool :=
  forallb (fun var => negb (pol var && critic_scoped var)) vars.

(** [grows g g']: the variables and the summaries of [g] are still
    there in [g'], in the same order and possibly followed by new
    ones, and no node identity handed out in [g] is handed out again. *)
Definition grows (g g' : graph) : Prop :=
  (exists new, g_vars g' = (g_vars g ++ new)%list) /\
  (exists new, g_summaries g' = (g_summaries g ++ new)%list) /\
  (g_uid g <= g_uid g')%nat.

(** A computation that only ever adds to the graph, whether it returns
    or raises. *)
Definition only_adds {A} (m : M A) : Prop :=
  forall g r g', m g = (r, g') -> grows g g'.

(** A cell, a feedback function, a noiser that only add to the graph. *)
Definition cell_only_adds (cell : RNNCell) : Prop :=
  forall inputs state scope, only_adds (call cell inputs state scope).

Definition loop_only_adds (lf : loop_fn_t) : Prop :=
  forall out t, only_adds (lf out t).

Definition noiser_only_adds (nz : noiser_t) : Prop :=
  forall inp actions, only_adds (nz inp actions).

(** The overrides of a concrete recurrent class only add to the graph:
    building the feedback function does, and so does every feedback
    function built. *)
Definition overrides_only_add (ov : RecurrentDPG.overrides) : Prop :=
  match RecurrentDPG.ov_loop_function ov with
  | Some f =>
      forall self,
        only_adds (f self) /\
        forall g lf g', f self g = (inr lf, g') -> loop_only_adds lf
  | None => True
  end.

(** A method that only adds to the graph and hands the instance on with
    its noiser. *)
Definition method_keeps_noiser (m : dpg -> M dpg) : Prop :=
  forall s,
    only_adds (m s) /\
    forall g s' g', m s g = (inr s', g') -> noiser s' = noiser s.

(** A graph that already holds a pointer network named ["a"]. *)
Definition graph_with_a : graph :=
  snd (PointerNetDPG.__init__ (mkMdp 6 1) (mkSpec [3]%Z []) 1 1 false
                              None None None None "a" empty_graph).

(** The name under which a recurrent cell called in the scope named
    [base] keeps the weights of its gates. *)
Definition gates_matrix (base : string) : string :=
  tf.join_scope
    (tf.join_scope (tf.join_scope (tf.join_scope base "GRUCell") "Gates")
                   "Linear")
    "Matrix".

(** [returns m Q]: whenever [m] returns, its result satisfies [Q]. *)
Definition returns {A} (m : M A) (Q : A -> Prop) : Prop :=
  forall g a g', m g = (inr a, g') -> Q a.

(** The instance [s] has the attributes [kept] as [base] has them. *)
Definition agrees (kept : list string) (base s : dpg) : Prop :=
  forall k, In k kept -> attr s k = attr base k.

(** An attribute as the constructor leaves it: the value supplied, when
    one was supplied that counts as true, and otherwise what the
    constructor makes. *)
Definition kept_or (supplied : option pyval) (made : option pyval -> Prop)
    (v : option pyval) : Prop :=
  if truthy supplied then v = supplied else made v.

(** A placeholder named [n] of shape [shp]. *)
Definition placeholder_of (n : string) (shp : list (option Z))
    (v : option pyval) : Prop :=
  exists u, v = Some (PT (Placeholder u n shp)).

(** A list of [count] placeholders named [n] of shape [shp]. *)
Definition placeholders (n : string) (shp : list (option Z)) (count : Z)
    (v : option pyval) : Prop :=
  exists ps,
    v = Some (PL ps) /\ length ps = Z.to_nat count /\
    Forall (fun p => exists u, p = Placeholder u n shp) ps.

(** An engine whose [squeeze] only drops dimensions: the entries of the
    result are those of the argument. *)
Definition squeeze_keeps_entries (e : env) : Prop :=
  forall a v, opaque e OSqueeze [a] = Some v -> flatten v = flatten a.

(** Every entry lies between -1 and 1, the ends included. *)
Definition within_unit (v : val) : Prop :=
  Forall (fun x => (-1 <= x <= 1)%R) (flatten v).

(** A rounding of the reals to a number format that has -1 and 1, such
    as rounding to the nearest single-precision number: it keeps the
    order and is exact at -1 and at 1. *)
Definition rounding (rnd : R -> R) : Prop :=
  (forall x y, (x <= y)%R -> (rnd x <= rnd y)%R) /\
  rnd (-1)%R = (-1)%R /\ rnd 1%R = 1%R.

(** The values of [v], each rounded by [rnd]. *)
Definition rounded (rnd : R -> R) (v : val) : list R :=
  map rnd (flatten v).

(** An engine for examples: [squeeze] is the identity, a matrix product
    is 0, every placeholder is fed [[[0]]] and every parameter is 0. *)
Definition toy_env : env :=
  mkEnv (fun _ => Some (VA [VA [VR 0]])) (fun _ => Some (VR 0))
        (fun _ _ => 0%R)
        (fun o vs => match o, vs with
                     | OSqueeze, [a] => Some a
                     | OMatMul, _ => Some (VR 0)
                     | _, _ => None
                     end).

(** An engine whose [add_n] is the entrywise sum of its arguments. *)
Definition add_n_sums (e : env) : Prop :=
  forall vs, opaque e OAddN vs = vsum vs.

(** The squared-error node of one timestep. *)
Definition q_error (critic_off_t q_targets_t : tensor) : tensor :=
  tf.reduce_mean (tf.square (tf.sub critic_off_t q_targets_t)) None.

(** The objectives [PointerNetDPG._make_objectives] builds from the
    per-timestep critics and targets. *)
Definition mean_critic_of (seq_length : Z) (critic_on : list tensor)
  : tensor :=
  tf.reduce_mean (tf.div (tf.add_n critic_on) (IntConst seq_length)) None.

Definition critic_objective_of (seq_length : Z)
    (critic_off q_targets : list tensor) : tensor :=
  tf.div (tf.add_n (map2 q_error critic_off q_targets)) (IntConst seq_length).

(** An engine for examples whose [add_n] sums and which feeds the
    placeholder [u] the vector [[u, u + 1]]. *)
Definition summing_env : env :=
  mkEnv (fun u => Some (vec [INR u; INR u + 1]%R)) (fun _ => None)
        (fun _ _ => 0%R)
        (fun o vs => match o with
                     | OAddN => vsum vs
                     | _ => None
                     end).

(** The graph after [n] more node identities were handed out. *)
Definition bump_by (n : nat) (g : graph) : graph :=
  mkGraph (g_vars g) (g_uid g + n) (g_summaries g) (g_scope g).

(** The action [a] with the noise node of identity [u] added. *)
Definition noised (stddev : Q) (a : tensor) (u : nat) : tensor :=
  tf.add a (Op (ORandomNormal u 0 stddev) [tf.shape a]).

(** The batch normalisation of [PointerNetDPG._make_graph]: the actions
    of all timesteps pooled along the batch axis, normalised with the
    mean and the variance of the pool, scaled and shifted by the two
    batch-norm parameters, and split back into the timesteps. *)
Definition batch_normalised (seq_length : Z) (a_pred : list tensor)
    (bn_beta bn_gamma : tensor) : list tensor :=
  let batch_pred := tf.concat 0 a_pred in
  let mean := tf.reduce_mean batch_pred (Some 0%Z) in
  let variance :=
    tf.reduce_mean (tf.square (tf.sub batch_pred mean)) (Some 0%Z) in
  let batch_pred := tf.expand_dims (tf.expand_dims batch_pred 1) 1 in
  let batch_pred :=
    tf.batch_norm_with_global_normalization
      batch_pred mean variance bn_beta bn_gamma (1 # 1000) true in
  tf.split 0 seq_length (tf.squeeze batch_pred).

(** The variable store of [g] holds every parameter of the critic whose
    scope is named [sc]: the critic has been established. *)
Definition critic_built (sc : string) (sp : spec_t) (g : graph) : Prop :=
  Forall (fun n => tf.in_store n g = true)
         (mlp_param_names sc 0 (critic_dims sp) true).

(* ================================================================== *)
(** * Reasoning about constructions *)

Section Monad_facts.

Context {A B : Type}.

Lemma bind_inr (m : M A) (k : A -> M B) g b g' :
  bind m k g = (inr b, g') ->
  exists a g1, m g = (inr a, g1) /\ k a g1 = (inr b, g').
Proof.
  unfold bind. destruct (m g) as [[e | a] g1]; intros H.
  - discriminate.
  - exists a, g1. split; [reflexivity | exact H].
Qed.

Lemma bind_run (m : M A) (k : A -> M B) g a g1 :
  m g = (inr a, g1) -> bind m k g = k a g1.
Proof. unfold bind. intros ->. reflexivity. Qed.

Lemma bind_fail (m : M A) (k : A -> M B) g e g1 :
  m g = (inl e, g1) -> bind m k g = (inl e, g1).
Proof. unfold bind. intros ->. reflexivity. Qed.

Lemma ret_inr (a b : A) g g' : ret a g = (inr b, g') -> a = b /\ g = g'.
Proof. unfold ret. intros H. inversion H. split; reflexivity. Qed.

Lemma variable_scope_inr n r i (body : M A) g a g' :
  tf.variable_scope n r i body g = (inr a, g') ->
  exists g1,
    body (tf.set_scope (tf.sub_scope (g_scope g) n r i) g) = (inr a, g1)
    /\ g' = tf.set_scope (g_scope g) g1.
Proof.
  unfold tf.variable_scope. destruct (String.eqb n ""); [discriminate |].
  destruct (body _) as [r0 g1]. intros H. inversion H. subst.
  exists g1. split; reflexivity.
Qed.

End Monad_facts.

Lemma get_tensor_inr self k g t g' :
  get_tensor self k g = (inr t, g') -> attr self k = Some (PT t) /\ g' = g.
Proof.
  unfold get_tensor. destruct (attr self k) as [[t0 | l] |]; intros H;
    inversion H. subst. split; reflexivity.
Qed.

Lemma get_list_inr self k g l g' :
  get_list self k g = (inr l, g') -> attr self k = Some (PL l) /\ g' = g.
Proof.
  unfold get_list. destruct (attr self k) as [[t0 | l0] |]; intros H;
    inversion H. subst. split; reflexivity.
Qed.

Lemma as_tensor_inr v g t g' :
  as_tensor v g = (inr t, g') -> v = PT t /\ g' = g.
Proof. destruct v; intros H; inversion H. split; reflexivity. Qed.

Lemma as_list_inr v g l g' :
  as_list v g = (inr l, g') -> v = PL l /\ g' = g.
Proof. destruct v; intros H; inversion H. split; reflexivity. Qed.

Lemma attr_setattr self k v k' :
  attr (setattr self k v) k' = if String.eqb k k' then Some v else attr self k'.
Proof. reflexivity. Qed.

Lemma all_variables_inr g vs g' :
  tf.all_variables g = (inr vs, g') -> vs = g_vars g /\ g' = g.
Proof. intros H. inversion H. split; reflexivity. Qed.

(** Peel one step off a successful run. *)
Tactic Notation "mstep" hyp(H) "as" ident(K) :=
  let a := fresh "x" in
  let g := fresh "g" in
  apply bind_inr in H; destruct H as (a & g & K & H).

Tactic Notation "mstep" hyp(H) "as" ident(K) ident(a) ident(g) :=
  apply bind_inr in H; destruct H as (a & g & K & H).

Ltac mret H := apply ret_inr in H; destruct H as [<- <-].

Ltac mget H :=
  first [ apply get_tensor_inr in H | apply get_list_inr in H
        | apply as_tensor_inr in H | apply as_list_inr in H
        | apply all_variables_inr in H ];
  let E := fresh "E" in destruct H as [E ->]; try subst.

Lemma make_objectives_inr self g self' g' :
  DPG._make_objectives self g = (inr self', g') ->
  exists critic_on critic_off q_targets,
    attr self "critic_on" = Some (PT critic_on) /\
    attr self "critic_off" = Some (PT critic_off) /\
    attr self "q_targets" = Some (PT q_targets) /\
    g' = g /\
    self' =
      setattr
        (setattr
           (setattr
              (setattr self "policy_params"
                 (PL (map handle
                        (filter (fun var => contains "policy/" (var_name var))
                                (g_vars g)))))
              "critic_params"
              (PL (map handle
                     (filter (fun var => contains "critic/" (var_name var))
                             (g_vars g)))))
           "policy_objective"
           (PT (tf.neg (tf.reduce_mean critic_on None))))
        "critic_objective"
        (PT (tf.reduce_mean (tf.square (tf.sub critic_off q_targets)) None)).
Proof.
  unfold DPG._make_objectives. intros H.
  mstep H as K. mget K. mstep H as K. mget K.
  mstep H as K. mget K. mstep H as K. mget K. mstep H as K. mget K. mret H.
  rewrite !attr_setattr in E, E0, E1. simpl in E, E0, E1.
  eauto 10.
Qed.

(* ------------------------------------------------------------------ *)
(** ** How a construction step changes the graph *)

Lemma extends_refl g : extends g g.
Proof.
  repeat split. exists []. symmetry. apply app_nil_r.
Qed.

Lemma extends_trans g1 g2 g3 : extends g1 g2 -> extends g2 g3 -> extends g1 g3.
Proof.
  intros (S1 & U1 & M1 & n1 & V1) (S2 & U2 & M2 & n2 & V2).
  repeat split; try congruence.
  exists (n1 ++ n2)%list. rewrite V2, V1. symmetry. apply app_assoc.
Qed.

Lemma extends_scope g g' : extends g g' -> g_scope g' = g_scope g.
Proof. intros H. apply H. Qed.

Lemma extends_summaries g g' :
  extends g g' -> g_summaries g' = g_summaries g.
Proof. intros H. apply H. Qed.

Lemma extends_uid g g' : extends g g' -> g_uid g' = g_uid g.
Proof. intros H. apply H. Qed.

Lemma set_scope_restore g s : tf.set_scope (g_scope g) (tf.set_scope s g) = g.
Proof. destruct g. reflexivity. Qed.

Lemma extends_scoped g s g1 :
  extends (tf.set_scope s g) g1 -> extends g (tf.set_scope (g_scope g) g1).
Proof. intros (_ & U & M & V). repeat split; assumption. Qed.

Lemma get_variable_inr n shp init g t g' :
  tf.get_variable n shp init g = (inr t, g') ->
  t = VarRef (tf.join_scope (vs_name (g_scope g)) n) /\
  extends g g' /\
  (vs_reuse (g_scope g) = true -> g' = g).
Proof.
  unfold tf.get_variable.
  destruct (tf.in_store _ g), (vs_reuse (g_scope g)); intros H;
    inversion H; subst; clear H.
  - auto using extends_refl.
  - split; [reflexivity |]. split; [| discriminate].
    repeat split. eexists. reflexivity.
Qed.

Lemma mlp_from_inr hidden : forall x i src out b ts g t g',
  util.mlp_from x i src hidden out b ts g = (inr t, g') ->
  t = mlp_net (vs_name (g_scope g)) x i hidden b /\
  extends g g' /\
  (vs_reuse (g_scope g) = true -> g' = g).
Proof.
  induction hidden as [| h hidden IH]; intros x i src out b ts g t g' H;
    simpl in H.
  - mstep H as K. apply get_variable_inr in K. destruct K as (-> & X1 & U1).
    destruct b.
    + mstep H as K. apply get_variable_inr in K. destruct K as (-> & X2 & U2).
      mret H. rewrite (extends_scope _ _ X1).
      split; [reflexivity |]. split.
      * eapply extends_trans; eassumption.
      * intros Hr. rewrite (U1 Hr) in *. apply U2. exact Hr.
    + mret H. auto.
  - mstep H as K. apply get_variable_inr in K. destruct K as (-> & X1 & U1).
    mstep H as K. apply get_variable_inr in K. destruct K as (-> & X2 & U2).
    apply IH in H. destruct H as (-> & X3 & U3).
    rewrite (extends_scope _ _ X2), (extends_scope _ _ X1).
    split; [reflexivity |]. split.
    + eapply extends_trans; [eassumption |].
      eapply extends_trans; eassumption.
    + intros Hr. rewrite (U1 Hr) in *. rewrite (U2 Hr) in *. apply U3. exact Hr.
Qed.

Lemma sub_scope_name old n r i :
  vs_name (tf.sub_scope old n r i) = tf.join_scope (vs_name old) n.
Proof. reflexivity. Qed.

Lemma critic_model_inr inp actions mdp spec nm reuse ts g t g' :
  critic_model inp actions mdp spec nm reuse ts g = (inr t, g') ->
  t = critic_net (tf.join_scope (vs_name (g_scope g)) nm) spec inp actions /\
  extends g g' /\
  (reuse = Some true -> g' = g).
Proof.
  unfold critic_model. intros H.
  apply variable_scope_inr in H. destruct H as (g1 & H & ->).
  mstep H as K. unfold util.mlp in K. apply mlp_from_inr in K.
  destruct K as (-> & X & U). mret H.
  split; [reflexivity |]. split.
  - eapply extends_scoped. exact X.
  - intros ->. rewrite U by reflexivity. apply set_scope_restore.
Qed.

Lemma policy_model_inr inp mdp spec nm reuse ts g t g' :
  policy_model inp mdp spec nm reuse ts g = (inr t, g') ->
  t = policy_net (tf.join_scope (vs_name (g_scope g)) nm) spec inp /\
  extends g g' /\
  (reuse = Some true \/ vs_reuse (g_scope g) = true -> g' = g).
Proof.
  unfold policy_model. intros H.
  apply variable_scope_inr in H. destruct H as (g1 & H & ->).
  unfold util.mlp in H. apply mlp_from_inr in H.
  destruct H as (-> & X & U).
  split; [reflexivity |]. split.
  - eapply extends_scoped. exact X.
  - intros Hr. rewrite U; [apply set_scope_restore |].
    simpl. destruct Hr as [-> | ->]; [reflexivity |].
    destruct reuse as [[|] |]; reflexivity.
Qed.

Lemma py_or_inr x make g v g' :
  py_or x make g = (inr v, g') ->
  (x = Some v /\ truthy x = true /\ g' = g) \/
  (truthy x = false /\ make g = (inr v, g')).
Proof.
  unfold py_or. destruct x as [v0 |].
  - destruct (truthy (Some v0)) eqn:T.
    + intros H. mret H. left. auto.
    + intros H. right. auto.
  - intros H. right. auto.
Qed.

Lemma py_or_tensor x make g v g' t :
  py_or x make g = (inr v, g') -> x = Some (PT t) -> v = PT t /\ g' = g.
Proof.
  intros H ->. apply py_or_inr in H. destruct H as [(E & _ & ->) | (T & _)].
  - inversion E. auto.
  - discriminate.
Qed.

Lemma placeholder_run shp n g :
  tf.placeholder shp n g = (inr (Placeholder (g_uid g) n shp), bump g).
Proof. reflexivity. Qed.

Lemma random_normal_run shp m s g :
  tf.random_normal shp m s g
  = (inr (Op (ORandomNormal (g_uid g) m s) [shp]), bump g).
Proof. reflexivity. Qed.

Lemma py_or_placeholder_inr x shp n g v g' :
  py_or x (p <- tf.placeholder shp n ;; ret (PT p)) g = (inr v, g') ->
  (x = Some v /\ truthy x = true /\ g' = g) \/
  (truthy x = false /\ v = PT (Placeholder (g_uid g) n shp) /\ g' = bump g).
Proof.
  intros H. apply py_or_inr in H. destruct H as [H | (T & H)]; [left; exact H |].
  right. unfold bind in H. rewrite placeholder_run in H. mret H. auto.
Qed.

Lemma DPG_make_inputs_inr self g self' g' :
  DPG._make_inputs self g = (inr self', g') ->
  exists i q t,
    self' = setattr (setattr (setattr self "inputs" i) "q_targets" q) "tau" t /\
    (forall x, attr self "inputs" = Some (PT x) -> i = PT x) /\
    (forall x, attr self "q_targets" = Some (PT x) -> q = PT x) /\
    (forall x, attr self "tau" = Some (PT x) -> t = PT x) /\
    g_vars g' = g_vars g /\ g_scope g' = g_scope g /\
    g_summaries g' = g_summaries g.
Proof.
  unfold DPG._make_inputs. intros H.
  mstep H as K1 i g0. mstep H as K2 q g1. mstep H as K3 t g2. mret H.
  exists i, q, t. split; [reflexivity |].
  rewrite !attr_setattr in K2, K3. simpl in K2, K3.
  assert (F1 : g_vars g0 = g_vars g /\ g_scope g0 = g_scope g
               /\ g_summaries g0 = g_summaries g).
  { apply py_or_placeholder_inr in K1.
    destruct K1 as [(_ & _ & ->) | (_ & _ & ->)]; auto. }
  assert (F2 : g_vars g1 = g_vars g0 /\ g_scope g1 = g_scope g0
               /\ g_summaries g1 = g_summaries g0).
  { apply py_or_placeholder_inr in K2.
    destruct K2 as [(_ & _ & ->) | (_ & _ & ->)]; auto. }
  assert (F3 : g_vars g2 = g_vars g1 /\ g_scope g2 = g_scope g1
               /\ g_summaries g2 = g_summaries g1).
  { apply py_or_placeholder_inr in K3.
    destruct K3 as [(_ & _ & ->) | (_ & _ & ->)]; auto. }
  destruct F1 as (? & ? & ?), F2 as (? & ? & ?), F3 as (? & ? & ?).
  repeat split; try congruence.
  - intros y E. eapply py_or_tensor in K1; [| exact E]. apply K1.
  - intros y E. eapply py_or_tensor in K2; [| exact E]. apply K2.
  - intros y E. eapply py_or_tensor in K3; [| exact E]. apply K3.
Qed.

(** What [DPG._make_graph] leaves behind: the on-policy and the
    off-policy critic are one network, in one scope, applied to the
    predicted and to the exploratory action. *)
Lemma DPG_make_graph_inr self g self' g' :
  DPG._make_graph self g = (inr self', g') ->
  exists inputs a_pred a_explore g1 g2 a_pred_track critic_on_track,
    attr self "inputs" = Some (PT inputs) /\
    policy_model inputs (mdp_spec self) (spec self) "policy" None None g
      = (inr a_pred, g1) /\
    noiser self (PT inputs) (PT a_pred) g1 = (inr (PT a_explore), g2) /\
    self' =
      setattr
       (setattr
         (setattr
           (setattr
             (setattr
               (setattr self "a_pred" (PT a_pred))
               "a_explore" (PT a_explore))
             "critic_on"
             (PT (critic_net (tf.join_scope (vs_name (g_scope g2)) "critic")
                             (spec self) inputs a_pred)))
           "critic_off"
           (PT (critic_net (tf.join_scope (vs_name (g_scope g2)) "critic")
                           (spec self) inputs a_explore)))
         "a_pred_track" (PT a_pred_track))
       "critic_on_track" (PT critic_on_track) /\
    extends g2 g'.
Proof.
  unfold DPG._make_graph. intros H.
  mstep H as K1 inputs g0. mget K1.
  mstep H as K2 a_pred g1. mstep H as K3 a_explore g2.
  mstep H as K4 critic_on g3. simpl in K4. apply critic_model_inr in K4.
  destruct K4 as (-> & X4 & _).
  mstep H as K5 a_explore_t g4. mget K5.
  mstep H as K6 critic_off g5. simpl in K6. apply critic_model_inr in K6.
  destruct K6 as (-> & X6 & U6). rewrite (U6 eq_refl) in *. clear U6 X6.
  mstep H as K7 a_pred_track g6. simpl in K7. pose proof K7 as K7'.
  apply policy_model_inr in K7'. destruct K7' as (_ & X7 & _).
  mstep H as K8 critic_on_track g7. simpl in K8. pose proof K8 as K8'.
  apply critic_model_inr in K8'. destruct K8' as (_ & X8 & _).
  mret H.
  rewrite (extends_scope _ _ X4).
  exists inputs, a_pred, a_explore_t, g1, g2, a_pred_track, critic_on_track.
  repeat split; try assumption; try reflexivity;
    try (apply (extends_trans _ _ _ X4 (extends_trans _ _ _ X7 X8))).
Qed.

Lemma mapM_frame {A B} (f : A -> M B) :
  (forall a g r g', f a g = (r, g') -> g' = g) ->
  forall l g r g', mapM f l g = (r, g') -> g' = g.
Proof.
  intros Hf. induction l as [| a l IH]; intros g r g' H; simpl in H.
  - inversion H. reflexivity.
  - unfold bind in H at 1. destruct (f a g) as [[e | b] g1] eqn:E.
    + inversion H. subst. eapply Hf. exact E.
    + apply Hf in E. subst g1.
      unfold bind in H at 1. destruct (mapM f l g) as [[e | bs] g2] eqn:E2.
      * inversion H. subst. eapply IH. exact E2.
      * apply IH in E2. subst g2. inversion H. reflexivity.
Qed.

Lemma track_update_of_frame main track tau vars v g r g' :
  util.track_update_of main track tau vars v g = (r, g') -> g' = g.
Proof.
  unfold util.track_update_of. destruct (find _ vars); intros H;
    inversion H; reflexivity.
Qed.

Lemma track_model_updates_inr main track tau g t g' :
  util.track_model_updates main track tau g = (inr t, g') ->
  g' = g /\ exists updates, t = tf.group updates.
Proof.
  unfold util.track_model_updates. intros H.
  mstep H as K1 vars g1. mget K1.
  mstep H as K2 updates g2.
  apply (mapM_frame _ (track_update_of_frame _ _ _ _)) in K2. subst g2.
  mret H. split; [reflexivity | eauto].
Qed.

(** Base DPG: the tracking update groups a policy-side and a critic-side
    update and creates nothing in the graph. *)
Lemma DPG_make_updates_inr self g self' g' :
  DPG._make_updates self g = (inr self', g') ->
  g' = g /\
  exists policy_updates critic_updates,
    self' = setattr self "track_update"
              (PT (tf.group [tf.group policy_updates;
                             tf.group critic_updates])).
Proof.
  unfold DPG._make_updates. intros H.
  mstep H as K1 tau g1. mget K1.
  mstep H as K2 pu g2. apply track_model_updates_inr in K2.
  destruct K2 as (-> & ups & ->).
  mstep H as K3 cu g3. apply track_model_updates_inr in K3.
  destruct K3 as (-> & ups' & ->).
  mret H. split; [reflexivity | eauto].
Qed.

Lemma init_inr c self mdp spec inputs q_targets tau noiser name g self' g' :
  DPG.__init__ c self mdp spec inputs q_targets tau noiser name g
    = (inr self', g') ->
  exists s1 g1 s2 g2 s3 g3 s4 g4 g5,
    m_make_params c (init_self self mdp spec inputs q_targets tau noiser name)
      (tf.set_scope (tf.sub_scope (g_scope g) name None None) g)
      = (inr s1, g1) /\
    m_make_inputs c s1 g1 = (inr s2, g2) /\
    m_make_graph c s2 g2 = (inr s3, g3) /\
    m_make_objectives c s3 g3 = (inr s4, g4) /\
    m_make_updates c s4 g4 = (inr self', g5) /\
    g' = tf.set_scope (g_scope g) g5.
Proof.
  unfold DPG.__init__. intros H.
  apply variable_scope_inr in H. destruct H as (g5 & H & ->).
  mstep H as K1 s1 g1. mstep H as K2 s2 g2. mstep H as K3 s3 g3.
  mstep H as K4 s4 g4.
  exists s1, g1, s2, g2, s3, g3, s4, g4, g5. auto 10.
Qed.

Lemma init_self_attr self mdp spec inputs q_targets tau noiser name k :
  attrs self = [] ->
  k = "inputs" \/ k = "q_targets" \/ k = "tau" ->
  attr (init_self self mdp spec inputs q_targets tau noiser name) k
  = if String.eqb k "inputs" then inputs
    else if String.eqb k "q_targets" then q_targets else tau.
Proof.
  intros E Hk. unfold attr, init_self. simpl. rewrite E.
  destruct Hk as [-> | [-> | ->]]; destruct tau, q_targets, inputs;
    reflexivity.
Qed.

(* ------------------------------------------------------------------ *)
(** ** Facts about values *)

Lemma val_ind' (P : val -> Prop) :
  (forall r, P (VR r)) -> (forall z, P (VI z)) ->
  (forall l, Forall P l -> P (VA l)) -> forall v, P v.
Proof.
  intros HR HI HA. fix IH 1. intros [r | z | l].
  - apply HR.
  - apply HI.
  - apply HA. induction l as [| x l IHl]; constructor.
    + apply IH.
    + exact IHl.
Qed.

Lemma eval_Op e o args :
  eval e (Op o args)
  = match mapO (eval e) args with
    | Some vs => eval_op e o vs
    | None => None
    end.
Proof.
  simpl.
  replace ((fix evals (l : list tensor) : option (list val) :=
              match l with
              | [] => Some []
              | a :: l' =>
                  match eval e a, evals l' with
                  | Some v, Some vs => Some (v :: vs)
                  | _, _ => None
                  end
              end) args) with (mapO (eval e) args); [reflexivity |].
  induction args as [| a l IH]; simpl; [reflexivity |]. rewrite IH. reflexivity.
Qed.

Lemma flatten_vmap f v : flatten (vmap f v) = map f (flatten v).
Proof.
  induction v as [r | z | l IH] using val_ind'; simpl; try reflexivity.
  induction IH as [| x l Hx _ IHl]; simpl; [reflexivity |].
  rewrite map_app, Hx, IHl. reflexivity.
Qed.

Lemma eval_Op1 e o a :
  eval e (Op o [a])
  = match eval e a with
    | Some v => eval_op e o [v]
    | None => None
    end.
Proof. rewrite eval_Op. simpl. destruct (eval e a); reflexivity. Qed.

Lemma eval_Op2 e o a b :
  eval e (Op o [a; b])
  = match eval e a, eval e b with
    | Some x, Some y => eval_op e o [x; y]
    | _, _ => None
    end.
Proof.
  rewrite eval_Op. simpl. destruct (eval e a), (eval e b); reflexivity.
Qed.

Arguments eval : simpl never.

Lemma DPG_new_inr mdp spec inputs q_targets tau noiser name g self g' :
  DPG.new mdp spec inputs q_targets tau noiser name g = (inr self, g') ->
  exists s2 g2 s3 g3 s4 g4,
    DPG._make_inputs
      (init_self blank mdp spec inputs q_targets tau noiser name)
      (tf.set_scope (tf.sub_scope (g_scope g) name None None) g)
      = (inr s2, g2) /\
    DPG._make_graph s2 g2 = (inr s3, g3) /\
    DPG._make_objectives s3 g3 = (inr s4, g4) /\
    DPG._make_updates s4 g4 = (inr self, g4) /\
    g' = tf.set_scope (g_scope g) g4.
Proof.
  unfold DPG.new. intros H. apply init_inr in H.
  destruct H as (s1 & g1 & s2 & g2 & s3 & g3 & s4 & g4 & g5
                 & K1 & K2 & K3 & K4 & K5 & ->).
  simpl in K1, K2, K3, K4, K5. unfold DPG._make_params in K1. mret K1.
  pose proof K5 as K5'. apply DPG_make_updates_inr in K5'.
  destruct K5' as (-> & _).
  exists s2, g2, s3, g3, s4, g4. auto 10.
Qed.

(** C1.  For every constructed base DPG instance the policy objective
    is the negated mean of the on-policy critic values and the critic
    objective is the mean of the squared differences between the
    off-policy critic values and the targets (the supplied ones when
    targets were supplied), both as graph nodes and in value. *)
Theorem C1_objectives :
  forall mdp spec inputs q_targets tau noiser name g self g',
    DPG.new mdp spec inputs q_targets tau noiser name g = (inr self, g') ->
    exists critic_on critic_off targets,
      attr self "critic_on" = Some (PT critic_on) /\
      attr self "critic_off" = Some (PT critic_off) /\
      attr self "q_targets" = Some (PT targets) /\
      (forall t, q_targets = Some (PT t) -> targets = t) /\
      attr self "policy_objective"
        = Some (PT (tf.neg (tf.reduce_mean critic_on None))) /\
      attr self "critic_objective"
        = Some (PT (tf.reduce_mean
                      (tf.square (tf.sub critic_off targets)) None)) /\
      (forall e v,
          eval e critic_on = Some v -> flatten v <> [] ->
          eval e (tf.neg (tf.reduce_mean critic_on None))
          = Some (VR (- mean (flatten v)))) /\
      (forall e a b d,
          eval e critic_off = Some a -> eval e targets = Some b ->
          bop Rminus a b = Some d -> flatten d <> [] ->
          eval e (tf.reduce_mean (tf.square (tf.sub critic_off targets)) None)
          = Some (VR (mean (map (fun x => x * x)%R (flatten d))))).
Proof.
  intros mdp spec inputs q_targets tau noiser name g self g' H.
  apply DPG_new_inr in H.
  destruct H as (s2 & g2 & s3 & g3 & s4 & g4 & K2 & K3 & K4 & K5 & ->).
  apply DPG_make_updates_inr in K5. destruct K5 as (_ & pu & cu & ->).
  apply make_objectives_inr in K4.
  destruct K4 as (con & coff & tg & E1 & E2 & E3 & _ & ->).
  exists con, coff, tg.
  rewrite !attr_setattr. simpl.
  repeat split; try assumption.
  - intros t ->.
    apply DPG_make_graph_inr in K3.
    destruct K3 as (i & ap & ae & g1' & g2' & apt & cot & _ & _ & _ & -> & _).
    rewrite !attr_setattr in E3. simpl in E3.
    apply DPG_make_inputs_inr in K2.
    destruct K2 as (i' & q' & t' & -> & _ & Q & _).
    rewrite !attr_setattr in E3. simpl in E3.
    specialize (Q t).
    rewrite init_self_attr in Q by (auto; reflexivity). simpl in Q.
    specialize (Q eq_refl). subst q'. inversion E3. reflexivity.
  - intros e v Hv Hne. unfold tf.neg, tf.reduce_mean.
    rewrite !eval_Op1, Hv. simpl.
    destruct (flatten v); [congruence | reflexivity].
  - intros e a b d Ha Hb Hd Hne.
    unfold tf.reduce_mean, tf.square, tf.sub.
    rewrite !eval_Op1, eval_Op2, Ha, Hb. simpl. rewrite Hd. simpl.
    rewrite flatten_vmap.
    destruct (flatten d); [congruence | reflexivity].
Qed.

Lemma C1_objectives_witness :
  exists self g',
    DPG.new (mkMdp 4 2) (mkSpec [8; 8]%Z [8; 8]%Z) None None None None
            "dpg" empty_graph = (inr self, g') /\
    exists critic_on,
      attr self "critic_on" = Some (PT critic_on) /\
      attr self "policy_objective"
        = Some (PT (tf.neg (tf.reduce_mean critic_on None))).
Proof.
  assert (E : exists self g',
             DPG.new (mkMdp 4 2) (mkSpec [8; 8]%Z [8; 8]%Z) None None None
                     None "dpg" empty_graph = (inr self, g')).
  { eexists. eexists. vm_compute. reflexivity. }
  destruct E as (self & g' & E). exists self, g'. split; [exact E |].
  destruct (C1_objectives _ _ _ _ _ _ _ _ _ _ E)
    as (con & coff & tg & E1 & _ & _ & _ & E2 & _).
  exists con. split; assumption.
Defined.

(* ------------------------------------------------------------------ *)
(** ** The critic over a rollout *)

Lemma critic_steps_inr mdp spec pairs : forall t0 reuse g scores g',
  mapM_enum
    (fun t (sa : tensor * tensor) =>
       let '(states_t, actions_t) := sa in
       critic_model states_t actions_t mdp spec "critic" (reuse_at reuse t)
                    None)
    t0 pairs g = (inr scores, g') ->
  scores = map (fun p => critic_net
                           (tf.join_scope (vs_name (g_scope g)) "critic")
                           spec (fst p) (snd p)) pairs /\
  extends g g' /\
  (reuse = Some true \/ (0 < t0)%nat -> g' = g).
Proof.
  induction pairs as [| [s a] pairs IH]; intros t0 reuse g scores g' H;
    simpl in H.
  - mret H. auto using extends_refl.
  - mstep H as K c g1. apply critic_model_inr in K.
    destruct K as (-> & X & U).
    mstep H as K2 cs g2. apply IH in K2. destruct K2 as (-> & X2 & U2).
    mret H. rewrite (extends_scope _ _ X).
    split; [reflexivity |]. split.
    + eapply extends_trans; eassumption.
    + intros Hr. assert (E : g1 = g).
      { apply U. unfold reuse_at. destruct Hr as [-> | Hr]; [reflexivity |].
        destruct (Nat.ltb_spec 0 t0); [| lia].
        destruct reuse as [[|] |]; reflexivity. }
      subst g1. apply U2. right. lia.
Qed.

(** The first timestep establishes the critic; every later timestep
    leaves the graph as it is. *)
Lemma critic_steps_first mdp spec s a pairs reuse g scores g' :
  mapM_enum
    (fun t (sa : tensor * tensor) =>
       let '(states_t, actions_t) := sa in
       critic_model states_t actions_t mdp spec "critic" (reuse_at reuse t)
                    None)
    0 ((s, a) :: pairs) g = (inr scores, g') ->
  exists c0,
    critic_model s a mdp spec "critic" (reuse_at reuse 0) None g
      = (inr c0, g') /\ hd_error scores = Some c0.
Proof.
  simpl. intros H. mstep H as K c g1. mstep H as K2 cs g2. mret H.
  apply critic_steps_inr in K2. destruct K2 as (_ & _ & U).
  rewrite U in * by (right; lia). exists c. split; [exact K | reflexivity].
Qed.

Lemma map2_length {A B C} (f : A -> B -> C) l1 l2 :
  length (map2 f l1 l2) = Nat.min (length l1) (length l2).
Proof.
  unfold map2. rewrite length_map. revert l2.
  induction l1 as [| a l1 IH]; intros [| b l2]; simpl; auto.
Qed.

Lemma scalar_summary_run tag t g :
  tf.scalar_summary tag t g
  = (inr tt, mkGraph (g_vars g) (g_uid g) (g_summaries g ++ [(tag, t)])%list
                     (g_scope g)).
Proof. reflexivity. Qed.

Lemma index0_inr {A} (l : list A) g x g' :
  index0 l g = (inr x, g') -> (exists l', l = x :: l') /\ g' = g.
Proof.
  destruct l as [| y l]; intros H; inversion H; subst. split; eauto.
Qed.

(** What [RecurrentDPG._make_graph] leaves behind. *)
Lemma RecurrentDPG_make_graph_inr ov self g self' g' :
  RecurrentDPG._make_graph ov self g = (inr self', g') ->
  exists d0 inputs lf g1 a_pred states0 g2 a_explore g3 g4 dsi
         a_pred_ind st_ind g5 a_explore_ind g6,
    index0 (policy_dims (spec self)) g = (inr d0, g) /\
    attr self "inputs" = Some (PT inputs) /\
    RecurrentDPG.call_loop_function ov self g = (inr lf, g1) /\
    seq2seq.rnn_decoder
      (map (fun _ => tf.zeros (tf.pack [tf.getitem (tf.shape inputs) 0;
                                        IntConst (input_dim self)]))
           (range (seq_length self)))
      (tf.zeros (tf.pack [tf.getitem (tf.shape inputs) 0;
                          IntConst (state_size (decoder_cell_of self d0))]))
      (decoder_cell_of self d0) (Some lf) g1
      = (inr (a_pred, states0), g2) /\
    noiser self (PT inputs) (PL a_pred) g2 = (inr (PL a_explore), g3) /\
    extends g3 g4 /\
    attr self "decoder_state_ind" = Some (PT dsi) /\
    call (decoder_cell_of self d0) inputs dsi None g4
      = (inr (a_pred_ind, st_ind), g5) /\
    noiser self (PT inputs) (PT a_pred_ind) g5
      = (inr (PT a_explore_ind), g6) /\
    let sc := tf.join_scope (vs_name (g_scope g3)) "critic" in
    let sc' := tf.join_scope (vs_name (g_scope g6)) "critic" in
    let critic_on := critic_net sc' (spec self) dsi a_pred_ind in
    self' =
      setattr
       (setattr
         (setattr
           (setattr
             (setattr
               (setattr
                 (setattr self "a_pred" (PL a_pred))
                 "decoder_states" (PL (tl states0)))
               "a_explore" (PL a_explore))
             "critic_on_seq"
             (PL (map2 (critic_net sc (spec self)) (tl states0) a_pred)))
           "critic_off_seq"
           (PL (map2 (critic_net sc (spec self)) (tl states0) a_explore)))
         "critic_on" (PT critic_on))
       "critic_off" (PT (critic_net sc' (spec self) dsi a_explore_ind)) /\
    g' = mkGraph (g_vars g6) (g_uid g6)
           (g_summaries g6
            ++ [("a_pred_ind.mean", tf.reduce_mean a_pred_ind None);
                ("critic_on(a_pred_ind).mean",
                 tf.reduce_mean critic_on None)])%list
           (g_scope g6).
Proof.
  unfold RecurrentDPG._make_graph. intros H.
  mstep H as K0 d0 g0. pose proof K0 as K0'. apply index0_inr in K0'.
  destruct K0' as (_ & ->).
  mstep H as K1 inputs g0. mget K1.
  mstep H as K2 lf g1. mstep H as K3 r g2. destruct r as [a_pred states0].
  mstep H as K4 a_explore g3.
  mstep H as K5 con g4. unfold RecurrentDPG._critic in K5.
  apply critic_steps_inr in K5. destruct K5 as (-> & X5 & _).
  mstep H as K6 ael g4'. mget K6.
  mstep H as K7 coff g5. unfold RecurrentDPG._critic in K7.
  apply critic_steps_inr in K7. destruct K7 as (-> & X7 & U7).
  pose proof (U7 (or_introl eq_refl)) as ->. clear U7 X7.
  mstep H as K8 dsi g5. mget K8. rewrite !attr_setattr in E0. simpl in E0.
  mstep H as K9 os g6. destruct os as [a_pred_ind st_ind].
  mstep H as K10 aei g7.
  mstep H as K11 c1 g8. simpl in K11. apply critic_model_inr in K11.
  destruct K11 as (-> & X11 & U11). pose proof (U11 eq_refl) as ->.
  clear U11 X11.
  mstep H as K12 aeit g9. mget K12.
  mstep H as K13 c2 g10. simpl in K13. apply critic_model_inr in K13.
  destruct K13 as (-> & X13 & U13). pose proof (U13 eq_refl) as ->.
  clear U13 X13.
  mstep H as K14 u1 g11. rewrite scalar_summary_run in K14.
  inversion K14; subst; clear K14.
  mstep H as K15 u2 g12. rewrite scalar_summary_run in K15.
  inversion K15; subst; clear K15. mret H. simpl.
  rewrite (extends_scope _ _ X5).
  exists d0, inputs, lf, g1, a_pred, states0, g2, ael, g3, g4, dsi,
         a_pred_ind, st_ind, g6, aeit, g7.
  rewrite <- app_assoc. simpl.
  repeat split; try assumption; try reflexivity; apply X5.
Qed.

Lemma map_zip_map2 {A B C} (f : A -> B -> C) l1 l2 :
  map (fun p : A * B => let '(a, b) := p in f a b) (zip l1 l2)
  = map2 f l1 l2.
Proof.
  unfold map2. apply map_ext. intros [a b]. reflexivity.
Qed.

Ltac attrs_in H := repeat (rewrite attr_setattr in H; simpl in H).
Ltac attrs := repeat (rewrite attr_setattr; simpl).

Lemma PointerNetDPG_critic_inr self actions reuse g scores g' :
  PointerNetDPG._critic self actions reuse g = (inr scores, g') ->
  exists dec_inputs dec_states actions_l,
    attr self "decoder_inputs" = Some (PL dec_inputs) /\
    attr self "decoder_states" = Some (PL dec_states) /\
    actions = PL actions_l /\
    scores = map2 (critic_net (tf.join_scope (vs_name (g_scope g)) "critic")
                              (spec self))
                  (map2 ptr_state dec_inputs dec_states) actions_l /\
    extends g g' /\
    (reuse = Some true -> g' = g).
Proof.
  unfold PointerNetDPG._critic. intros H.
  mstep H as K1 di g1. mget K1. mstep H as K2 ds g2. mget K2.
  mstep H as K3 al g3. mget K3.
  apply critic_steps_inr in H. destruct H as (-> & X & U).
  exists di, ds, al. rewrite map_zip_map2.
  repeat split; try assumption; try reflexivity; try apply X.
  intros Hr. apply U. left. exact Hr.
Qed.

Lemma mapM_placeholder_frame shp n l g r g' :
  mapM (fun _ : nat => tf.placeholder shp n) l g = (r, g') ->
  g_vars g' = g_vars g /\ g_scope g' = g_scope g
  /\ g_summaries g' = g_summaries g /\ (g_uid g <= g_uid g')%nat.
Proof.
  revert g r g'. induction l as [| a l IH]; intros g r g' H; simpl in H.
  - inversion H. auto.
  - unfold bind in H at 1. rewrite placeholder_run in H.
    unfold bind in H at 1.
    destruct (mapM _ l (bump g)) as [[e | ps] g2] eqn:E.
    + inversion H; subst. apply IH in E. simpl in E.
      repeat split; try apply E. destruct E as (_ & _ & _ & E). lia.
    + inversion H; subst. apply IH in E. simpl in E.
      repeat split; try apply E. destruct E as (_ & _ & _ & E). lia.
Qed.

(** What [PointerNetDPG._make_graph] leaves behind. *)
Lemma PointerNetDPG_make_graph_inr self g self' g' :
  PointerNetDPG._make_graph self g = (inr self', g') ->
  exists d0 inputs outs encoder_states g1 last a_raw dec_states dec_inputs
         g2 a_pred a_explore g3,
    index0 (policy_dims (spec self)) g = (inr d0, g) /\
    attr self "inputs" = Some (PL inputs) /\
    rnn.rnn (rnn_cell.GRUCell d0) inputs (Some "encoder") g
      = (inr (outs, encoder_states), g1) /\
    Z.of_nat (length encoder_states) = seq_length self /\
    index_last encoder_states g1 = (inr last, g1) /\
    let attn_states :=
      tf.concat 1 (map (fun s => tf.expand_dims s 1) encoder_states) in
    pointer_network.ptr_net_decoder
      (repeat (tf.zeros (tf.pack [tf.getitem (tf.shape (hd last inputs)) 0;
                                  IntConst d0]))
              (Z.to_nat (seq_length self)))
      last attn_states (rnn_cell.GRUCell d0)
      (PointerNetDPG.loop_fn attn_states) (Some "decoder") g1
      = (inr (a_raw, dec_states, dec_inputs), g2) /\
    (bn_actions self = false -> a_pred = a_raw) /\
    noiser self (PL inputs) (PL a_pred) g2 = (inr (PL a_explore), g3) /\
    let sc := tf.join_scope (vs_name (g_scope g3)) "critic" in
    let states_lst := map2 ptr_state dec_inputs (tl dec_states) in
    attr self' "encoder_states" = Some (PL encoder_states) /\
    attr self' "a_pred" = Some (PL a_pred) /\
    attr self' "decoder_inputs" = Some (PL dec_inputs) /\
    attr self' "decoder_states" = Some (PL (tl dec_states)) /\
    attr self' "a_explore" = Some (PL a_explore) /\
    attr self' "critic_on"
      = Some (PL (map2 (critic_net sc (spec self)) states_lst a_pred)) /\
    attr self' "critic_off"
      = Some (PL (map2 (critic_net sc (spec self)) states_lst a_explore)) /\
    attr self' "track_update" = attr self "track_update" /\
    attr self' "bn_beta" = attr self "bn_beta" /\
    attr self' "bn_gamma" = attr self "bn_gamma" /\
    bn_actions self' = bn_actions self /\ spec self' = spec self /\
    seq_length self' = seq_length self /\
    g_scope g' = g_scope g3 /\ (g_uid g3 <= g_uid g')%nat /\
    g_summaries g' = g_summaries g3 /\
    (exists new, g_vars g' = (g_vars g3 ++ new)%list).
Proof.
  unfold PointerNetDPG._make_graph. intros H.
  mstep H as K0 d0 g0. pose proof K0 as K0'. apply index0_inr in K0'.
  destruct K0' as (_ & ->).
  mstep H as K1 inputs g0. mget K1.
  mstep H as K2 r g1. destruct r as [outs encoder_states].
  mstep H as K3 u g1'. cbn [seq_length setattr] in K3.
  destruct (Z.eqb_spec (Z.of_nat (length encoder_states)) (seq_length self))
    as [EL | NE]; [| discriminate]. mret K3.
  mstep H as K4 inputs0 g1'. pose proof K4 as K4'. apply index0_inr in K4'.
  destruct K4' as ((rest & ->) & ->).
  mstep H as K5 last g1'.
  assert (g1' = g1) as ->.
  { unfold index_last in K5. destruct (rev encoder_states); inversion K5.
    reflexivity. }
  mstep H as K6 lf g1'. unfold PointerNetDPG._loop_function in K6.
  mstep K6 as K6a es g1''. mget K6a.
  rewrite !attr_setattr in E0. simpl in E0. inversion E0; subst es; clear E0.
  mret K6.
  mstep H as K7 r g2. destruct r as [[a_raw dec_states] dec_inputs].
  mstep H as K8 self1 g2'.
  assert (B : (bn_actions self = false -> attr self1 "a_pred" = Some (PL a_raw)) /\
              attr self1 "encoder_states" = Some (PL encoder_states) /\
              attr self1 "decoder_inputs" = Some (PL dec_inputs) /\
              attr self1 "decoder_states" = Some (PL (tl dec_states)) /\
              attr self1 "track_update" = attr self "track_update" /\
              attr self1 "bn_beta" = attr self "bn_beta" /\
              attr self1 "bn_gamma" = attr self "bn_gamma" /\
              attr self1 "q_targets" = attr self "q_targets" /\
              bn_actions self1 = bn_actions self /\ spec self1 = spec self /\
              seq_length self1 = seq_length self /\
              noiser self1 = noiser self /\ g2' = g2).
  { simpl in K8. destruct (bn_actions self) eqn:BN.
    - mstep K8 as B1 beta gb. mget B1. mstep K8 as B2 gamma gb'. mget B2.
      mret K8. rewrite !attr_setattr. simpl.
      repeat split; try assumption; try reflexivity. discriminate.
    - mret K8. rewrite !attr_setattr. simpl.
      repeat split; try assumption; try reflexivity. }
  destruct B as (B0 & B2 & B3 & B4 & B5 & B6 & B7 & B8 & B9 & B10 & B11
                 & B12 & ->).
  mstep H as K9 a_pred g2''. mget K9.
  mstep H as K10 a_explore g3.
  mstep H as K11 con g4. apply PointerNetDPG_critic_inr in K11.
  destruct K11 as (di & ds & al & D1 & D2 & D3 & -> & X11 & _).
  mstep H as K12 coff g5. apply PointerNetDPG_critic_inr in K12.
  destruct K12 as (di' & ds' & al' & D1' & D2' & D3' & -> & X12 & U12).
  pose proof (U12 eq_refl) as ->. clear U12 X12.
  inversion D3; subst al; clear D3. subst a_explore.
  attrs_in D1; attrs_in D2; attrs_in D1'; attrs_in D2'.
  rewrite B3 in D1, D1'. rewrite B4 in D2, D2'.
  inversion D1; subst di; clear D1. inversion D2; subst ds; clear D2.
  inversion D1'; subst di'; clear D1'. inversion D2'; subst ds'; clear D2'.
  simpl in K10. rewrite B12 in K10.
  assert (Q : attr self' "encoder_states" = Some (PL encoder_states) /\
    attr self' "a_pred" = Some (PL a_pred) /\
    attr self' "decoder_inputs" = Some (PL dec_inputs) /\
    attr self' "decoder_states" = Some (PL (tl dec_states)) /\
    attr self' "a_explore" = Some (PL al') /\
    attr self' "critic_on"
      = Some (PL (map2 (critic_net
                          (tf.join_scope (vs_name (g_scope g3)) "critic")
                          (spec self1))
                       (map2 ptr_state dec_inputs (tl dec_states)) a_pred)) /\
    attr self' "critic_off"
      = Some (PL (map2 (critic_net
                          (tf.join_scope (vs_name (g_scope g3)) "critic")
                          (spec self1))
                       (map2 ptr_state dec_inputs (tl dec_states)) al')) /\
    attr self' "track_update" = attr self "track_update" /\
    attr self' "bn_beta" = attr self "bn_beta" /\
    attr self' "bn_gamma" = attr self "bn_gamma" /\
    bn_actions self' = bn_actions self /\ spec self' = spec self /\
    seq_length self' = seq_length self /\
    g_vars g' = g_vars g4 /\ g_scope g' = g_scope g4 /\
    g_summaries g' = g_summaries g4 /\ (g_uid g4 <= g_uid g')%nat).
  { unfold PointerNetDPG._make_q_targets in H.
    rewrite (extends_scope _ _ X11) in H.
    destruct (negb (truthy _)).
    - mstep H as Q1 ps gq. apply mapM_placeholder_frame in Q1. mret H.
      attrs. repeat split; try tauto; try congruence; try lia.
    - mret H. attrs. repeat split; try tauto; try congruence; try lia. }
  exists d0, (inputs0 :: rest), outs, encoder_states, g1, last, a_raw,
         dec_states, dec_inputs, g2, a_pred, al', g3.
  simpl. rewrite B10 in Q.
  destruct Q as (Q1 & Q2 & Q3 & Q4 & Q5 & Q6 & Q7 & Q8 & Q9 & Q10 & Q11 & Q12
                 & Q13 & Q14 & Q15 & Q16 & Q17).
  repeat split; try assumption; try reflexivity.
  - intros BN. specialize (B0 BN). congruence.
  - rewrite (extends_scope _ _ X11) in Q15. exact Q15.
  - rewrite (extends_uid _ _ X11) in Q17. exact Q17.
  - rewrite (extends_summaries _ _ X11) in Q16. exact Q16.
  - destruct X11 as (_ & _ & _ & n & V). exists n. congruence.
Qed.

Lemma attr_setattr_neq self k v k' :
  k <> k' -> attr (setattr self k v) k' = attr self k'.
Proof.
  intros N. rewrite attr_setattr. destruct (String.eqb_spec k k'); congruence.
Qed.

Lemma DPG_make_objectives_frame self g self' g' k :
  DPG._make_objectives self g = (inr self', g') ->
  ~ In k objective_keys -> attr self' k = attr self k.
Proof.
  intros H N. apply make_objectives_inr in H.
  destruct H as (c1 & c2 & q & _ & _ & _ & _ & ->).
  unfold objective_keys in N. simpl in N.
  rewrite !attr_setattr_neq; [reflexivity | | | |]; intros E; apply N; auto.
Qed.

Lemma RecurrentDPG_init_inr ov mdp spec input_dim vocab_size seq_length
    inputs q_targets tau noiser name g self g' :
  RecurrentDPG.__init__ ov mdp spec input_dim vocab_size seq_length inputs
                        q_targets tau noiser name g = (inr self, g') ->
  exists s2 g2 s3 g3,
    RecurrentDPG._make_inputs
      (init_self (set_sequence_config blank input_dim vocab_size seq_length
                                      false)
                 mdp spec inputs q_targets tau noiser name)
      (tf.set_scope (tf.sub_scope (g_scope g) name None None) g)
      = (inr s2, g2) /\
    RecurrentDPG._make_graph ov s2 g2 = (inr s3, g3) /\
    DPG._make_objectives s3 g3 = (inr self, g3) /\
    g' = tf.set_scope (g_scope g) g3.
Proof.
  unfold RecurrentDPG.__init__. intros H. apply init_inr in H.
  destruct H as (s1 & g1 & s2 & g2 & s3 & g3 & s4 & g4 & g5
                 & K1 & K2 & K3 & K4 & K5 & ->).
  simpl in K1, K2, K3, K4, K5. unfold DPG._make_params in K1. mret K1.
  unfold RecurrentDPG._make_updates in K5. mret K5.
  pose proof K4 as K4'. apply make_objectives_inr in K4'.
  destruct K4' as (_ & _ & _ & _ & _ & _ & -> & _).
  exists s2, g2, s3, g3. auto.
Qed.

Lemma RecurrentDPG_make_inputs_inr self g self' g' :
  RecurrentDPG._make_inputs self g = (inr self', g') ->
  exists i q t d0 g3,
    self' =
      setattr
        (setattr
           (setattr (setattr (setattr self "inputs" i) "q_targets" q) "tau" t)
           "decoder_state_ind"
           (PT (Placeholder (g_uid g3) "dec_state_ind" [None; Some d0])))
        "decoder_action_ind"
        (PT (Placeholder (S (g_uid g3)) "dec_action_ind"
                         [None; Some (action_dim (mdp_spec self))])) /\
    (i = PT (Placeholder (g_uid g) "inputs" [None; Some (input_dim self)])
     \/ attr self "inputs" = Some i) /\
    ((exists u, q = PT (Placeholder u "q_targets" [None])
                /\ (g_uid g <= u < g_uid g3)%nat)
     \/ attr self "q_targets" = Some q) /\
    ((exists u, t = PT (Placeholder u "tau" [Some 1%Z])
                /\ (g_uid g <= u < g_uid g3)%nat)
     \/ attr self "tau" = Some t) /\
    (g_uid g <= g_uid g3)%nat /\
    g' = bump (bump g3) /\
    (exists rest, policy_dims (spec self) = d0 :: rest) /\
    g_vars g3 = g_vars g /\ g_scope g3 = g_scope g /\
    g_summaries g3 = g_summaries g.
Proof.
  unfold RecurrentDPG._make_inputs. intros H.
  mstep H as K1 i g1. mstep H as K2 q g2. mstep H as K3 t g3.
  mstep H as K4 d0 g3'. apply index0_inr in K4. destruct K4 as (PD & ->).
  simpl in PD.
  unfold bind in H. rewrite !placeholder_run in H. simpl in H. mret H.
  exists i, q, t, d0, g3. split; [reflexivity |].
  attrs_in K2. attrs_in K3.
  apply py_or_placeholder_inr in K1, K2, K3.
  assert (F1 : (g_uid g <= g_uid g1 <= S (g_uid g))%nat /\ g_vars g1 = g_vars g
               /\ g_scope g1 = g_scope g /\ g_summaries g1 = g_summaries g).
  { destruct K1 as [(_ & _ & ->) | (_ & _ & ->)]; simpl; repeat split; lia. }
  assert (F2 : (g_uid g1 <= g_uid g2 <= S (g_uid g1))%nat
               /\ g_vars g2 = g_vars g1
               /\ g_scope g2 = g_scope g1 /\ g_summaries g2 = g_summaries g1).
  { destruct K2 as [(_ & _ & ->) | (_ & _ & ->)]; simpl; repeat split; lia. }
  assert (F3 : (g_uid g2 <= g_uid g3 <= S (g_uid g2))%nat
               /\ g_vars g3 = g_vars g2
               /\ g_scope g3 = g_scope g2 /\ g_summaries g3 = g_summaries g2).
  { destruct K3 as [(_ & _ & ->) | (_ & _ & ->)]; simpl; repeat split; lia. }
  destruct F1 as (? & ? & ? & ?), F2 as (? & ? & ? & ?), F3 as (? & ? & ? & ?).
  repeat split; try congruence; try lia.
  - destruct K1 as [(E & _ & _) | (_ & E & _)]; [right | left]; auto.
  - destruct K2 as [(E & _ & _) | (_ & E & G)]; [right; auto | left].
    exists (g_uid g1). split; [exact E |]. subst g2. simpl in *. lia.
  - destruct K3 as [(E & _ & _) | (_ & E & G)]; [right; auto | left].
    exists (g_uid g2). split; [exact E |]. subst g3. simpl in *. lia.
Qed.

Lemma new_Variable_run value shp n g :
  tf.new_Variable value shp n g
  = (inr (VarRef (tf.unique_name
                    (tf.join_scope (vs_name (g_scope g)) n) g)),
     tf.add_var (mkVar (tf.unique_name
                          (tf.join_scope (vs_name (g_scope g)) n) g)
                       shp (InitConstant value) false) g).
Proof. reflexivity. Qed.

(** What [PointerNetDPG._make_params] does: nothing, or the two
    batch-norm parameters. *)
Lemma PointerNetDPG_make_params_inr self g self' g' :
  PointerNetDPG._make_params self g = (inr self', g') ->
  (bn_actions self = false /\ self' = self /\ g' = g) \/
  (bn_actions self = true /\
   exists beta gamma vb vg,
     self' = setattr (setattr self "bn_beta" (PT (VarRef beta)))
                     "bn_gamma" (PT (VarRef gamma)) /\
     v_name vb = beta /\ v_name vg = gamma /\
     g_vars g' = (g_vars g ++ [vb; vg])%list /\
     g_scope g' = g_scope g /\ g_uid g' = g_uid g).
Proof.
  unfold PointerNetDPG._make_params. destruct (bn_actions self) eqn:BN.
  - intros H. right. split; [reflexivity |].
    apply variable_scope_inr in H. destruct H as (g1 & H & ->).
    unfold bind in H. rewrite !new_Variable_run in H. simpl in H.
    mret H.
    eexists _, _, _, _. split; [reflexivity |]. simpl.
    rewrite <- app_assoc. simpl. repeat split; reflexivity.
  - intros H. mret H. left. auto.
Qed.

Lemma PointerNetDPG_make_inputs_inr self g self' g' :
  PointerNetDPG._make_inputs self g = (inr self', g') ->
  (forall k, k <> "inputs" -> k <> "tau" -> attr self' k = attr self k) /\
  bn_actions self' = bn_actions self /\ spec self' = spec self /\
  mdp_spec self' = mdp_spec self /\ seq_length self' = seq_length self /\
  noiser self' = noiser self /\
  g_vars g' = g_vars g /\ g_scope g' = g_scope g.
Proof.
  unfold PointerNetDPG._make_inputs. intros H.
  mstep H as K1 s1 g1. mstep H as K2 tau g2. mret H.
  assert (F1 : (forall k, k <> "inputs" -> attr s1 k = attr self k) /\
               bn_actions s1 = bn_actions self /\ spec s1 = spec self /\
               mdp_spec s1 = mdp_spec self /\
               seq_length s1 = seq_length self /\ noiser s1 = noiser self /\
               g_vars g1 = g_vars g /\ g_scope g1 = g_scope g).
  { destruct (negb (truthy (attr self "inputs"))).
    - mstep K1 as Q ps gq. apply mapM_placeholder_frame in Q. mret K1.
      repeat split; try tauto.
      intros k N. apply attr_setattr_neq. congruence.
    - mret K1. repeat split; reflexivity. }
  destruct F1 as (A & B1 & B2 & B3 & B4 & B5 & V & S).
  assert (F2 : g_vars g2 = g_vars g1 /\ g_scope g2 = g_scope g1).
  { apply py_or_placeholder_inr in K2.
    destruct K2 as [(_ & _ & ->) | (_ & _ & ->)]; auto. }
  destruct F2 as (V2 & S2).
  simpl. repeat split; try congruence.
  intros k N1 N2. rewrite attr_setattr_neq by congruence. apply A. exact N1.
Qed.

(** What [PointerNetDPG._make_objectives] leaves behind. *)
Lemma PointerNetDPG_make_objectives_inr self g self' g' :
  PointerNetDPG._make_objectives self g = (inr self', g') ->
  let policy_params :=
    map handle (filter (fun var => contains "encoder/" (var_name var)
                                   || contains "decoder/" (var_name var))
                       (g_vars g)) in
  let critic_params :=
    map handle (filter (fun var => contains "critic/" (var_name var))
                       (g_vars g)) in
  (forall k, ~ In k objective_keys -> attr self' k = attr self k) /\
  (bn_actions self = false ->
   attr self' "policy_params" = Some (PL policy_params) /\
   attr self' "critic_params" = Some (PL critic_params)) /\
  (bn_actions self = true ->
   exists beta gamma,
     attr self "bn_beta" = Some (PT beta) /\
     attr self "bn_gamma" = Some (PT gamma) /\
     attr self' "policy_params"
       = Some (PL (policy_params ++ [beta; gamma])%list) /\
     attr self' "critic_params"
       = Some (PL (critic_params ++ [beta; gamma])%list)) /\
  g_vars g' = g_vars g /\ g_scope g' = g_scope g.
Proof.
  unfold PointerNetDPG._make_objectives, PointerNetDPG._policy_params.
  intros H.
  mstep H as K1 pp g1. mstep K1 as K1a vs g1'. mget K1a. mret K1.
  mstep H as K2 vs g2. mget K2.
  mstep H as K3 s1 g3.
  mstep H as K4 con g4. mget K4.
  mstep H as K5 u1 g5. rewrite scalar_summary_run in K5.
  inversion K5; subst; clear K5.
  mstep H as K6 coff g6. mget K6. mstep H as K7 q g7. mget K7.
  mstep H as K8 u2 g8. rewrite scalar_summary_run in K8.
  inversion K8; subst; clear K8.
  mstep H as K9 u3 g9. rewrite scalar_summary_run in K9.
  inversion K9; subst; clear K9.
  mstep H as K10 ap g10. mget K10.
  mstep H as K11 u4 g11. rewrite scalar_summary_run in K11.
  inversion K11; subst; clear K11.
  mstep H as K12 u5 g12. rewrite scalar_summary_run in K12.
  inversion K12; subst; clear K12. mret H. simpl.
  cbn [bn_actions setattr] in K3.
  destruct (bn_actions self) eqn:BN.
  - mstep K3 as B1 beta gb. mget B1. mstep K3 as B2 gamma gb'. mget B2.
    mret K3. attrs_in E3. attrs_in E4.
    repeat split; try discriminate; try reflexivity.
    + intros k N. unfold objective_keys in N. simpl in N.
      rewrite !attr_setattr_neq; [reflexivity | | | | | |];
        intros X; apply N; auto.
    + intros _. exists beta, gamma. attrs. auto.
  - mret K3. repeat split; try discriminate; try reflexivity.
    intros k N. unfold objective_keys in N. simpl in N.
    rewrite !attr_setattr_neq; [reflexivity | | | |];
      intros X; apply N; auto.
Qed.

Lemma PointerNetDPG_init_inr mdp spec input_dim seq_length bn inputs
    q_targets tau noiser name g self g' :
  PointerNetDPG.__init__ mdp spec input_dim seq_length bn inputs q_targets
                         tau noiser name g = (inr self, g') ->
  exists d0 s1 g1 s2 g2 s3 g3 g4,
    index0 (policy_dims spec) g = (inr d0, g) /\
    state_dim mdp = (d0 * 2)%Z /\
    PointerNetDPG._make_params
      (init_self (set_sequence_config blank input_dim 0 seq_length bn)
                 mdp spec inputs q_targets tau noiser name)
      (tf.set_scope (tf.sub_scope (g_scope g) name None None) g)
      = (inr s1, g1) /\
    PointerNetDPG._make_inputs s1 g1 = (inr s2, g2) /\
    PointerNetDPG._make_graph s2 g2 = (inr s3, g3) /\
    PointerNetDPG._make_objectives s3 g3 = (inr self, g4) /\
    g' = tf.set_scope (g_scope g) g4.
Proof.
  unfold PointerNetDPG.__init__. intros H.
  mstep H as K0 d0 g0. pose proof K0 as K0'. apply index0_inr in K0'.
  destruct K0' as (_ & ->).
  mstep H as KA u g0.
  destruct (Z.eqb_spec (state_dim mdp) (d0 * 2)) as [EQ | NE];
    [| discriminate]. mret KA.
  apply init_inr in H.
  destruct H as (s1 & g1 & s2 & g2 & s3 & g3 & s4 & g4 & g5
                 & K1 & K2 & K3 & K4 & K5 & ->).
  simpl in K1, K2, K3, K4, K5.
  unfold PointerNetDPG._make_updates in K5. mret K5.
  exists d0, s1, g1, s2, g2, s3, g3, g4. auto 10.
Qed.

(** The critics of a constructed base instance. *)
Lemma DPG_critics mdp spec inputs q_targets tau noiser name g self g' :
  DPG.new mdp spec inputs q_targets tau noiser name g = (inr self, g') ->
  exists sc inputs' a_pred a_explore,
    attr self "inputs" = Some (PT inputs') /\
    attr self "a_pred" = Some (PT a_pred) /\
    attr self "a_explore" = Some (PT a_explore) /\
    attr self "critic_on" = Some (PT (critic_net sc spec inputs' a_pred)) /\
    attr self "critic_off"
      = Some (PT (critic_net sc spec inputs' a_explore)).
Proof.
  intros H. apply DPG_new_inr in H.
  destruct H as (s2 & g2 & s3 & g3 & s4 & g4 & K2 & K3 & K4 & K5 & ->).
  apply DPG_make_updates_inr in K5. destruct K5 as (_ & pu & cu & ->).
  apply make_objectives_inr in K4.
  destruct K4 as (con & coff & tg & _ & _ & _ & _ & ->).
  apply DPG_make_graph_inr in K3.
  destruct K3 as (i & ap & ae & g1' & g2' & apt & cot & E & _ & _ & -> & _).
  apply DPG_make_inputs_inr in K2.
  destruct K2 as (i' & q' & t' & -> & _).
  exists (tf.join_scope (vs_name (g_scope g2')) "critic"), i, ap, ae.
  attrs. attrs_in E. repeat split; try assumption; reflexivity.
Qed.

(** The per-timestep critics of a constructed recurrent instance. *)
Lemma RecurrentDPG_critics ov mdp spec input_dim vocab_size seq_length
    inputs q_targets tau noiser name g self g' :
  RecurrentDPG.__init__ ov mdp spec input_dim vocab_size seq_length inputs
                        q_targets tau noiser name g = (inr self, g') ->
  exists sc states a_pred a_explore,
    attr self "decoder_states" = Some (PL states) /\
    attr self "a_pred" = Some (PL a_pred) /\
    attr self "a_explore" = Some (PL a_explore) /\
    attr self "critic_on_seq"
      = Some (PL (map2 (critic_net sc spec) states a_pred)) /\
    attr self "critic_off_seq"
      = Some (PL (map2 (critic_net sc spec) states a_explore)).
Proof.
  intros H. apply RecurrentDPG_init_inr in H.
  destruct H as (s2 & g2 & s3 & g3 & K2 & K3 & K4 & ->).
  apply make_objectives_inr in K4.
  destruct K4 as (con & coff & tg & _ & _ & _ & _ & ->).
  apply RecurrentDPG_make_graph_inr in K3.
  destruct K3 as (d0 & i & lf & g1 & ap & st0 & g2' & ae & g3' & g4 & dsi
                  & api & sti & g5 & aei & g6 & _ & _ & _ & _ & _ & _ & _ & _
                  & _ & K3).
  simpl in K3. destruct K3 as (-> & _).
  apply RecurrentDPG_make_inputs_inr in K2.
  destruct K2 as (i' & q' & t' & d0' & g3'' & -> & _).
  exists (tf.join_scope (vs_name (g_scope g3')) "critic"), (tl st0), ap, ae.
  attrs. repeat split; reflexivity.
Qed.

(** The per-timestep critics of a constructed pointer-network instance:
    the state given to the critic at a timestep is the concatenation of
    that timestep's decoder input and decoder hidden state, in this
    order. *)
Lemma PointerNetDPG_critics mdp sp input_dim seq_length bn inputs
    q_targets tau noiser name g self g' :
  PointerNetDPG.__init__ mdp sp input_dim seq_length bn inputs q_targets
                         tau noiser name g = (inr self, g') ->
  exists sc dec_inputs dec_states a_pred a_explore,
    attr self "decoder_inputs" = Some (PL dec_inputs) /\
    attr self "decoder_states" = Some (PL dec_states) /\
    attr self "a_pred" = Some (PL a_pred) /\
    attr self "a_explore" = Some (PL a_explore) /\
    attr self "critic_on"
      = Some (PL (map2 (critic_net sc sp)
                       (map2 ptr_state dec_inputs dec_states) a_pred)) /\
    attr self "critic_off"
      = Some (PL (map2 (critic_net sc sp)
                       (map2 ptr_state dec_inputs dec_states) a_explore)).
Proof.
  intros H. apply PointerNetDPG_init_inr in H.
  destruct H as (d0 & s1 & g1 & s2 & g2 & s3 & g3 & g4 & _ & _ & K1 & K2 & K3
                 & K4 & ->).
  apply PointerNetDPG_make_objectives_inr in K4. destruct K4 as (F & _).
  apply PointerNetDPG_make_graph_inr in K3.
  destruct K3 as (d0' & i & outs & es & g1' & last & araw & dst & din & g2'
                  & ap & ae & g3' & _ & _ & _ & _ & _ & _ & _ & _ & K3).
  simpl in K3.
  destruct K3 as (_ & A1 & A2 & A3 & A4 & A5 & A6 & _ & _ & _ & _ & SP & _).
  apply PointerNetDPG_make_inputs_inr in K2.
  destruct K2 as (_ & _ & SP2 & _).
  assert (SP1 : spec s1 = sp).
  { apply PointerNetDPG_make_params_inr in K1.
    destruct K1 as [(_ & -> & _) | (_ & b & c & vb & vg & -> & _)];
      reflexivity. }
  exists (tf.join_scope (vs_name (g_scope g3')) "critic"), din, (tl dst),
         ap, ae.
  assert (N : forall k, In k ["decoder_inputs"; "decoder_states"; "a_pred";
                              "a_explore"; "critic_on"; "critic_off"] ->
                        ~ In k objective_keys).
  { intros k Hk Ho. simpl in Hk, Ho.
    repeat (destruct Hk as [<- | Hk];
            [repeat (destruct Ho as [Ho | Ho]; [discriminate |]); exact Ho |]).
    exact Hk. }
  rewrite !F by (apply N; simpl; auto 10).
  rewrite SP2, SP1 in A5, A6. auto 10.
Qed.

Lemma eval_mlp_net_congr e sc hidden b : forall x x' i,
  eval e x = eval e x' ->
  eval e (mlp_net sc x i hidden b) = eval e (mlp_net sc x' i hidden b).
Proof.
  induction hidden as [| h hidden IH]; intros x x' i E; simpl.
  - destruct b; unfold tf.add, tf.matmul; rewrite !eval_Op2, E; reflexivity.
  - apply IH. unfold tf.add, tf.matmul.
    rewrite !eval_Op1, !eval_Op2, E. reflexivity.
Qed.

(** The value of a critic depends on the action only: the two branches
    read the same parameters from the environment, whatever their
    current values. *)
Lemma eval_critic_net_congr e sc sp inp a a' :
  eval e a = eval e a' ->
  eval e (critic_net sc sp inp a) = eval e (critic_net sc sp inp a').
Proof.
  intros E. unfold critic_net, tf.squeeze, tf.tanh.
  rewrite !eval_Op1.
  rewrite (eval_mlp_net_congr e sc (critic_dims sp) true
             (tf.concat 1 [inp; a]) (tf.concat 1 [inp; a']) 0);
    [reflexivity |].
  unfold tf.concat. rewrite !eval_Op. simpl. rewrite E. reflexivity.
Qed.

Lemma succeeded_inr {A} (r : (exn + A) * graph) :
  succeeded r = true -> exists a g', r = (inr a, g').
Proof.
  destruct r as [[e | a] g']; unfold succeeded; simpl; intros H;
    [discriminate | eauto].
Qed.

(** C3.  A [PointerNetDPG] whose [mdp.state_dim] differs from
    [2 * spec.policy_dims[0]] is refused by the assertion at the head of
    the constructor, with the graph untouched; when the two agree the
    assertion passes and construction goes on in the base
    constructor. *)
Theorem C3_pointer_net_dimension_assertion :
  forall mdp d0 rest cdims input_dim seq_length bn inputs q_targets tau
         noiser name g,
    (state_dim mdp <> (2 * d0)%Z ->
     PointerNetDPG.__init__ mdp (mkSpec (d0 :: rest) cdims) input_dim
                            seq_length bn inputs q_targets tau noiser name g
     = (inl AssertionError, g)) /\
    (state_dim mdp = (2 * d0)%Z ->
     PointerNetDPG.__init__ mdp (mkSpec (d0 :: rest) cdims) input_dim
                            seq_length bn inputs q_targets tau noiser name g
     = DPG.__init__ PointerNetDPG.cls
         (set_sequence_config blank input_dim 0 seq_length bn)
         mdp (mkSpec (d0 :: rest) cdims) inputs q_targets tau noiser name g).
Proof.
  intros. unfold PointerNetDPG.__init__. simpl policy_dims.
  split; intros H.
  - unfold bind, index0, ret.
    destruct (Z.eqb_spec (state_dim mdp) (d0 * 2)) as [E | N]; [lia |].
    reflexivity.
  - unfold bind, index0, ret.
    destruct (Z.eqb_spec (state_dim mdp) (d0 * 2)) as [E | N]; [| lia].
    reflexivity.
Qed.

(** The spec's scenario: [input_dim = 1], [seq_length = 5],
    [policy_dims = [3; ...]]; [state_dim = 5] is refused before anything
    is built, [state_dim = 6] constructs. *)
Lemma C3_pointer_net_dimension_assertion_witness :
  PointerNetDPG.__init__ (mkMdp 5 5) (mkSpec [3; 7]%Z [8]%Z) 1 5 false
                         None None None None "dpg" empty_graph
  = (inl AssertionError, empty_graph) /\
  exists self g',
    PointerNetDPG.__init__ (mkMdp 6 5) (mkSpec [3; 7]%Z [8]%Z) 1 5 false
                           None None None None "dpg" empty_graph
    = (inr self, g').
Proof.
  split.
  - apply (proj1 (C3_pointer_net_dimension_assertion
                    (mkMdp 5 5) 3%Z [7%Z] [8%Z] 1%Z 5%Z false None None None
                    None "dpg" empty_graph)).
    simpl. lia.
  - rewrite (proj2 (C3_pointer_net_dimension_assertion
                      (mkMdp 6 5) 3%Z [7%Z] [8%Z] 1%Z 5%Z false None None None
                      None "dpg" empty_graph)) by reflexivity.
    apply succeeded_inr. vm_compute. reflexivity.
Defined.

Lemma lookup_attr_app l1 l2 k :
  lookup_attr (l1 ++ l2)%list k
  = match lookup_attr l1 k with
    | Some v => Some v
    | None => lookup_attr l2 k
    end.
Proof.
  induction l1 as [| [k' v] l1 IH]; simpl; [reflexivity |].
  destruct (String.eqb k' k); [reflexivity | exact IH].
Qed.

Lemma lookup_bind_opt_neq k' v k :
  k' <> k -> lookup_attr (bind_opt k' v) k = None.
Proof.
  intros N. destruct v as [x |]; simpl; [| reflexivity].
  destruct (String.eqb_spec k' k); [contradiction | reflexivity].
Qed.

Lemma init_self_attr_other self mdp sp inputs q_targets tau nz nm k :
  k <> "tau" -> k <> "q_targets" -> k <> "inputs" ->
  attr (init_self self mdp sp inputs q_targets tau nz nm) k = attr self k.
Proof.
  intros N1 N2 N3. unfold attr, init_self. simpl.
  rewrite !lookup_attr_app, !lookup_bind_opt_neq by congruence. reflexivity.
Qed.

(** C6.  In the recurrent and the pointer-network variant
    [_make_updates] does nothing: it returns the instance and the graph
    as they are, and a constructed instance has no [track_update]; the
    base DPG has one, grouping the policy-side and the critic-side
    tracking update. *)
Theorem C6_sequence_variants_omit_tracking :
  (forall self g, RecurrentDPG._make_updates self g = (inr self, g)) /\
  (forall self g, PointerNetDPG._make_updates self g = (inr self, g)) /\
  (forall ov mdp sp input_dim vocab_size seq_length inputs q_targets tau
          noiser name g self g',
      RecurrentDPG.__init__ ov mdp sp input_dim vocab_size seq_length inputs
                            q_targets tau noiser name g = (inr self, g') ->
      attr self "track_update" = None) /\
  (forall mdp sp input_dim seq_length bn inputs q_targets tau noiser name g
          self g',
      PointerNetDPG.__init__ mdp sp input_dim seq_length bn inputs q_targets
                             tau noiser name g = (inr self, g') ->
      attr self "track_update" = None) /\
  (forall mdp sp inputs q_targets tau noiser name g self g',
      DPG.new mdp sp inputs q_targets tau noiser name g = (inr self, g') ->
      exists policy_updates critic_updates,
        attr self "track_update"
        = Some (PT (tf.group [tf.group policy_updates;
                              tf.group critic_updates]))).
Proof.
  repeat apply conj.
  - reflexivity.
  - reflexivity.
  - intros ov mdp sp input_dim vocab_size seq_length inputs q_targets tau
           noiser name g self g' H.
    apply RecurrentDPG_init_inr in H.
    destruct H as (s2 & g2 & s3 & g3 & K2 & K3 & K4 & ->).
    rewrite (DPG_make_objectives_frame _ _ _ _ "track_update" K4)
      by (simpl; intuition discriminate).
    apply RecurrentDPG_make_graph_inr in K3.
    destruct K3 as (d0 & i & lf & g1 & ap & st0 & g2' & ae & g3' & g4 & dsi
                    & api & sti & g5 & aei & g6 & _ & _ & _ & _ & _ & _ & _
                    & _ & _ & K3).
    simpl in K3. destruct K3 as (-> & _).
    apply RecurrentDPG_make_inputs_inr in K2.
    destruct K2 as (i' & q' & t' & d0' & g3'' & -> & _).
    attrs. apply init_self_attr_other; discriminate.
  - intros mdp sp input_dim seq_length bn inputs q_targets tau noiser name g
           self g' H.
    apply PointerNetDPG_init_inr in H.
    destruct H as (d0 & s1 & g1 & s2 & g2 & s3 & g3 & g4 & _ & _ & K1 & K2
                   & K3 & K4 & ->).
    apply PointerNetDPG_make_objectives_inr in K4. destruct K4 as (F & _).
    rewrite F by (simpl; intuition discriminate).
    apply PointerNetDPG_make_graph_inr in K3.
    destruct K3 as (d0' & i & outs & es & g1' & last & araw & dst & din & g2'
                    & ap & ae & g3' & _ & _ & _ & _ & _ & _ & _ & _ & K3).
    simpl in K3.
    destruct K3 as (_ & _ & _ & _ & _ & _ & _ & T & _). rewrite T.
    apply PointerNetDPG_make_inputs_inr in K2. destruct K2 as (A & _).
    rewrite A by discriminate.
    apply PointerNetDPG_make_params_inr in K1.
    destruct K1 as [(_ & -> & _) | (_ & b & c & vb & vg & -> & _)]; attrs;
      apply init_self_attr_other; discriminate.
  - intros mdp sp inputs q_targets tau noiser name g self g' H.
    apply DPG_new_inr in H.
    destruct H as (s2 & g2 & s3 & g3 & s4 & g4 & _ & _ & _ & K5 & _).
    apply DPG_make_updates_inr in K5. destruct K5 as (_ & pu & cu & ->).
    exists pu, cu. reflexivity.
Qed.

Lemma C6_sequence_variants_omit_tracking_witness :
  exists self g',
    PointerNetDPG.__init__ (mkMdp 6 2) (mkSpec [3; 7]%Z [8]%Z) 1 2 false
                           None None None None "dpg" empty_graph
    = (inr self, g') /\
    attr self "track_update" = None.
Proof.
  destruct (succeeded_inr
              (PointerNetDPG.__init__ (mkMdp 6 2) (mkSpec [3; 7]%Z [8]%Z) 1 2
                 false None None None None "dpg" empty_graph))
    as (self & g' & E); [vm_compute; reflexivity |].
  exists self, g'. split; [exact E |].
  exact (proj1 (proj2 (proj2 (proj2 C6_sequence_variants_omit_tracking)))
           _ _ _ _ _ _ _ _ _ _ _ _ _ E).
Defined.

(** C8, as worded, fails: in the instance below the critic of the first
    timestep is not given the hidden state followed by the input, for
    any choice of critic parameters. *)
Lemma C8_state_first_counterexample :
  exists self g' dec_inputs dec_states a_pred,
    PointerNetDPG.__init__ (mkMdp 6 1) (mkSpec [3]%Z []) 1 1 false
                           None None None None "dpg" empty_graph
    = (inr self, g') /\
    attr self "decoder_inputs" = Some (PL dec_inputs) /\
    attr self "decoder_states" = Some (PL dec_states) /\
    attr self "a_pred" = Some (PL a_pred) /\
    forall sc,
      attr self "critic_on"
      <> Some (PL (map2 (critic_net sc (mkSpec [3]%Z []))
                        (map2 state_then_input dec_inputs dec_states)
                        a_pred)).
Proof.
  eexists. eexists. eexists. eexists. eexists.
  split; [vm_compute; reflexivity |].
  split; [vm_compute; reflexivity |].
  split; [vm_compute; reflexivity |].
  split; [vm_compute; reflexivity |].
  intros sc H. vm_compute in H. discriminate H.
Qed.

(** C8 (amended).  In a constructed [PointerNetDPG] the critic of
    timestep [t], on-policy and exploratory, is given the feature-axis
    concatenation of that timestep's decoder input and that timestep's
    decoder hidden state, the input first, not the hidden state
    alone. *)
Theorem C8_critic_state_is_input_then_hidden :
  forall mdp sp input_dim seq_length bn inputs q_targets tau noiser name g
         self g',
    PointerNetDPG.__init__ mdp sp input_dim seq_length bn inputs q_targets
                           tau noiser name g = (inr self, g') ->
    exists sc dec_inputs dec_states a_pred a_explore,
      attr self "decoder_inputs" = Some (PL dec_inputs) /\
      attr self "decoder_states" = Some (PL dec_states) /\
      attr self "a_pred" = Some (PL a_pred) /\
      attr self "a_explore" = Some (PL a_explore) /\
      attr self "critic_on"
        = Some (PL (map2 (critic_net sc sp)
                         (map2 (fun inputs_t states_t =>
                                  tf.concat 1 [inputs_t; states_t])
                               dec_inputs dec_states)
                         a_pred)) /\
      attr self "critic_off"
        = Some (PL (map2 (critic_net sc sp)
                         (map2 (fun inputs_t states_t =>
                                  tf.concat 1 [inputs_t; states_t])
                               dec_inputs dec_states)
                         a_explore)).
Proof.
  intros. eapply PointerNetDPG_critics. eassumption.
Qed.

Lemma C8_critic_state_is_input_then_hidden_witness :
  exists self g' sc dec_inputs dec_states a_pred,
    PointerNetDPG.__init__ (mkMdp 6 1) (mkSpec [3]%Z []) 1 1 false
                           None None None None "dpg" empty_graph
    = (inr self, g') /\
    attr self "critic_on"
      = Some (PL (map2 (critic_net sc (mkSpec [3]%Z []))
                       (map2 (fun inputs_t states_t =>
                                tf.concat 1 [inputs_t; states_t])
                             dec_inputs dec_states)
                       a_pred)).
Proof.
  destruct (succeeded_inr
              (PointerNetDPG.__init__ (mkMdp 6 1) (mkSpec [3]%Z []) 1 1 false
                 None None None None "dpg" empty_graph))
    as (self & g' & E); [vm_compute; reflexivity |].
  destruct (C8_critic_state_is_input_then_hidden _ _ _ _ _ _ _ _ _ _ _ _ _ E)
    as (sc & di & ds & ap & ae & _ & _ & _ & _ & E5 & _).
  exists self, g', sc, di, ds, ap. auto.
Defined.

(* ------------------------------------------------------------------ *)
(** ** Shapes and elementwise arithmetic *)

Lemma has_shape_cons n d l :
  has_shape (n :: d) (VA l) <-> length l = n /\ Forall (has_shape d) l.
Proof.
  simpl. split; intros [L A]; split; try exact L; clear L.
  - induction l as [| x l IH]; constructor.
    + apply A.
    + apply IH. apply A.
  - induction A as [| x l Hx _ IH]; [exact I | split; assumption].
Qed.

Lemma has_shape_nil_inv v : has_shape [] v -> exists r, v = VR r.
Proof.
  destruct v as [r | z | l]; simpl; intros H; [eauto | contradiction |
                                                contradiction].
Qed.

Lemma has_shape_cons_inv n d v :
  has_shape (n :: d) v ->
  exists l, v = VA l /\ length l = n /\ Forall (has_shape d) l.
Proof.
  destruct v as [r | z | l]; intros H.
  - simpl in H. discriminate.
  - simpl in H. contradiction.
  - exists l. split; [reflexivity |]. apply has_shape_cons. exact H.
Qed.

Lemma bop_same_VA f la lb :
  bop_same f (VA la) (VA lb)
  = if Nat.eqb (length la) (length lb) then
      option_map VA (zipO (bop_same f) la lb)
    else
      match lb with
      | [y] => option_map VA (mapO (fun x => bop_same f x y) la)
      | _ =>
          match la with
          | [x] => option_map VA (mapO (fun y => bop_same f x y) lb)
          | _ => None
          end
      end.
Proof.
  simpl. destruct (Nat.eqb (length la) (length lb)).
  - f_equal. clear. revert lb.
    induction la as [| x la IH]; intros [| y lb]; simpl; try reflexivity.
    rewrite IH. reflexivity.
  - destruct lb as [| y [| y' lb]]; try reflexivity.
    f_equal. clear. induction la as [| x la IH]; simpl; [reflexivity |].
    rewrite IH. reflexivity.
Qed.

Lemma shape_of_fill dims f : shape_of (fill dims f) = trunc dims.
Proof.
  revert f. induction dims as [| n d IH]; intros f; simpl; [reflexivity |].
  rewrite length_map, length_seq. destruct n as [| n]; [reflexivity |].
  simpl. rewrite IH. reflexivity.
Qed.

Lemma has_shape_shape_of dims : forall v,
  has_shape dims v -> shape_of v = trunc dims.
Proof.
  induction dims as [| n d IH]; intros v H.
  - apply has_shape_nil_inv in H. destruct H as [r ->]. reflexivity.
  - apply has_shape_cons_inv in H. destruct H as (l & -> & L & A).
    simpl. rewrite L. destruct A as [| x l Hx _].
    + simpl in L. subst n. reflexivity.
    + simpl in L. subst n. simpl. rewrite (IH _ Hx). reflexivity.
Qed.

Lemma rank_0_lift g v : lift_at 0 g v = g v.
Proof. reflexivity. Qed.

Lemma bop_same_rank f a b :
  rank a = rank b -> bop f a b = bop_same f a b.
Proof.
  intros E. unfold bop. rewrite E, Nat.ltb_irrefl, Nat.sub_diag. reflexivity.
Qed.

(** Adding to an array a perturbation laid out over the array's own
    dimensions keeps the dimensions, and the array itself when the
    perturbation is zero. *)
Lemma add_fill_same_shape dims : forall v f,
  has_shape dims v ->
  exists v',
    bop_same Rplus v (fill (trunc dims) f) = Some v' /\
    has_shape dims v' /\
    ((forall idx, f idx = 0%R) -> v' = v).
Proof.
  induction dims as [| n d IH]; intros v f H.
  - apply has_shape_nil_inv in H. destruct H as [r ->]. simpl.
    exists (VR (r + f [])%R). repeat split.
    intros Z. rewrite Z, Rplus_0_r. reflexivity.
  - apply has_shape_cons_inv in H. destruct H as (l & -> & L & A).
    destruct n as [| n].
    + destruct l; [| discriminate]. simpl. exists (VA []).
      repeat split.
    + change (trunc (S n :: d)) with (S n :: trunc d).
      change (fill (S n :: trunc d) f)
        with (VA (map (fun i => fill (trunc d)
                                     (fun idx => f (i :: idx)%list))
                      (seq 0 (S n)))).
      rewrite bop_same_VA, length_map, length_seq, <- L, Nat.eqb_refl.
      assert (Z : forall k (g : nat -> list nat -> R),
                 exists l',
                   zipO (bop_same Rplus) l
                        (map (fun i => fill (trunc d) (g i))
                             (seq k (length l))) = Some l' /\
                   length l' = length l /\ Forall (has_shape d) l' /\
                   ((forall i idx, g i idx = 0%R) -> l' = l)).
      { clear L. induction A as [| x l Hx A IHl]; intros k g.
        - exists []. repeat split. constructor.
        - simpl. destruct (IH x (g k) Hx) as (x' & E1 & S1 & Z1).
          destruct (IHl (S k) g) as (l' & E2 & L2 & A2 & Z2).
          rewrite E1, E2. exists (x' :: l'). repeat split.
          + simpl. congruence.
          + constructor; assumption.
          + intros Hz. rewrite Z1, Z2; auto. }
      destruct (Z 0%nat (fun i idx => f (i :: idx)%list))
        as (l' & E & L' & A' & Z').
      rewrite E. exists (VA l'). split; [reflexivity |]. split.
      * apply has_shape_cons. split; [congruence | exact A'].
      * intros Hz. rewrite Z'; auto.
Qed.

Lemma mapO_as_int_shape l :
  mapO as_int (map (fun d => VI (Z.of_nat d)) l) = Some (map Z.of_nat l).
Proof.
  induction l as [| d l IH]; simpl; [reflexivity |]. rewrite IH. reflexivity.
Qed.

Lemma map_to_nat_of_nat l : map Z.to_nat (map Z.of_nat l) = l.
Proof.
  induction l as [| d l IH]; simpl; [reflexivity |].
  rewrite Nat2Z.id, IH. reflexivity.
Qed.

(** The value of an action with Gaussian noise added. *)
Lemma eval_noised e actions u m s dims v :
  eval e actions = Some v -> has_shape dims v ->
  exists v',
    eval e (tf.add actions (Op (ORandomNormal u m s) [tf.shape actions]))
      = Some v' /\
    has_shape dims v' /\
    ((m == 0)%Q -> (s == 0)%Q -> v' = v).
Proof.
  intros Ev Hs. unfold tf.add, tf.shape.
  rewrite eval_Op2, Ev, !eval_Op1, Ev. simpl.
  rewrite mapO_as_int_shape, map_to_nat_of_nat.
  rewrite (has_shape_shape_of _ _ Hs).
  destruct (add_fill_same_shape dims v
              (fun idx => (Q2R m + Q2R s * sample e u idx)%R) Hs)
    as (v' & E & S' & Z).
  rewrite bop_same_rank.
  - exists v'. repeat split; try assumption.
    intros Hm Hz. apply Z. intros idx.
    rewrite (Qeq_eqR _ _ Hm), (Qeq_eqR _ _ Hz), RMicromega.Q2R_0. lra.
  - unfold rank. rewrite shape_of_fill, (has_shape_shape_of _ _ Hs).
    clear. induction dims as [| [| n] d IH]; simpl; try reflexivity.
    rewrite IH. reflexivity.
Qed.

Lemma noise_gaussian_tensor_run actions stddev g :
  noise_gaussian_tensor actions stddev g
  = (inr (tf.add actions
                 (Op (ORandomNormal (g_uid g) 0 stddev) [tf.shape actions])),
     bump g).
Proof. reflexivity. Qed.

Lemma noise_list_run stddev : forall l g,
  exists noised g',
    mapM (fun a => noise_gaussian_tensor a stddev) l g = (inr noised, g') /\
    Forall2 (fun a n =>
               exists u,
                 n = tf.add a (Op (ORandomNormal u 0 stddev) [tf.shape a]))
            l noised /\
    g_vars g' = g_vars g /\ g_scope g' = g_scope g /\
    g_summaries g' = g_summaries g.
Proof.
  induction l as [| a l IH]; intros g.
  - exists [], g. simpl. repeat split. constructor.
  - destruct (IH (bump g)) as (ns & g' & E & F & V & S & Sm).
    exists (tf.add a (Op (ORandomNormal (g_uid g) 0 stddev) [tf.shape a])
            :: ns), g'.
    simpl. unfold bind at 1. rewrite noise_gaussian_tensor_run.
    unfold bind at 1. rewrite E. repeat split; try assumption.
    constructor; [eauto | exact F].
Qed.

(** C9.  The Gaussian noiser always returns, a tensor for a tensor and
    a list of the same length for a list; whatever array of reals an
    action evaluates to, the noised action evaluates to an array of the
    same dimensions, and to the very same array when the standard
    deviation is zero. *)
Theorem C9_noise_preserves_shape :
  (forall inp actions stddev g,
      exists noised,
        noise_gaussian inp (PT actions) stddev g
        = (inr (PT noised), bump g) /\
        forall e dims v,
          eval e actions = Some v -> has_shape dims v ->
          exists v',
            eval e noised = Some v' /\ has_shape dims v' /\
            shape_of v' = shape_of v /\
            ((stddev == 0)%Q -> v' = v)) /\
  (forall inp actions stddev g,
      exists noised g',
        noise_gaussian inp (PL actions) stddev g = (inr (PL noised), g') /\
        length noised = length actions /\
        forall e,
          Forall2
            (fun a n =>
               forall dims v,
                 eval e a = Some v -> has_shape dims v ->
                 exists v',
                   eval e n = Some v' /\ has_shape dims v' /\
                   shape_of v' = shape_of v /\
                   ((stddev == 0)%Q -> v' = v))
            actions noised).
Proof.
  split.
  - intros inp actions stddev g. eexists. split.
    + unfold noise_gaussian, bind. rewrite noise_gaussian_tensor_run.
      reflexivity.
    + intros e dims v Ev Hs.
      destruct (eval_noised e actions (g_uid g) 0 stddev dims v Ev Hs)
        as (v' & E & S' & Z).
      exists v'. repeat split; try assumption.
      * rewrite (has_shape_shape_of _ _ S'), (has_shape_shape_of _ _ Hs).
        reflexivity.
      * intros Hz. apply Z; [reflexivity | exact Hz].
  - intros inp actions stddev g.
    destruct (noise_list_run stddev actions g) as (ns & g' & E & F & _).
    exists ns, g'. split; [| split].
    + unfold noise_gaussian, bind. rewrite E. reflexivity.
    + symmetry. eapply Forall2_length. exact F.
    + intros e. clear E. induction F as [| a n l ns (u & ->) _ IH]; constructor.
      * intros dims v Ev Hs.
        destruct (eval_noised e a u 0 stddev dims v Ev Hs)
          as (v' & E' & S' & Z).
        exists v'. repeat split; try assumption.
        -- rewrite (has_shape_shape_of _ _ S'), (has_shape_shape_of _ _ Hs).
           reflexivity.
        -- intros Hz. apply Z; [reflexivity | exact Hz].
      * exact IH.
Qed.

(** An instance of C9: a 2 x 2 action batch, noise of standard
    deviation 0. *)
Lemma C9_noise_preserves_shape_witness :
  exists noised v',
    noise_gaussian (PT (IntConst 0)) (PT (Placeholder 0 "a" [])) 0
                   empty_graph = (inr (PT noised), bump empty_graph) /\
    eval example_env noised = Some v' /\
    v' = VA [VA [VR 1; VR 2]; VA [VR 3; VR 4]].
Proof.
  destruct (proj1 C9_noise_preserves_shape (PT (IntConst 0))
              (Placeholder 0 "a" []) 0%Q empty_graph)
    as (noised & E & P).
  destruct (P example_env [2; 2]%nat
              (VA [VA [VR 1; VR 2]; VA [VR 3; VR 4]]) eq_refl)
    as (v' & Ev & _ & _ & Z).
  { simpl. repeat split. }
  exists noised, v'. split; [exact E |]. split; [exact Ev |].
  apply Z. reflexivity.
Defined.

(* ------------------------------------------------------------------ *)
(** ** Attention over the encoder memory *)

Lemma mapO_map {A B C} (f : B -> option C) (g : A -> B) (k : A -> C) l :
  (forall a, In a l -> f (g a) = Some (k a)) ->
  mapO f (map g l) = Some (map k l).
Proof.
  induction l as [| a l IH]; intros H; simpl; [reflexivity |].
  rewrite (H a (or_introl eq_refl)), IH; [reflexivity |].
  intros a' I. apply H. right. exact I.
Qed.

Lemma mapO_some {A B} (f : A -> option B) (k : A -> B) l :
  (forall a, In a l -> f a = Some (k a)) -> mapO f l = Some (map k l).
Proof.
  intros H. rewrite <- (map_id l) at 1. apply mapO_map. exact H.
Qed.

Lemma zipO_map f {A B} (g : A -> val) (h : B -> val) (k : A -> B -> val)
    la lb :
  (forall a b, In a la -> In b lb -> f (g a) (h b) = Some (k a b)) ->
  zipO f (map g la) (map h lb) = Some (map2 k la lb).
Proof.
  revert lb. induction la as [| a la IH]; intros [| b lb] H; simpl;
    try reflexivity.
  rewrite (H a b (or_introl eq_refl) (or_introl eq_refl)).
  unfold map2 in IH. rewrite IH; [reflexivity |].
  intros a' b' Ia Ib. apply H; right; assumption.
Qed.

Lemma mapO_as_real_vec xs : mapO as_real (map VR xs) = Some xs.
Proof.
  rewrite (mapO_map as_real VR (fun x => x)); [| reflexivity].
  rewrite map_id. reflexivity.
Qed.

Lemma vsoftmax_vec xs : vsoftmax (vec xs) = Some (vec (softmax_vec xs)).
Proof. unfold vec at 1. simpl. rewrite mapO_as_real_vec. reflexivity. Qed.

Lemma vsoftmax_VA l :
  vsoftmax (VA l)
  = match mapO as_real l with
    | Some xs => Some (vec (softmax_vec xs))
    | None => option_map VA (mapO vsoftmax l)
    end.
Proof. reflexivity. Qed.

Lemma vsoftmax_mat m : vsoftmax (mat m) = Some (mat (map softmax_vec m)).
Proof.
  unfold mat. rewrite vsoftmax_VA. destruct m as [| r m]; [reflexivity |].
  change (mapO as_real (map vec (r :: m))) with (@None (list R)).
  rewrite (mapO_map vsoftmax vec (fun xs => vec (softmax_vec xs)))
    by (intros; apply vsoftmax_vec).
  simpl. rewrite map_map. reflexivity.
Qed.

Lemma length_softmax_vec xs : length (softmax_vec xs) = length xs.
Proof. apply length_map. Qed.

Lemma Rsum_map_exp_pos xs : xs <> [] -> (0 < Rsum (map exp xs))%R.
Proof.
  destruct xs as [| x xs]; [congruence |]. intros _. simpl.
  assert (H : (0 <= Rsum (map exp xs))%R).
  { induction xs as [| y ys IH]; simpl; [lra |].
    pose proof (exp_pos y). lra. }
  pose proof (exp_pos x). lra.
Qed.

Lemma Rsum_map_div (c : R) l :
  Rsum (map (fun x => (x / c)%R) l) = (Rsum l / c)%R.
Proof.
  induction l as [| x l IH]; simpl.
  - unfold Rdiv. rewrite Rmult_0_l. reflexivity.
  - rewrite IH. unfold Rdiv. ring.
Qed.

(** Softmax weights sum to one. *)
Lemma softmax_vec_sum xs : xs <> [] -> Rsum (softmax_vec xs) = 1%R.
Proof.
  intros N. unfold softmax_vec.
  rewrite <- (map_map exp (fun y => (y / Rsum (map exp xs))%R)).
  rewrite Rsum_map_div. apply Rsum_map_exp_pos in N. field. lra.
Qed.

Lemma softmax_vec_pos xs x : In x (softmax_vec xs) -> (0 < x)%R.
Proof.
  unfold softmax_vec. intros I. apply in_map_iff in I.
  destruct I as (y & <- & I).
  assert (N : xs <> []) by (intros ->; contradiction).
  apply Rsum_map_exp_pos in N. apply Rdiv_lt_0_compat; [apply exp_pos | lra].
Qed.

Lemma vconcat_0 vs :
  vconcat 0 vs = option_map (fun ls => VA (List.concat ls)) (mapO as_array vs).
Proof. simpl. destruct (mapO as_array vs); reflexivity. Qed.

Lemma vconcat_S n vs :
  vconcat (S n) vs
  = match mapO as_array vs with
    | None => None
    | Some ls =>
        match ls with
        | [] => None
        | l0 :: _ =>
            if forallb (fun l => Nat.eqb (length l) (length l0)) ls then
              option_map VA
                (mapO (fun i => vconcat n (map (fun l => nth i l (VI 0)) ls))
                      (seq 0 (length l0)))
            else None
        end
    end.
Proof. reflexivity. Qed.

Lemma concat_map_singleton {A B} (f : A -> B) l :
  List.concat (map (fun a => [f a]) l) = map f l.
Proof.
  induction l as [| a l IH]; simpl; [reflexivity |]. rewrite IH. reflexivity.
Qed.

Lemma nth_map_lt {A B} (f : A -> B) l i d d' :
  (i < length l)%nat -> nth i (map f l) d = f (nth i l d').
Proof.
  intros H. rewrite (nth_indep _ d (f d')) by (rewrite length_map; exact H).
  apply map_nth.
Qed.

(** Expanding the middle axis of a batch of rows. *)
Lemma expand_dims_1_mat m :
  expand_dims_axis 1 (mat m) = Some (VA (map (fun row => VA [vec row]) m)).
Proof.
  unfold mat. simpl.
  rewrite (mapO_map (expand_dims_axis 0) vec (fun row => VA [vec row]));
    reflexivity.
Qed.

(** Expanding the last axis of a batch of rows. *)
Lemma expand_dims_2_mat m :
  expand_dims_axis 2 (mat m)
  = Some (VA (map (fun w => VA (map (fun x => VA [VR x]) w)) m)).
Proof.
  unfold mat. simpl.
  rewrite (mapO_map (expand_dims_axis 1) vec
             (fun w => VA (map (fun x => VA [VR x]) w))); [reflexivity |].
  intros w _. unfold vec. simpl.
  rewrite (mapO_map (expand_dims_axis 0) VR (fun x => VA [VR x]));
    reflexivity.
Qed.

Lemma vconcat_S_cons n vs l0 ls :
  mapO as_array vs = Some (l0 :: ls) ->
  forallb (fun l => Nat.eqb (length l) (length l0)) (l0 :: ls) = true ->
  vconcat (S n) vs
  = option_map VA
      (mapO (fun i => vconcat n (map (fun l => nth i l (VI 0)) (l0 :: ls)))
            (seq 0 (length l0))).
Proof. intros E F. rewrite vconcat_S, E, F. reflexivity. Qed.

(** The attention states: the encoder states stacked along a new middle
    axis, one memory per example. *)
Lemma vconcat_memory Es B :
  Es <> [] -> Forall (fun E => length E = B) Es ->
  vconcat 1 (map (fun E => VA (map (fun row => VA [vec row]) E)) Es)
  = Some (VA (map (fun b => mat (memory_of Es b)) (seq 0 B))).
Proof.
  intros NE HB.
  pose (G := fun E : list (list R) => map (fun row => VA [vec row]) E).
  assert (M : mapO as_array
                (map (fun E => VA (map (fun row => VA [vec row]) E)) Es)
              = Some (map G Es)).
  { apply mapO_map. reflexivity. }
  destruct Es as [| E0 Es']; [congruence |].
  assert (L0 : length E0 = B) by (inversion HB; assumption).
  rewrite (vconcat_S_cons 0 _ (G E0) (map G Es') M).
  - change (G E0 :: map G Es') with (map G (E0 :: Es')).
    unfold G at 2. rewrite length_map, L0.
    rewrite (mapO_some _ (fun b => mat (memory_of (E0 :: Es') b)));
      [reflexivity |].
    intros b I. apply in_seq in I. rewrite vconcat_0, map_map.
    rewrite (mapO_map as_array _ (fun E => [vec (nth b E [])])).
    + simpl option_map. rewrite concat_map_singleton. unfold mat, memory_of.
      rewrite map_map. reflexivity.
    + intros E IE. rewrite Forall_forall in HB. unfold G.
      rewrite (nth_map_lt _ _ _ _ []) by (rewrite (HB E IE); lia).
      reflexivity.
  - change (G E0 :: map G Es') with (map G (E0 :: Es')).
    apply forallb_forall. intros l I.
    apply in_map_iff in I. destruct I as (E & <- & I).
    unfold G. rewrite !length_map. rewrite Forall_forall in HB.
    rewrite (HB E I), L0. apply Nat.eqb_refl.
Qed.

Arguments vec : simpl never.
Arguments mat : simpl never.

Lemma in_zip {A B} (a : A) (b : B) la lb :
  In (a, b) (zip la lb) -> In a la /\ In b lb.
Proof.
  revert lb. induction la as [| x la IH]; intros [| y lb] H; simpl in H;
    try contradiction.
  destruct H as [E | H].
  - inversion E; subst. split; left; reflexivity.
  - apply IH in H. destruct H. split; right; assumption.
Qed.

Lemma zip_map_r {A B C} (h : B -> C) (la : list A) lb :
  zip la (map h lb) = map (fun p => (fst p, h (snd p))) (zip la lb).
Proof.
  revert lb. induction la as [| a la IH]; intros [| b lb]; simpl;
    try reflexivity.
  rewrite IH. reflexivity.
Qed.

Lemma map2_map_r {A B C D} (k : A -> C -> D) (h : B -> C) la lb :
  map2 k la (map h lb) = map2 (fun a b => k a (h b)) la lb.
Proof. unfold map2. rewrite zip_map_r, map_map. reflexivity. Qed.

Lemma map_map2 {A B C D} (g : C -> D) (k : A -> B -> C) la lb :
  map g (map2 k la lb) = map2 (fun a b => g (k a b)) la lb.
Proof. unfold map2. rewrite map_map. reflexivity. Qed.

Lemma length_zip {A B} (la : list A) (lb : list B) :
  length la = length lb -> length (zip la lb) = length la.
Proof.
  revert lb. induction la as [| a la IH]; intros [| b lb] H; simpl in *;
    try congruence.
  rewrite IH; congruence.
Qed.

Lemma bop_same_vec_scalar f m x :
  bop_same f (vec m) (VA [VR x]) = Some (vec (map (fun y => f y x) m)).
Proof.
  unfold vec. rewrite bop_same_VA, length_map. simpl length.
  destruct (Nat.eqb_spec (length m) 1) as [E | N].
  - destruct m as [| y [| y' m]]; try discriminate. reflexivity.
  - rewrite (mapO_map _ VR (fun y => VR (f y x))) by reflexivity.
    simpl. rewrite map_map. reflexivity.
Qed.

Lemma bop_same_vec_vec f r1 r2 :
  length r1 = length r2 ->
  bop_same f (vec r1) (vec r2) = Some (vec (map2 f r1 r2)).
Proof.
  intros L. unfold vec. rewrite bop_same_VA, !length_map, L, Nat.eqb_refl.
  rewrite (zipO_map (bop_same f) VR VR (fun a b => VR (f a b)))
    by reflexivity.
  simpl. rewrite map_map2. reflexivity.
Qed.

Lemma length_vadd r1 r2 :
  length r1 = length r2 -> length (vadd r1 r2) = length r1.
Proof.
  intros L. unfold vadd, map2. rewrite length_map. apply length_zip. exact L.
Qed.

(** Summing rows of one length along the sequence axis. *)
Lemma vsum_vecs D rows :
  rows <> [] -> Forall (fun r => length r = D) rows ->
  vsum (map vec rows) = Some (vec (sum_rows rows)).
Proof.
  destruct rows as [| r rs]; [congruence |]. intros _ H.
  apply Forall_cons_iff in H. destruct H as [Lr Hrs]. cbn [map vsum sum_rows].
  revert r Lr. induction Hrs as [| r2 rs L2 _ IH]; intros r Lr;
    cbn [map fold_left].
  - reflexivity.
  - rewrite bop_same_vec_vec by congruence.
    apply IH. rewrite length_vadd; congruence.
Qed.

Lemma rank_VA l :
  rank (VA l) = S match l with
                  | x :: _ => rank x
                  | [] => 0
                  end.
Proof. unfold rank. simpl. destruct l; reflexivity. Qed.

Lemma rank_vec r : rank (vec r) = 1%nat.
Proof. unfold vec. rewrite rank_VA. destruct r; reflexivity. Qed.

Lemma rank_mat_cons r m : rank (mat (r :: m)) = 2%nat.
Proof. unfold mat. cbn [map]. rewrite rank_VA, rank_vec. reflexivity. Qed.

(** The meaning of the feedback expression: per example, the memory
    rows weighted by the softmax of that example's logits and summed
    over the sequence. *)
Lemma attend_value Es (L : list (list R)) B D :
  Es <> [] ->
  Forall (fun E => length E = B) Es ->
  Forall (Forall (fun row => length row = D)) Es ->
  length L = B ->
  Forall (fun row => length row = length Es) L ->
  match bop Rmult
          (VA (map (fun b => mat (memory_of Es b)) (seq 0 B)))
          (VA (map (fun w => VA (map (fun x => VA [VR x]) w))
                   (map softmax_vec L))) with
  | Some p => reduce_sum_axis 1 p
  | None => None
  end
  = Some (mat (map2 (fun b row => attend (softmax_vec row) (memory_of Es b))
                    (seq 0 B) L)).
Proof.
  intros NE HB HD HL HT.
  assert (HM : forall b, length (memory_of Es b) = length Es).
  { intros b. unfold memory_of. apply length_map. }
  assert (HMD : forall b m, In m (memory_of Es b) -> (b < B)%nat ->
                            length m = D).
  { intros b m I Hb. unfold memory_of in I. apply in_map_iff in I.
    destruct I as (E & <- & I). rewrite Forall_forall in HB, HD.
    specialize (HD E I). rewrite Forall_forall in HD. apply HD.
    apply nth_In. rewrite (HB E I). exact Hb. }
  rewrite bop_same_rank.
  2:{ rewrite !rank_VA. f_equal. destruct L as [| row L'].
      - simpl in HL. subst B. reflexivity.
      - simpl in HL. subst B. cbn [seq map].
        apply Forall_cons_iff in HT. destruct HT as [Lrow _].
        destruct Es as [| E0 Es']; [congruence |].
        unfold memory_of. cbn [map]. rewrite rank_mat_cons.
        destruct (softmax_vec row) as [| x w] eqn:W.
        + apply (f_equal (@length R)) in W.
          rewrite length_softmax_vec, Lrow in W. discriminate.
        + reflexivity. }
  rewrite bop_same_VA, !length_map, length_seq, HL, Nat.eqb_refl.
  rewrite (zipO_map (bop_same Rmult) _ _
             (fun b w =>
                mat (map2 (fun m x => map (fun y => (y * x)%R) m)
                          (memory_of Es b) w))).
  - simpl option_map. cbv beta. unfold reduce_sum_axis at 1.
    fold (reduce_sum_axis 0).
    rewrite map2_map_r. unfold map2 at 1.
    rewrite (mapO_map (reduce_sum_axis 0) _
               (fun p => vec (attend (softmax_vec (snd p))
                                     (memory_of Es (fst p))))).
    + simpl option_map. unfold mat, map2. rewrite map_map. reflexivity.
    + intros [b row] I. apply in_zip in I. destruct I as [Ib Irow].
      apply in_seq in Ib. simpl fst. simpl snd.
      unfold mat. cbn [reduce_sum_axis].
      rewrite Forall_forall in HT. specialize (HT row Irow).
      apply (vsum_vecs D).
      * destruct Es as [| E0 Es']; [congruence |].
        destruct (softmax_vec row) as [| x w] eqn:W.
        -- apply (f_equal (@length R)) in W.
           rewrite length_softmax_vec, HT in W. discriminate.
        -- unfold memory_of. discriminate.
      * apply Forall_forall. intros r Ir. unfold map2 in Ir.
        apply in_map_iff in Ir. destruct Ir as ([m x] & <- & Ir).
        apply in_zip in Ir. destruct Ir as [Im _]. simpl.
        rewrite length_map. apply (HMD b m Im). lia.
  - intros b w Ib Iw. unfold mat.
    apply in_map_iff in Iw. destruct Iw as (row & <- & Irow).
    rewrite Forall_forall in HT. specialize (HT row Irow).
    rewrite bop_same_VA, !length_map, HM, length_softmax_vec, HT,
      Nat.eqb_refl.
    rewrite (zipO_map (bop_same Rmult) vec (fun x => VA [VR x])
               (fun m x => vec (map (fun y => (y * x)%R) m)))
      by (intros; apply bop_same_vec_scalar).
    simpl. rewrite map_map2. reflexivity.
Qed.

Lemma loop_fn_run attn output_t t g :
  PointerNetDPG.loop_fn attn output_t t g
  = (inr (attend_expr attn output_t), g).
Proof. reflexivity. Qed.

Lemma PointerNetDPG_loop_function_inr self g lf g' :
  PointerNetDPG._loop_function self g = (inr lf, g') ->
  exists encoder_states,
    attr self "encoder_states" = Some (PL encoder_states) /\
    g' = g /\ lf = PointerNetDPG.loop_fn (attn_of encoder_states).
Proof.
  unfold PointerNetDPG._loop_function. intros H.
  mstep H as K es g1. mget K. mret H. exists es. auto.
Qed.

(** In the decoder every input after the first is the feedback function
    applied to the output of the step before. *)
Lemma ptr_steps_inputs cell attn dec_inps :
  forall i prev state g outs states ins g',
    pointer_network.ptr_net_decoder_steps
      cell attn (PointerNetDPG.loop_fn attn) i prev state dec_inps g
    = (inr (outs, states, ins), g') ->
    length ins = length dec_inps /\
    (forall x, nth_error ins 0 = Some x ->
               match prev with
               | Some p => x = attend_expr attn p
               | None => nth_error dec_inps 0 = Some x
               end) /\
    (forall t x, nth_error ins (S t) = Some x ->
                 exists o, nth_error outs t = Some o /\
                           x = attend_expr attn o).
Proof.
  induction dec_inps as [| inp rest IH];
    intros i prev state g outs states ins g' H; simpl in H.
  - apply ret_inr in H. destruct H as [E _]. inversion E; subst.
    repeat split.
    + intros x E'. discriminate.
    + intros t x E'. discriminate.
  - mstep H as K1 u g1. mstep H as K2 inp' g2.
    mstep H as K3 os g3. destruct os as [cell_output new_state].
    mstep H as K4 v g4. mstep H as K5 r g5.
    destruct r as [[outs' states'] ins'].
    apply ret_inr in H. destruct H as [E _]. inversion E; subst; clear E.
    apply IH in K5. destruct K5 as (L & F & N).
    split; [simpl; congruence |]. split.
    + intros x E. simpl in E. inversion E; subst x; clear E.
      destruct prev as [p |].
      * rewrite loop_fn_run in K2. inversion K2. reflexivity.
      * mret K2. reflexivity.
    + intros [| t] x E; simpl in E.
      * apply F in E. exists (Op OAttention [attn; cell_output; v]).
        split; [reflexivity | exact E].
      * apply N in E. exact E.
Qed.

Lemma eval_expanded_states e states Es :
  Forall2 (fun s E => eval e s = Some (mat E)) states Es ->
  mapO (eval e) (map (fun s => tf.expand_dims s 1) states)
  = Some (map (fun E => VA (map (fun row => VA [vec row]) E)) Es).
Proof.
  induction 1 as [| s E states Es Hs _ IH]; [reflexivity |].
  cbn [map mapO]. rewrite IH. unfold tf.expand_dims.
  rewrite eval_Op1, Hs.
  change (eval_op e (OExpandDims 1) [mat E]) with (expand_dims_axis 1 (mat E)).
  rewrite expand_dims_1_mat. reflexivity.
Qed.

(** The value of the feedback expression. *)
Lemma eval_attend_expr e states Es output_t L B D :
  Forall2 (fun s E => eval e s = Some (mat E)) states Es ->
  Es <> [] ->
  Forall (fun E => length E = B) Es ->
  Forall (Forall (fun row => length row = D)) Es ->
  eval e output_t = Some (mat L) ->
  length L = B ->
  Forall (fun row => length row = length Es) L ->
  eval e (attend_expr (attn_of states) output_t)
  = Some (mat (map2 (fun b row => attend (softmax_vec row) (memory_of Es b))
                    (seq 0 B) L)).
Proof.
  intros HS NE HB HD HO HL HT.
  unfold attend_expr, attn_of, tf.reduce_sum, tf.mul, tf.softmax, tf.concat.
  rewrite eval_Op1, eval_Op2.
  rewrite (eval_Op e (OConcat 1)), (eval_expanded_states e states Es HS).
  change (eval_op e (OConcat 1) ?vs) with (vconcat 1 vs).
  rewrite (vconcat_memory Es B NE HB).
  unfold tf.expand_dims. rewrite !eval_Op1, HO.
  change (eval_op e OSoftmax [mat L]) with (vsoftmax (mat L)).
  rewrite vsoftmax_mat.
  change (eval_op e (OExpandDims 2) [?v]) with (expand_dims_axis 2 v).
  rewrite expand_dims_2_mat.
  change (eval_op e OMul [?a; ?b]) with (bop Rmult a b).
  pose proof (attend_value Es L B D NE HB HD HL HT) as AV.
  destruct (bop Rmult _ _) as [p |]; [| discriminate].
  exact AV.
Qed.

Lemma ptr_net_decoder_inputs dec_inp last attn cell scope g a_raw dec_states
    dec_inputs g' :
  pointer_network.ptr_net_decoder dec_inp last attn cell
    (PointerNetDPG.loop_fn attn) scope g
  = (inr (a_raw, dec_states, dec_inputs), g') ->
  length dec_inputs = length dec_inp /\
  forall t x, nth_error dec_inputs (S t) = Some x ->
              exists o, nth_error a_raw t = Some o /\ x = attend_expr attn o.
Proof.
  unfold pointer_network.ptr_net_decoder. intros H.
  apply variable_scope_inr in H. destruct H as (g1 & H & _).
  mstep H as K r g2. destruct r as [[outs states] ins].
  apply ret_inr in H. destruct H as [E _]. inversion E; subst; clear E.
  apply ptr_steps_inputs in K. destruct K as (L & _ & N). auto.
Qed.



(* ------------------------------------------------------------------ *)
(** ** Which placeholders feed a tensor *)

Lemma mentions_Op u o args :
  mentions u (Op o args) = existsb (mentions u) args.
Proof.
  simpl. induction args as [| a l IH]; [reflexivity |].
  simpl. rewrite IH. reflexivity.
Qed.

Lemma clean_Op u o args : Forall (clean u) args -> clean u (Op o args).
Proof.
  intros H. unfold clean. rewrite mentions_Op.
  induction H as [| a l Ha _ IH]; [reflexivity |].
  simpl. rewrite Ha, IH. reflexivity.
Qed.

Lemma clean_VarRef u n : clean u (VarRef n).
Proof. reflexivity. Qed.

Lemma clean_IntConst u z : clean u (IntConst z).
Proof. reflexivity. Qed.

Lemma clean_Const u q s : clean u (Const q s).
Proof. reflexivity. Qed.

(** Closes [clean u t] for an expression [t] built from clean parts. *)
Ltac cl :=
  unfold tf.add, tf.sub, tf.mul, tf.div, tf.neg, tf.square, tf.tanh,
    tf.sigmoid, tf.squeeze, tf.stop_gradient, tf.matmul, tf.reduce_mean,
    tf.reduce_sum, tf.concat, tf.pack, tf.expand_dims, tf.shape, tf.getitem,
    tf.zeros, tf.softmax in *;
  repeat first
    [ assumption
    | apply clean_VarRef | apply clean_IntConst | apply clean_Const
    | apply clean_Op
    | apply Forall_cons
    | apply Forall_nil ].

Lemma clean_mlp_net u sc hidden b : forall x i,
  clean u x -> clean u (mlp_net sc x i hidden b).
Proof.
  induction hidden as [| h hidden IH]; intros x i H; simpl.
  - destruct b; cl.
  - apply IH. cl.
Qed.

Lemma clean_critic_net u sc sp inp a :
  clean u inp -> clean u a -> clean u (critic_net sc sp inp a).
Proof.
  intros Hi Ha. unfold critic_net.
  assert (clean u (mlp_net sc (tf.concat 1 [inp; a]) 0 (critic_dims sp) true)).
  { apply clean_mlp_net. cl. }
  cl.
Qed.

Lemma clean_policy_net u sc sp inp :
  clean u inp -> clean u (policy_net sc sp inp).
Proof. intros H. unfold policy_net. apply clean_mlp_net. exact H. Qed.

Lemma clean_map2_critic u sc sp states actions :
  Forall (clean u) states -> Forall (clean u) actions ->
  Forall (clean u) (map2 (critic_net sc sp) states actions).
Proof.
  intros Hs. revert actions.
  induction Hs as [| s states Hs1 _ IH]; intros actions Ha.
  - constructor.
  - destruct Ha as [| a actions Ha1 Ha]; [constructor |].
    unfold map2. simpl. constructor.
    + apply clean_critic_net; assumption.
    + apply IH. exact Ha.
Qed.

Lemma clean_val_PL u l : clean_val u (PL l) <-> Forall (clean u) l.
Proof.
  unfold clean_val, clean. simpl. split.
  - intros H. apply Forall_forall. intros x I.
    destruct (mentions u x) eqn:E; [| reflexivity].
    assert (existsb (mentions u) l = true)
      by (apply existsb_exists; eauto).
    congruence.
  - intros H. induction H as [| x l Hx _ IH]; [reflexivity |].
    simpl. rewrite Hx, IH. reflexivity.
Qed.

Lemma linear_clean u args out bias bs g t g' :
  rnn_cell.linear args out bias bs g = (inr t, g') ->
  Forall (clean u) args -> clean u t.
Proof.
  unfold rnn_cell.linear. intros H Ha.
  apply variable_scope_inr in H. destruct H as (g1 & H & _).
  mstep H as K m g2. apply get_variable_inr in K. destruct K as (-> & _).
  assert (C : clean u match args with
                      | [a] => tf.matmul a (VarRef
                                 (tf.join_scope
                                    (vs_name (g_scope
                                       (tf.set_scope
                                          (tf.sub_scope (g_scope g) "Linear"
                                                        None None) g)))
                                    "Matrix"))
                      | _ => tf.matmul (tf.concat 1 args)
                               (VarRef
                                 (tf.join_scope
                                    (vs_name (g_scope
                                       (tf.set_scope
                                          (tf.sub_scope (g_scope g) "Linear"
                                                        None None) g)))
                                    "Matrix"))
                      end).
  { destruct args as [| a [| a' args']].
    - cl.
    - inversion Ha; subst. cl.
    - assert (clean u (tf.concat 1 (a :: a' :: args')))
        by (apply clean_Op; exact Ha).
      cl. }
  destruct bias.
  - mstep H as K2 b g3. apply get_variable_inr in K2.
    destruct K2 as (-> & _). mret H. cl.
  - mret H. exact C.
Qed.

Lemma GRUCell_clean u n : cell_clean u (rnn_cell.GRUCell n).
Proof.
  intros inputs state scope g o s g' H Hi Hs. simpl in H.
  unfold rnn_cell.GRUCell_call in H.
  apply variable_scope_inr in H. destruct H as (g1 & H & _).
  mstep H as K1 ru g2. apply variable_scope_inr in K1.
  destruct K1 as (g2' & K1 & _).
  apply (linear_clean u) in K1; [| cl].
  mstep H as K2 c g3. apply variable_scope_inr in K2.
  destruct K2 as (g3' & K2 & _).
  mstep K2 as K2a lin g4.
  apply (linear_clean u) in K2a.
  2:{ cl. }
  mret K2.
  apply ret_inr in H. destruct H as [E _]. inversion E; subst; clear E.
  assert (clean u
            (tf.add (tf.mul (tf.sigmoid (Op (OSplit 1 2 1) [ru])) state)
                    (tf.mul (tf.sub (Const 1 [])
                                    (tf.sigmoid (Op (OSplit 1 2 1) [ru])))
                            (tf.tanh lin)))).
  { cl. }
  split; assumption.
Qed.

Lemma PolicyRNNCell_clean u cell self :
  cell_clean u cell -> cell_clean u (RecurrentDPG.PolicyRNNCell cell self).
Proof.
  intros Hc inputs state scope g o s g' H Hi Hs. simpl in H.
  unfold RecurrentDPG.PolicyRNNCell_call in H.
  mstep H as K1 os g1. destruct os as [output res_state].
  destruct (Hc _ _ _ _ _ _ _ K1 Hi Hs) as [Co Cs].
  mstep H as K2 actions g2. apply variable_scope_inr in K2.
  destruct K2 as (g2' & K2 & _). apply policy_model_inr in K2.
  destruct K2 as (-> & _).
  apply ret_inr in H. destruct H as [E _]. inversion E; subst; clear E.
  split; [apply clean_policy_net; exact Co | exact Cs].
Qed.

Lemma rnn_decoder_steps_clean u cell lf decoder_inputs :
  cell_clean u cell -> loop_clean u lf ->
  forall i prev state g outs states g',
    seq2seq.rnn_decoder_steps cell (Some lf) i prev state decoder_inputs g
    = (inr (outs, states), g') ->
    Forall (clean u) decoder_inputs ->
    (forall p, prev = Some p -> clean u p) ->
    clean u state ->
    Forall (clean u) outs /\ Forall (clean u) states.
Proof.
  intros Hc Hl.
  induction decoder_inputs as [| inp rest IH];
    intros i prev state g outs states g' H Hin Hp Hs; simpl in H.
  - apply ret_inr in H. destruct H as [E _]. inversion E; subst.
    split; constructor.
  - apply Forall_cons_iff in Hin. destruct Hin as [Hinp Hrest].
    mstep H as K1 inp' g1.
    assert (Ci : clean u inp').
    { destruct prev as [p |].
      - apply variable_scope_inr in K1. destruct K1 as (g1' & K1 & _).
        mstep K1 as K1a x g1''. mret K1.
        pose proof (Hl _ _ _ _ _ K1a (Hp p eq_refl)) as Cx. cl.
      - mret K1. exact Hinp. }
    mstep H as K2 u0 g2. mstep H as K3 os g3.
    destruct os as [output new_state].
    destruct (Hc _ _ _ _ _ _ _ K3 Ci Hs) as [Co Cs].
    mstep H as K4 r g4. destruct r as [outs' states'].
    apply ret_inr in H. destruct H as [E _]. inversion E; subst; clear E.
    apply IH in K4; try assumption.
    + destruct K4 as [A1 A2]. split; constructor; assumption.
    + intros p E. inversion E; subst. cl.
Qed.

Lemma rnn_decoder_clean u cell lf decoder_inputs init g outs states g' :
  seq2seq.rnn_decoder decoder_inputs init cell (Some lf) g
  = (inr (outs, states), g') ->
  cell_clean u cell -> loop_clean u lf ->
  Forall (clean u) decoder_inputs -> clean u init ->
  Forall (clean u) outs /\ Forall (clean u) states.
Proof.
  unfold seq2seq.rnn_decoder. intros H Hc Hl Hin Hi.
  apply variable_scope_inr in H. destruct H as (g1 & H & _).
  mstep H as K r g2. destruct r as [outs' states'].
  apply ret_inr in H. destruct H as [E _]. inversion E; subst; clear E.
  eapply rnn_decoder_steps_clean in K; try eassumption.
  - destruct K as [A1 A2]. split; [exact A1 | constructor; assumption].
  - intros p E. discriminate.
Qed.

Lemma noise_gaussian_clean u stddev :
  noiser_clean u (fun inp actions => noise_gaussian inp actions stddev).
Proof.
  intros inp a g r g' H _ Ha. destruct a as [t | l]; simpl in H.
  - unfold bind in H. rewrite noise_gaussian_tensor_run in H. mret H.
    unfold clean_val in *. simpl in *. change (clean u t) in Ha.
    change (clean u (tf.add t (Op (ORandomNormal (g_uid g) 0 stddev)
                                  [tf.shape t]))).
    cl.
  - destruct (noise_list_run stddev l g) as (ns & g1 & E & F & _).
    unfold bind in H. rewrite E in H. mret H.
    apply clean_val_PL. apply clean_val_PL in Ha.
    clear E. induction F as [| a n l ns (u0 & ->) _ IH]; [constructor |].
    apply Forall_cons_iff in Ha. destruct Ha as [Ha1 Ha2].
    constructor; [cl | apply IH; exact Ha2].
Qed.

Lemma clean_tl u (l : list tensor) : Forall (clean u) l -> Forall (clean u) (tl l).
Proof. intros H. destruct H; [constructor | assumption]. Qed.

Lemma clean_handles u vars : Forall (clean u) (map handle vars).
Proof.
  induction vars as [| v vars IH]; constructor; [reflexivity | exact IH].
Qed.

(** Stepping through the assignments of an instance. *)
Lemma attr_chain_clean u s k0 v0 (P : string -> Prop) :
  clean_val u v0 ->
  (forall k v, attr s k = Some v -> P k -> clean_val u v) ->
  forall k v, attr (setattr s k0 v0) k = Some v -> P k -> clean_val u v.
Proof.
  intros H0 Hs k v E Pk. rewrite attr_setattr in E.
  destruct (String.eqb k0 k).
  - inversion E; subst. exact H0.
  - eapply Hs; eassumption.
Qed.

Lemma attr_chain_skip u s k0 v0 :
  (forall k v, attr s k = Some v -> k <> k0 -> clean_val u v) ->
  forall k v, attr (setattr s k0 v0) k = Some v -> k <> k0 -> clean_val u v.
Proof.
  intros Hs k v E N. rewrite attr_setattr in E.
  destruct (String.eqb_spec k0 k); [congruence |]. eapply Hs; eassumption.
Qed.

Lemma lookup_bind_opt k' x k :
  lookup_attr (bind_opt k' x) k
  = match x with
    | Some v => if String.eqb k' k then Some v else None
    | None => None
    end.
Proof. destruct x; reflexivity. Qed.

Lemma init_self_attr_in s mdp sp inputs q_targets tau nz nm k v :
  attrs s = [] ->
  attr (init_self s mdp sp inputs q_targets tau nz nm) k = Some v ->
  In (Some v) [inputs; q_targets; tau].
Proof.
  intros E H. unfold attr, init_self in H. cbn [attrs] in H. rewrite E in H.
  rewrite !lookup_attr_app, !lookup_bind_opt in H. cbn [lookup_attr] in H.
  simpl In.
  destruct tau as [t |]; [destruct (String.eqb "tau" k) |];
    try (inversion H; subst; auto; fail);
    (destruct q_targets as [q |]; [destruct (String.eqb "q_targets" k) |];
     try (inversion H; subst; auto; fail);
     (destruct inputs as [i |]; [destruct (String.eqb "inputs" k) |];
      inversion H; subst; auto)).
Qed.

Lemma clean_val_PT u t : clean u t -> clean_val u (PT t).
Proof. intros H. exact H. Qed.

Lemma handle_name v1 v2 : handle v1 = handle v2 -> var_name v1 = var_name v2.
Proof. unfold handle, var_name. intros E. inversion E. reflexivity. Qed.

Lemma in_handles f vars h :
  In h (map handle (filter f vars)) <->
  exists var, In var vars /\ h = handle var /\ f var = true.
Proof.
  rewrite in_map_iff. split.
  - intros (v & <- & I). apply filter_In in I. destruct I. eauto.
  - intros (v & I & -> & F). exists v. split; [reflexivity |].
    apply filter_In. auto.
Qed.

Lemma split_by_name_filter (pol : variable -> bool) vars bn :
  (forall v1 v2, var_name v1 = var_name v2 -> pol v1 = pol v2) ->
  split_by_name pol vars bn
    (map handle (filter pol vars) ++ bn)%list
    (map handle (filter critic_scoped vars) ++ bn)%list.
Proof.
  intros Hpol. unfold split_by_name. repeat apply conj.
  - intros v I P. apply in_or_app. left. apply in_handles. eauto.
  - intros v I P. apply in_or_app. left. apply in_handles. eauto.
  - intros h I. apply in_app_or in I. destruct I as [I | I]; [| auto].
    right. apply in_handles. exact I.
  - intros h I. apply in_app_or in I. destruct I as [I | I]; [| auto].
    right. apply in_handles. exact I.
  - intros h I. split; apply in_or_app; auto.
  - intros h I1 I2. apply in_app_or in I1. apply in_app_or in I2.
    destruct I1 as [I1 | I1]; [| auto]. destruct I2 as [I2 | I2]; [| auto].
    right. apply in_handles in I1. apply in_handles in I2.
    destruct I1 as (v1 & J1 & -> & P1). destruct I2 as (v2 & J2 & E & P2).
    exists v1. repeat split; try assumption.
    unfold critic_scoped in *. rewrite (handle_name _ _ E). exact P2.
Qed.

Lemma split_by_name_disjoint pol vars pp cp :
  split_by_name pol vars [] pp cp ->
  no_clash pol vars = true ->
  disjoint pp cp.
Proof.
  intros (_ & _ & _ & _ & _ & C) N h I1 I2.
  destruct (C h I1 I2) as [[] | (v & I & _ & P & Q)].
  unfold no_clash in N. rewrite forallb_forall in N. specialize (N v I).
  rewrite P, Q in N. discriminate.
Qed.

Lemma policy_scoped_name v1 v2 :
  var_name v1 = var_name v2 -> policy_scoped v1 = policy_scoped v2.
Proof. unfold policy_scoped. intros ->. reflexivity. Qed.

Lemma encoder_decoder_scoped_name v1 v2 :
  var_name v1 = var_name v2 ->
  encoder_decoder_scoped v1 = encoder_decoder_scoped v2.
Proof. unfold encoder_decoder_scoped. intros ->. reflexivity. Qed.

(** The parameter lists of a constructed base instance. *)
Lemma DPG_params mdp sp inputs q_targets tau nz nm g self g' :
  DPG.new mdp sp inputs q_targets tau nz nm g = (inr self, g') ->
  attr self "policy_params"
    = Some (PL (map handle (filter policy_scoped (g_vars g')))) /\
  attr self "critic_params"
    = Some (PL (map handle (filter critic_scoped (g_vars g')))).
Proof.
  intros H. apply DPG_new_inr in H.
  destruct H as (s2 & g2 & s3 & g3 & s4 & g4 & _ & _ & K3 & K4 & ->).
  apply make_objectives_inr in K3.
  destruct K3 as (c1 & c2 & q & _ & _ & _ & -> & ->).
  apply DPG_make_updates_inr in K4. destruct K4 as (_ & pu & cu & ->).
  attrs. auto.
Qed.

(** The parameter lists of a constructed recurrent instance. *)
Lemma RecurrentDPG_params ov mdp sp input_dim vocab_size seq_length
    inputs q_targets tau nz nm g self g' :
  RecurrentDPG.__init__ ov mdp sp input_dim vocab_size seq_length inputs
                        q_targets tau nz nm g = (inr self, g') ->
  attr self "policy_params"
    = Some (PL (map handle (filter policy_scoped (g_vars g')))) /\
  attr self "critic_params"
    = Some (PL (map handle (filter critic_scoped (g_vars g')))).
Proof.
  intros H. apply RecurrentDPG_init_inr in H.
  destruct H as (s2 & g2 & s3 & g3 & _ & _ & K3 & ->).
  apply make_objectives_inr in K3.
  destruct K3 as (c1 & c2 & q & _ & _ & _ & _ & ->).
  attrs. auto.
Qed.

(** The parameter lists of a constructed pointer-network instance. *)
Lemma PointerNetDPG_params mdp sp input_dim seq_length bn inputs
    q_targets tau nz nm g self g' :
  PointerNetDPG.__init__ mdp sp input_dim seq_length bn inputs q_targets
                         tau nz nm g = (inr self, g') ->
  exists bn_params,
    (if bn
     then exists beta gamma,
            attr self "bn_beta" = Some (PT beta) /\
            attr self "bn_gamma" = Some (PT gamma) /\
            bn_params = [beta; gamma]
     else bn_params = []) /\
    attr self "policy_params"
      = Some (PL (map handle (filter encoder_decoder_scoped (g_vars g'))
                  ++ bn_params)%list) /\
    attr self "critic_params"
      = Some (PL (map handle (filter critic_scoped (g_vars g'))
                  ++ bn_params)%list).
Proof.
  intros H. apply PointerNetDPG_init_inr in H.
  destruct H as (d0 & s1 & g1 & s2 & g2 & s3 & g3 & g4 & _ & _ & K1 & K2 & K3
                 & K4 & ->).
  apply PointerNetDPG_make_objectives_inr in K4. simpl in K4.
  destruct K4 as (F & B0 & B1 & V & _).
  apply PointerNetDPG_make_graph_inr in K3.
  destruct K3 as (d0' & i & outs & es & g1' & last & araw & dst & din & g2'
                  & ap & ae & g3' & _ & _ & _ & _ & _ & _ & _ & _ & K3).
  simpl in K3.
  destruct K3 as (_ & _ & _ & _ & _ & _ & _ & _ & _ & _ & BN3 & _).
  apply PointerNetDPG_make_inputs_inr in K2.
  destruct K2 as (_ & BN2 & _).
  assert (BN1 : bn_actions s1 = bn).
  { apply PointerNetDPG_make_params_inr in K1.
    destruct K1 as [(_ & -> & _) | (_ & b & c & vb & vg & -> & _)];
      reflexivity. }
  assert (BN : bn_actions s3 = bn) by congruence.
  simpl g_vars. rewrite V.
  assert (N : forall k, In k ["bn_beta"; "bn_gamma"] ->
                        ~ In k objective_keys).
  { intros k Hk Ho. simpl in Hk, Ho.
    repeat (destruct Hk as [<- | Hk];
            [repeat (destruct Ho as [Ho | Ho]; [discriminate |]); exact Ho |]).
    exact Hk. }
  destruct bn.
  - destruct (B1 BN) as (beta & gamma & E1 & E2 & P & C).
    exists [beta; gamma]. split; [| split; assumption].
    exists beta, gamma. rewrite !F by (apply N; simpl; auto). auto.
  - destruct (B0 BN) as (P & C). exists []. rewrite !app_nil_r. auto.
Qed.

(** C5 (amended).  For every constructed instance of the three classes,
    [policy_params] and [critic_params] are the handles of the graph's
    variables whose names pass the policy test (["policy/"]; for the
    pointer network ["encoder/"] or ["decoder/"]) and the critic test
    (["critic/"]), each followed, in a pointer network with
    [bn_actions], by the two batch-norm parameters.  So every variable
    under a policy scope is in [policy_params], every variable under a
    critic scope is in [critic_params], and a handle is in both lists
    only if it is a batch-norm parameter or its name passes both tests;
    the lists are disjoint when batch-norm is off and no name passes
    both tests, and with [bn_actions] the batch-norm parameters are in
    both. *)
Theorem C5_parameters_split_by_name :
  (forall mdp sp inputs q_targets tau nz nm g self g',
      DPG.new mdp sp inputs q_targets tau nz nm g = (inr self, g') ->
      exists pp cp,
        attr self "policy_params" = Some (PL pp) /\
        attr self "critic_params" = Some (PL cp) /\
        split_by_name policy_scoped (g_vars g') [] pp cp /\
        (no_clash policy_scoped (g_vars g') = true -> disjoint pp cp)) /\
  (forall ov mdp sp input_dim vocab_size seq_length inputs q_targets tau
          nz nm g self g',
      RecurrentDPG.__init__ ov mdp sp input_dim vocab_size seq_length inputs
                            q_targets tau nz nm g = (inr self, g') ->
      exists pp cp,
        attr self "policy_params" = Some (PL pp) /\
        attr self "critic_params" = Some (PL cp) /\
        split_by_name policy_scoped (g_vars g') [] pp cp /\
        (no_clash policy_scoped (g_vars g') = true -> disjoint pp cp)) /\
  (forall mdp sp input_dim seq_length bn inputs q_targets tau nz nm g
          self g',
      PointerNetDPG.__init__ mdp sp input_dim seq_length bn inputs q_targets
                             tau nz nm g = (inr self, g') ->
      exists pp cp bn_params,
        attr self "policy_params" = Some (PL pp) /\
        attr self "critic_params" = Some (PL cp) /\
        (if bn
         then exists beta gamma,
                attr self "bn_beta" = Some (PT beta) /\
                attr self "bn_gamma" = Some (PT gamma) /\
                bn_params = [beta; gamma]
         else bn_params = []) /\
        split_by_name encoder_decoder_scoped (g_vars g') bn_params pp cp /\
        (bn = false ->
         no_clash encoder_decoder_scoped (g_vars g') = true ->
         disjoint pp cp) /\
        (bn = true -> ~ disjoint pp cp)).
Proof.
  repeat apply conj.
  - intros mdp sp inputs q_targets tau nz nm g self g' H.
    pose proof (DPG_params _ _ _ _ _ _ _ _ _ _ H) as (P & C).
    pose proof (split_by_name_filter policy_scoped (g_vars g') []
                  policy_scoped_name) as S.
    rewrite !app_nil_r in S.
    eexists _, _. split; [exact P |]. split; [exact C |].
    split; [exact S |].
    intros N. eapply split_by_name_disjoint; eassumption.
  - intros ov mdp sp input_dim vocab_size seq_length inputs q_targets tau
           nz nm g self g' H.
    pose proof (RecurrentDPG_params _ _ _ _ _ _ _ _ _ _ _ _ _ _ H) as (P & C).
    pose proof (split_by_name_filter policy_scoped (g_vars g') []
                  policy_scoped_name) as S.
    rewrite !app_nil_r in S.
    eexists _, _. split; [exact P |]. split; [exact C |].
    split; [exact S |].
    intros N. eapply split_by_name_disjoint; eassumption.
  - intros mdp sp input_dim seq_length bn inputs q_targets tau nz nm g
           self g' H.
    pose proof (PointerNetDPG_params _ _ _ _ _ _ _ _ _ _ _ _ _ H)
      as (bnp & B & P & C).
    pose proof (split_by_name_filter encoder_decoder_scoped (g_vars g') bnp
                  encoder_decoder_scoped_name) as S.
    eexists _, _, bnp. split; [exact P |]. split; [exact C |].
    split; [exact B |]. split; [exact S |]. split.
    + intros -> N. subst bnp.
      eapply split_by_name_disjoint; eassumption.
    + intros -> D. destruct B as (beta & gamma & _ & _ & ->).
      apply (D beta); apply in_or_app; right; left; reflexivity.
Qed.

Lemma C5_parameters_split_by_name_witness :
  exists self g' pp cp,
    DPG.new (mkMdp 4 2) (mkSpec [8; 8]%Z [8; 8]%Z) None None None None
            "dpg" empty_graph = (inr self, g') /\
    attr self "policy_params" = Some (PL pp) /\
    attr self "critic_params" = Some (PL cp) /\
    disjoint pp cp.
Proof.
  destruct (succeeded_inr
              (DPG.new (mkMdp 4 2) (mkSpec [8; 8]%Z [8; 8]%Z) None None None
                       None "dpg" empty_graph))
    as (self & g' & E); [vm_compute; reflexivity |].
  destruct (proj1 C5_parameters_split_by_name _ _ _ _ _ _ _ _ _ _ E)
    as (pp & cp & P & C & _ & D).
  exists self, g', pp, cp. repeat split; try assumption.
  apply D. change g' with (snd (@inr exn dpg self, g')). rewrite <- E.
  vm_compute. reflexivity.
Defined.

(** C5, as worded, fails: a pointer network built with [bn_actions] has
    the batch-norm shift parameter in both [policy_params] and
    [critic_params]. *)
Lemma C5_batch_norm_in_both_counterexample :
  exists self g' pp cp,
    PointerNetDPG.__init__ (mkMdp 6 1) (mkSpec [3]%Z []) 1 1 true
                           None None None None "dpg" empty_graph
    = (inr self, g') /\
    attr self "policy_params" = Some (PL pp) /\
    attr self "critic_params" = Some (PL cp) /\
    In (VarRef "dpg/bn/beta") pp /\ In (VarRef "dpg/bn/beta") cp /\
    ~ disjoint pp cp.
Proof.
  eexists. eexists. eexists. eexists.
  split; [vm_compute; reflexivity |].
  split; [vm_compute; reflexivity |].
  split; [vm_compute; reflexivity |].
  split; [| split].
  - simpl. auto 20.
  - simpl. auto 20.
  - intros D. apply (D (VarRef "dpg/bn/beta")); simpl; auto 20.
Qed.

(* ------------------------------------------------------------------ *)
(** ** Construction only adds to the graph *)

Lemma grows_refl g : grows g g.
Proof.
  repeat split; try (exists []; rewrite app_nil_r; reflexivity). lia.
Qed.

Lemma grows_trans g1 g2 g3 : grows g1 g2 -> grows g2 g3 -> grows g1 g3.
Proof.
  intros ((v1 & V1) & (s1 & S1) & U1) ((v2 & V2) & (s2 & S2) & U2).
  repeat split.
  - exists (v1 ++ v2)%list. rewrite V2, V1, app_assoc. reflexivity.
  - exists (s1 ++ s2)%list. rewrite S2, S1, app_assoc. reflexivity.
  - lia.
Qed.

Lemma grows_scoped s s' g g1 :
  grows (tf.set_scope s g) g1 -> grows g (tf.set_scope s' g1).
Proof. intros H. exact H. Qed.

Lemma extends_grows g g' : extends g g' -> grows g g'.
Proof.
  intros (_ & U & S & V). repeat split; try assumption.
  - exists []. rewrite app_nil_r. exact S.
  - rewrite U. lia.
Qed.

Lemma only_adds_ret {A} (a : A) : only_adds (ret a).
Proof. intros g r g' H. inversion H. apply grows_refl. Qed.

Lemma only_adds_raise {A} e : only_adds (@raise A e).
Proof. intros g r g' H. inversion H. apply grows_refl. Qed.

Lemma only_adds_bind_res {A B} (m : M A) (k : A -> M B) :
  only_adds m ->
  (forall a g g1, m g = (inr a, g1) -> only_adds (k a)) ->
  only_adds (bind m k).
Proof.
  intros Hm Hk g r g' H. unfold bind in H.
  destruct (m g) as [[e | a] g1] eqn:E.
  - inversion H; subst. eapply Hm. eassumption.
  - eapply grows_trans; [eapply Hm; eassumption |].
    eapply Hk; eassumption.
Qed.

Lemma only_adds_bind {A B} (m : M A) (k : A -> M B) :
  only_adds m -> (forall a, only_adds (k a)) -> only_adds (bind m k).
Proof. intros Hm Hk. apply only_adds_bind_res; auto. Qed.

Lemma only_adds_variable_scope {A} n r i (body : M A) :
  only_adds body -> only_adds (tf.variable_scope n r i body).
Proof.
  intros Hb g res g' H. unfold tf.variable_scope in H.
  destruct (String.eqb n "").
  - inversion H. apply grows_refl.
  - destruct (body _) as [r1 g1] eqn:E. inversion H; subst.
    apply Hb in E. exact E.
Qed.

Lemma grows_set_scope s g : grows g (tf.set_scope s g).
Proof. exact (grows_refl g). Qed.

Lemma only_adds_reuse_variables : only_adds tf.reuse_variables.
Proof. intros g r g' H. inversion H. apply grows_set_scope. Qed.

Lemma grows_add_var v g : grows g (tf.add_var v g).
Proof.
  repeat split; simpl; eauto.
  - exists []. rewrite app_nil_r. reflexivity.
Qed.

Lemma only_adds_get_variable n shp i : only_adds (tf.get_variable n shp i).
Proof.
  intros g r g' H. unfold tf.get_variable in H.
  destruct (tf.in_store _ g), (vs_reuse (g_scope g)); inversion H;
    try apply grows_refl. apply grows_add_var.
Qed.

Lemma only_adds_new_Variable v shp n : only_adds (tf.new_Variable v shp n).
Proof. intros g r g' H. inversion H. apply grows_add_var. Qed.

Lemma only_adds_all_variables : only_adds tf.all_variables.
Proof. intros g r g' H. inversion H. apply grows_refl. Qed.

Lemma grows_bump g : grows g (bump g).
Proof.
  repeat split; simpl; try (exists []; rewrite app_nil_r; reflexivity). lia.
Qed.

Lemma only_adds_placeholder shp n : only_adds (tf.placeholder shp n).
Proof.
  intros g r g' H. rewrite placeholder_run in H. inversion H.
  apply grows_bump.
Qed.

Lemma only_adds_random_normal shp m s : only_adds (tf.random_normal shp m s).
Proof.
  intros g r g' H. rewrite random_normal_run in H. inversion H.
  apply grows_bump.
Qed.

Lemma only_adds_scalar_summary tag t : only_adds (tf.scalar_summary tag t).
Proof.
  intros g r g' H. rewrite scalar_summary_run in H. inversion H.
  repeat split; simpl; eauto.
  exists []. rewrite app_nil_r. reflexivity.
Qed.

Lemma only_adds_get_tensor self k : only_adds (get_tensor self k).
Proof.
  unfold get_tensor. destruct (attr self k) as [[t | l] |];
    first [apply only_adds_ret | apply only_adds_raise].
Qed.

Lemma only_adds_get_list self k : only_adds (get_list self k).
Proof.
  unfold get_list. destruct (attr self k) as [[t | l] |];
    first [apply only_adds_ret | apply only_adds_raise].
Qed.

Lemma only_adds_as_tensor v : only_adds (as_tensor v).
Proof.
  destruct v; first [apply only_adds_ret | apply only_adds_raise].
Qed.

Lemma only_adds_as_list v : only_adds (as_list v).
Proof.
  destruct v; first [apply only_adds_ret | apply only_adds_raise].
Qed.

Lemma only_adds_index0 {A} (l : list A) : only_adds (index0 l).
Proof.
  destruct l; first [apply only_adds_ret | apply only_adds_raise].
Qed.

Lemma only_adds_index_last {A} (l : list A) : only_adds (index_last l).
Proof.
  unfold index_last.
  destruct (rev l); first [apply only_adds_ret | apply only_adds_raise].
Qed.

Lemma only_adds_py_or x make : only_adds make -> only_adds (py_or x make).
Proof.
  intros H. unfold py_or. destruct x as [v |]; [| exact H].
  destruct (truthy (Some v)); [apply only_adds_ret | exact H].
Qed.

Lemma only_adds_mapM {A B} (f : A -> M B) l :
  (forall a, only_adds (f a)) -> only_adds (mapM f l).
Proof.
  intros Hf. induction l as [| a l IH]; simpl.
  - apply only_adds_ret.
  - apply only_adds_bind; [apply Hf |]. intros b.
    apply only_adds_bind; [exact IH |]. intros bs. apply only_adds_ret.
Qed.

Lemma only_adds_mapM_enum {A B} (f : nat -> A -> M B) l :
  (forall i a, only_adds (f i a)) -> forall i, only_adds (mapM_enum f i l).
Proof.
  intros Hf. induction l as [| a l IH]; intros i; simpl.
  - apply only_adds_ret.
  - apply only_adds_bind; [apply Hf |]. intros b.
    apply only_adds_bind; [apply IH |]. intros bs. apply only_adds_ret.
Qed.

(** Decompose a computation into its steps; [oa_known] applies what
    was proved of the functions met on the way. *)
Ltac oa_known := fail.

Ltac oa_step :=
  first
    [ oa_known
    | apply only_adds_ret
    | apply only_adds_raise
    | apply only_adds_get_variable
    | apply only_adds_new_Variable
    | apply only_adds_all_variables
    | apply only_adds_reuse_variables
    | apply only_adds_placeholder
    | apply only_adds_random_normal
    | apply only_adds_scalar_summary
    | apply only_adds_get_tensor
    | apply only_adds_get_list
    | apply only_adds_as_tensor
    | apply only_adds_as_list
    | apply only_adds_index0
    | apply only_adds_index_last
    | apply only_adds_py_or
    | apply only_adds_variable_scope
    | apply only_adds_bind; [| intros ?]
    | apply only_adds_mapM; intros ?
    | apply only_adds_mapM_enum; intros ? ?
    | match goal with
      | |- only_adds (match ?x with _ => _ end) => destruct x
      end
    | progress cbv beta zeta
    | assumption ].

Ltac oa := repeat oa_step.

Lemma only_adds_mlp_from hidden : forall x i src out b ts,
  only_adds (util.mlp_from x i src hidden out b ts).
Proof.
  induction hidden as [| d hidden IH]; intros; simpl.
  - oa.
  - oa. apply IH.
Qed.

Lemma only_adds_mlp inp d o hidden b ts :
  only_adds (util.mlp inp d o hidden b ts).
Proof. apply only_adds_mlp_from. Qed.

Ltac oa_known ::= first [apply only_adds_mlp | apply only_adds_mlp_from].

Lemma only_adds_track_model_updates main track tau :
  only_adds (util.track_model_updates main track tau).
Proof.
  unfold util.track_model_updates. oa. unfold util.track_update_of. oa.
Qed.

Lemma only_adds_policy_model inp mdp sp nm reuse ts :
  only_adds (policy_model inp mdp sp nm reuse ts).
Proof. unfold policy_model. oa. Qed.

Lemma only_adds_critic_model inp a mdp sp nm reuse ts :
  only_adds (critic_model inp a mdp sp nm reuse ts).
Proof. unfold critic_model. oa. Qed.

Lemma only_adds_noise_gaussian inp actions stddev :
  only_adds (noise_gaussian inp actions stddev).
Proof. unfold noise_gaussian, noise_gaussian_tensor. oa. Qed.

Lemma only_adds_linear args n b s : only_adds (rnn_cell.linear args n b s).
Proof. unfold rnn_cell.linear. oa. Qed.

Ltac oa_known ::=
  first [ apply only_adds_mlp | apply only_adds_mlp_from
        | apply only_adds_track_model_updates
        | apply only_adds_policy_model | apply only_adds_critic_model
        | apply only_adds_noise_gaussian | apply only_adds_linear ].

Lemma only_adds_GRUCell n inputs state scope :
  only_adds (call (rnn_cell.GRUCell n) inputs state scope).
Proof. simpl. unfold rnn_cell.GRUCell_call. oa. Qed.

Lemma GRUCell_only_adds n : cell_only_adds (rnn_cell.GRUCell n).
Proof. intros i s sc. apply only_adds_GRUCell. Qed.

Lemma only_adds_rnn_steps cell inputs :
  cell_only_adds cell ->
  forall time state, only_adds (rnn.rnn_steps cell time state inputs).
Proof.
  intros Hc. induction inputs as [| x inputs IH]; intros; simpl.
  - oa.
  - oa; first [apply Hc | apply IH].
Qed.

Lemma only_adds_rnn cell inputs scope :
  cell_only_adds cell -> only_adds (rnn.rnn cell inputs scope).
Proof.
  intros Hc. unfold rnn.rnn. destruct inputs; [oa |].
  apply only_adds_variable_scope. cbv zeta.
  apply only_adds_rnn_steps. exact Hc.
Qed.

Lemma only_adds_rnn_decoder_steps cell lf inputs :
  cell_only_adds cell ->
  match lf with Some f => loop_only_adds f | None => True end ->
  forall i prev state,
    only_adds (seq2seq.rnn_decoder_steps cell lf i prev state inputs).
Proof.
  intros Hc Hl. induction inputs as [| x inputs IH]; intros; simpl.
  - oa.
  - apply only_adds_bind.
    + destruct lf as [f |], prev as [p |]; oa. apply Hl.
    + intros inp'. oa; first [apply Hc | apply IH].
Qed.

Lemma only_adds_rnn_decoder inputs init cell lf :
  cell_only_adds cell ->
  match lf with Some f => loop_only_adds f | None => True end ->
  only_adds (seq2seq.rnn_decoder inputs init cell lf).
Proof.
  intros Hc Hl. unfold seq2seq.rnn_decoder. oa.
  apply only_adds_rnn_decoder_steps; assumption.
Qed.

Lemma only_adds_ptr_net_decoder_steps cell attn lf inputs :
  cell_only_adds cell -> loop_only_adds lf ->
  forall i prev state,
    only_adds (pointer_network.ptr_net_decoder_steps cell attn lf i prev
                 state inputs).
Proof.
  intros Hc Hl. induction inputs as [| x inputs IH]; intros; simpl.
  - oa.
  - oa; first [apply Hl | apply Hc | apply IH].
Qed.

Lemma only_adds_ptr_net_decoder inputs init attn cell lf scope :
  cell_only_adds cell -> loop_only_adds lf ->
  only_adds (pointer_network.ptr_net_decoder inputs init attn cell lf scope).
Proof.
  intros Hc Hl. unfold pointer_network.ptr_net_decoder. oa.
  apply only_adds_ptr_net_decoder_steps; assumption.
Qed.

Lemma PolicyRNNCell_only_adds cell self :
  cell_only_adds cell ->
  cell_only_adds (RecurrentDPG.PolicyRNNCell cell self).
Proof.
  intros Hc i s sc. simpl. unfold RecurrentDPG.PolicyRNNCell_call.
  oa; apply Hc.
Qed.

Lemma loop_fn_only_adds attn : loop_only_adds (PointerNetDPG.loop_fn attn).
Proof. intros out t. unfold PointerNetDPG.loop_fn. oa. Qed.

Ltac oa_known ::=
  first [ apply only_adds_mlp | apply only_adds_mlp_from
        | apply only_adds_track_model_updates
        | apply only_adds_policy_model | apply only_adds_critic_model
        | apply only_adds_noise_gaussian | apply only_adds_linear
        | apply only_adds_GRUCell
        | apply only_adds_rnn | apply only_adds_rnn_decoder
        | apply only_adds_ptr_net_decoder
        | apply GRUCell_only_adds | apply loop_fn_only_adds
        | apply PolicyRNNCell_only_adds ].

(* The methods of the three classes. *)

Lemma only_adds_DPG_make_inputs self : only_adds (DPG._make_inputs self).
Proof. unfold DPG._make_inputs. oa. Qed.

Lemma only_adds_DPG_make_graph self :
  noiser_only_adds (noiser self) -> only_adds (DPG._make_graph self).
Proof.
  intros Hn. unfold DPG._make_graph. oa; apply Hn.
Qed.

Lemma only_adds_DPG_make_objectives self :
  only_adds (DPG._make_objectives self).
Proof. unfold DPG._make_objectives. oa. Qed.

Lemma only_adds_DPG_make_updates self : only_adds (DPG._make_updates self).
Proof.
  unfold DPG._make_updates. oa.
Qed.

Lemma only_adds_RecurrentDPG_make_inputs self :
  only_adds (RecurrentDPG._make_inputs self).
Proof. unfold RecurrentDPG._make_inputs. oa. Qed.

Lemma only_adds_critic self states actions reuse :
  only_adds (RecurrentDPG._critic self states actions reuse).
Proof. unfold RecurrentDPG._critic. oa. Qed.

Lemma only_adds_call_loop_function ov self :
  overrides_only_add ov ->
  only_adds (RecurrentDPG.call_loop_function ov self).
Proof.
  unfold overrides_only_add, RecurrentDPG.call_loop_function.
  destruct (RecurrentDPG.ov_loop_function ov) as [f |]; intros H.
  - apply H.
  - unfold RecurrentDPG._loop_function. oa.
Qed.

Lemma call_loop_function_loop ov self g lf g' :
  overrides_only_add ov ->
  RecurrentDPG.call_loop_function ov self g = (inr lf, g') ->
  loop_only_adds lf.
Proof.
  unfold overrides_only_add, RecurrentDPG.call_loop_function.
  destruct (RecurrentDPG.ov_loop_function ov) as [f |]; intros H E.
  - eapply H. eassumption.
  - discriminate.
Qed.

Lemma only_adds_RecurrentDPG_make_graph ov self :
  overrides_only_add ov -> noiser_only_adds (noiser self) ->
  only_adds (RecurrentDPG._make_graph ov self).
Proof.
  intros Ho Hn. unfold RecurrentDPG._make_graph.
  apply only_adds_bind; [oa |]. intros d0.
  apply only_adds_bind; [oa |]. intros inputs.
  apply only_adds_bind_res; [apply only_adds_call_loop_function; exact Ho |].
  intros lf g g1 E. apply (call_loop_function_loop _ _ _ _ _ Ho) in E.
  assert (Hc : cell_only_adds (RecurrentDPG._policy_cell self
                                 (rnn_cell.GRUCell d0))).
  { apply PolicyRNNCell_only_adds, GRUCell_only_adds. }
  oa; first [ apply only_adds_critic | apply Hn | apply Hc ].
Qed.

Lemma only_adds_PointerNetDPG_make_params self :
  only_adds (PointerNetDPG._make_params self).
Proof. unfold PointerNetDPG._make_params. oa. Qed.

Lemma only_adds_PointerNetDPG_make_inputs self :
  only_adds (PointerNetDPG._make_inputs self).
Proof. unfold PointerNetDPG._make_inputs. oa. Qed.

Lemma only_adds_PointerNetDPG_critic self actions reuse :
  only_adds (PointerNetDPG._critic self actions reuse).
Proof. unfold PointerNetDPG._critic. oa. Qed.

Ltac oa_known ::=
  first [ apply only_adds_mlp | apply only_adds_mlp_from
        | apply only_adds_track_model_updates
        | apply only_adds_policy_model | apply only_adds_critic_model
        | apply only_adds_noise_gaussian | apply only_adds_linear
        | apply only_adds_GRUCell
        | apply only_adds_rnn | apply only_adds_rnn_decoder
        | apply only_adds_ptr_net_decoder
        | apply GRUCell_only_adds | apply loop_fn_only_adds
        | apply PolicyRNNCell_only_adds
        | apply only_adds_critic | apply only_adds_PointerNetDPG_critic ].

Lemma only_adds_PointerNetDPG_make_graph self :
  noiser_only_adds (noiser self) ->
  only_adds (PointerNetDPG._make_graph self).
Proof.
  intros Hn. unfold PointerNetDPG._make_graph, PointerNetDPG._make_q_targets.
  repeat first
    [ match goal with
      | |- only_adds (bind (PointerNetDPG._loop_function _) _) =>
          apply only_adds_bind_res;
          [ unfold PointerNetDPG._loop_function; oa
          | let lf := fresh "lf" in
            let E := fresh "E" in
            intros lf ? ? E; apply PointerNetDPG_loop_function_inr in E;
            destruct E as (? & _ & _ & ->) ]
      | |- only_adds (bind (if bn_actions _ then _ else _) _) =>
          apply only_adds_bind_res;
          [ oa
          | let s' := fresh "s'" in
            let E := fresh "E" in
            intros s' ? ? E;
            assert (noiser s' = noiser self)
              by (cbn [bn_actions setattr] in E;
                  destruct (bn_actions self);
                  [ apply bind_inr in E; destruct E as (? & ? & _ & E);
                    apply bind_inr in E; destruct E as (? & ? & _ & E);
                    apply ret_inr in E; destruct E as [<- _]; reflexivity
                  | apply ret_inr in E; destruct E as [<- _]; reflexivity ]);
            clear E ]
      end
    | oa_step ].
  match goal with Q : noiser _ = noiser self |- _ => rewrite Q end.
  apply Hn.
Qed.

Lemma only_adds_PointerNetDPG_make_objectives self :
  only_adds (PointerNetDPG._make_objectives self).
Proof.
  unfold PointerNetDPG._make_objectives, PointerNetDPG._policy_params. oa.
Qed.

Lemma init_only_adds c self mdp sp inputs q_targets tau nz nm g r g' :
  method_keeps_noiser (m_make_params c) ->
  method_keeps_noiser (m_make_inputs c) ->
  (forall s, noiser s = noiser_of nz -> only_adds (m_make_graph c s)) ->
  (forall s, only_adds (m_make_objectives c s)) ->
  (forall s, only_adds (m_make_updates c s)) ->
  DPG.__init__ c self mdp sp inputs q_targets tau nz nm g = (r, g') ->
  grows g g' /\ g_scope g' = g_scope g.
Proof.
  intros Hp Hi Hg Ho Hu H. unfold DPG.__init__, tf.variable_scope in H.
  destruct (String.eqb nm "").
  - inversion H. split; [apply grows_refl | reflexivity].
  - match type of H with
    | (let '(_, _) := ?b ?g0 in _) = _ =>
        assert (B : only_adds b); [| destruct (b g0) as [r1 g1] eqn:E]
    end.
    + apply only_adds_bind_res; [apply Hp |]. intros s1 ga gb E1.
      apply Hp in E1.
      apply only_adds_bind_res; [apply Hi |]. intros s2 gc gd E2.
      apply Hi in E2.
      apply only_adds_bind;
        [apply Hg; rewrite E2, E1; reflexivity |]. intros s3.
      apply only_adds_bind; [apply Ho |]. intros s4. apply Hu.
    + inversion H; subst. apply B in E. split; [exact E | reflexivity].
Qed.

Lemma DPG_make_params_keeps : method_keeps_noiser DPG._make_params.
Proof.
  intros s. split; [apply only_adds_ret |].
  intros g s' g' H. unfold DPG._make_params in H. mret H. reflexivity.
Qed.

Lemma DPG_make_inputs_keeps : method_keeps_noiser DPG._make_inputs.
Proof.
  intros s. split; [apply only_adds_DPG_make_inputs |].
  intros g s' g' H. apply DPG_make_inputs_inr in H.
  destruct H as (i & q & t & -> & _). reflexivity.
Qed.

Lemma RecurrentDPG_make_inputs_keeps :
  method_keeps_noiser RecurrentDPG._make_inputs.
Proof.
  intros s. split; [apply only_adds_RecurrentDPG_make_inputs |].
  intros g s' g' H. apply RecurrentDPG_make_inputs_inr in H.
  destruct H as (i & q & t & d0 & g3 & -> & _). reflexivity.
Qed.

Lemma PointerNetDPG_make_params_keeps :
  method_keeps_noiser PointerNetDPG._make_params.
Proof.
  intros s. split; [apply only_adds_PointerNetDPG_make_params |].
  intros g s' g' H. apply PointerNetDPG_make_params_inr in H.
  destruct H as [(_ & -> & _) | (_ & b & c & vb & vg & -> & _)]; reflexivity.
Qed.

Lemma PointerNetDPG_make_inputs_keeps :
  method_keeps_noiser PointerNetDPG._make_inputs.
Proof.
  intros s. split; [apply only_adds_PointerNetDPG_make_inputs |].
  intros g s' g' H. apply PointerNetDPG_make_inputs_inr in H.
  apply H.
Qed.

Lemma DPG_new_grows mdp sp inputs q_targets tau nz nm g r g' :
  noiser_only_adds (noiser_of nz) ->
  DPG.new mdp sp inputs q_targets tau nz nm g = (r, g') ->
  grows g g' /\ g_scope g' = g_scope g.
Proof.
  intros Hn H.
  unfold DPG.new in H. eapply init_only_adds; [| | | | | exact H]; simpl.
  - apply DPG_make_params_keeps.
  - apply DPG_make_inputs_keeps.
  - intros s E. apply only_adds_DPG_make_graph. rewrite E. exact Hn.
  - apply only_adds_DPG_make_objectives.
  - apply only_adds_DPG_make_updates.
Qed.

Lemma RecurrentDPG_init_grows ov mdp sp input_dim vocab_size seq_length
    inputs q_targets tau nz nm g r g' :
  overrides_only_add ov -> noiser_only_adds (noiser_of nz) ->
  RecurrentDPG.__init__ ov mdp sp input_dim vocab_size seq_length inputs
                        q_targets tau nz nm g = (r, g') ->
  grows g g' /\ g_scope g' = g_scope g.
Proof.
  intros Ho Hn H. unfold RecurrentDPG.__init__ in H.
  eapply init_only_adds; [| | | | | exact H]; simpl.
  - apply DPG_make_params_keeps.
  - apply RecurrentDPG_make_inputs_keeps.
  - intros s E. apply only_adds_RecurrentDPG_make_graph; [exact Ho |].
    rewrite E. exact Hn.
  - apply only_adds_DPG_make_objectives.
  - intros s. apply only_adds_ret.
Qed.

Lemma PointerNetDPG_init_grows mdp sp input_dim seq_length bn inputs
    q_targets tau nz nm g r g' :
  noiser_only_adds (noiser_of nz) ->
  PointerNetDPG.__init__ mdp sp input_dim seq_length bn inputs q_targets
                         tau nz nm g = (r, g') ->
  grows g g' /\ g_scope g' = g_scope g.
Proof.
  intros Hn H. unfold PointerNetDPG.__init__ in H.
  destruct (policy_dims sp) as [| d0 rest] eqn:D; simpl in H.
  { inversion H. split; [apply grows_refl | reflexivity]. }
  unfold bind in H. simpl in H.
  destruct (Z.eqb (state_dim mdp) (d0 * 2)); simpl in H.
  - eapply init_only_adds; [| | | | | exact H]; simpl.
    + apply PointerNetDPG_make_params_keeps.
    + apply PointerNetDPG_make_inputs_keeps.
    + intros s E. apply only_adds_PointerNetDPG_make_graph.
      rewrite E. exact Hn.
    + apply only_adds_PointerNetDPG_make_objectives.
    + intros s. apply only_adds_ret.
  - inversion H. split; [apply grows_refl | reflexivity].
Qed.

(** X1.  Constructing an instance of any of the three classes, whether
    construction returns or raises, only adds to the graph it is given:
    the variables and the summaries that were there stay, in order,
    before the new ones, no node identity is handed out twice, and the
    current variable scope is the one before the call -- provided the
    noiser (and, for a recurrent class, the feedback function of the
    subclass) only adds to the graph as well. *)
Theorem construction_only_adds :
  (forall mdp sp inputs q_targets tau nz nm g r g',
      noiser_only_adds (noiser_of nz) ->
      DPG.new mdp sp inputs q_targets tau nz nm g = (r, g') ->
      grows g g' /\ g_scope g' = g_scope g) /\
  (forall ov mdp sp input_dim vocab_size seq_length inputs q_targets tau
          nz nm g r g',
      overrides_only_add ov -> noiser_only_adds (noiser_of nz) ->
      RecurrentDPG.__init__ ov mdp sp input_dim vocab_size seq_length inputs
                            q_targets tau nz nm g = (r, g') ->
      grows g g' /\ g_scope g' = g_scope g) /\
  (forall mdp sp input_dim seq_length bn inputs q_targets tau nz nm g r g',
      noiser_only_adds (noiser_of nz) ->
      PointerNetDPG.__init__ mdp sp input_dim seq_length bn inputs q_targets
                             tau nz nm g = (r, g') ->
      grows g g' /\ g_scope g' = g_scope g).
Proof.
  repeat apply conj.
  - intros mdp sp inputs q_targets tau nz nm g r g' Hn H.
    eapply DPG_new_grows; eassumption.
  - intros ov mdp sp input_dim vocab_size seq_length inputs q_targets tau
           nz nm g r g' Ho Hn H.
    eapply RecurrentDPG_init_grows; eassumption.
  - intros mdp sp input_dim seq_length bn inputs q_targets tau nz nm g r g'
           Hn H.
    eapply PointerNetDPG_init_grows; eassumption.
Qed.

Lemma construction_only_adds_witness :
  grows empty_graph
        (snd (PointerNetDPG.__init__ (mkMdp 6 2) (mkSpec [3]%Z [4]%Z) 1 2
                true None None None None "dpg" empty_graph)) /\
  grows empty_graph
        (snd (RecurrentDPG.__init__ RecurrentDPG.abstract (mkMdp 6 2)
                (mkSpec [3]%Z [4]%Z) 1 5 2 None None None None "dpg"
                empty_graph)).
Proof.
  split.
  - refine (proj1 (proj2 (proj2 construction_only_adds)
                     (mkMdp 6 2) (mkSpec [3]%Z [4]%Z) 1%Z 2%Z true None None
                     None None "dpg" empty_graph _ _ _ _)).
    + intros inp a. apply only_adds_noise_gaussian.
    + apply surjective_pairing.
  - refine (proj1 (proj1 (proj2 construction_only_adds)
                     RecurrentDPG.abstract (mkMdp 6 2) (mkSpec [3]%Z [4]%Z)
                     1%Z 5%Z 2%Z None None None None "dpg" empty_graph
                     _ _ _ _ _)).
    + exact I.
    + intros inp a. apply only_adds_noise_gaussian.
    + apply surjective_pairing.
Defined.

Lemma grows_In g g' var : grows g g' -> In var (g_vars g) -> In var (g_vars g').
Proof.
  intros ((new & V) & _) I. rewrite V. apply in_or_app. left. exact I.
Qed.

(** X2.  The parameter lists are read off the whole graph, not off the
    instance: a variable that was in the graph before the constructor
    was called (one of an earlier instance, say) and whose name passes
    the policy test is in the new instance's [policy_params], and one
    whose name passes the critic test is in its [critic_params]. *)
Theorem parameter_lists_take_in_earlier_variables :
  (forall mdp sp inputs q_targets tau nz nm g self g' var,
      noiser_only_adds (noiser_of nz) ->
      DPG.new mdp sp inputs q_targets tau nz nm g = (inr self, g') ->
      In var (g_vars g) ->
      exists pp cp,
        attr self "policy_params" = Some (PL pp) /\
        attr self "critic_params" = Some (PL cp) /\
        (policy_scoped var = true -> In (handle var) pp) /\
        (critic_scoped var = true -> In (handle var) cp)) /\
  (forall ov mdp sp input_dim vocab_size seq_length inputs q_targets tau
          nz nm g self g' var,
      overrides_only_add ov -> noiser_only_adds (noiser_of nz) ->
      RecurrentDPG.__init__ ov mdp sp input_dim vocab_size seq_length inputs
                            q_targets tau nz nm g = (inr self, g') ->
      In var (g_vars g) ->
      exists pp cp,
        attr self "policy_params" = Some (PL pp) /\
        attr self "critic_params" = Some (PL cp) /\
        (policy_scoped var = true -> In (handle var) pp) /\
        (critic_scoped var = true -> In (handle var) cp)) /\
  (forall mdp sp input_dim seq_length bn inputs q_targets tau nz nm g self
          g' var,
      noiser_only_adds (noiser_of nz) ->
      PointerNetDPG.__init__ mdp sp input_dim seq_length bn inputs q_targets
                             tau nz nm g = (inr self, g') ->
      In var (g_vars g) ->
      exists pp cp,
        attr self "policy_params" = Some (PL pp) /\
        attr self "critic_params" = Some (PL cp) /\
        (encoder_decoder_scoped var = true -> In (handle var) pp) /\
        (critic_scoped var = true -> In (handle var) cp)).
Proof.
  repeat apply conj.
  - intros mdp sp inputs q_targets tau nz nm g self g' var Hn H I.
    pose proof (DPG_new_grows _ _ _ _ _ _ _ _ _ _ Hn H) as (G & _).
    apply DPG_params in H. destruct H as (P & C).
    eexists _, _. split; [exact P |]. split; [exact C |].
    split; intros T; apply in_handles; exists var;
      (split; [eapply grows_In; eassumption | auto]).
  - intros ov mdp sp input_dim vocab_size seq_length inputs q_targets tau
           nz nm g self g' var Ho Hn H I.
    pose proof (RecurrentDPG_init_grows _ _ _ _ _ _ _ _ _ _ _ _ _ _ Ho Hn H)
      as (G & _).
    apply RecurrentDPG_params in H. destruct H as (P & C).
    eexists _, _. split; [exact P |]. split; [exact C |].
    split; intros T; apply in_handles; exists var;
      (split; [eapply grows_In; eassumption | auto]).
  - intros mdp sp input_dim seq_length bn inputs q_targets tau nz nm g self
           g' var Hn H I.
    pose proof (PointerNetDPG_init_grows _ _ _ _ _ _ _ _ _ _ _ _ _ Hn H)
      as (G & _).
    apply PointerNetDPG_params in H. destruct H as (bnp & _ & P & C).
    eexists _, _. split; [exact P |]. split; [exact C |].
    split; intros T; apply in_or_app; left; apply in_handles; exists var;
      (split; [eapply grows_In; eassumption | auto]).
Qed.

Lemma parameter_lists_take_in_earlier_variables_witness :
  exists self g' pp,
    PointerNetDPG.__init__ (mkMdp 6 1) (mkSpec [3]%Z []) 1 1 false
                           None None None None "b" graph_with_a
    = (inr self, g') /\
    attr self "policy_params" = Some (PL pp) /\
    In (VarRef "a/encoder/GRUCell/Gates/Linear/Matrix") pp.
Proof.
  destruct (succeeded_inr
              (PointerNetDPG.__init__ (mkMdp 6 1) (mkSpec [3]%Z []) 1 1 false
                 None None None None "b" graph_with_a))
    as (self & g' & E); [vm_compute; reflexivity |].
  destruct (proj2 (proj2 parameter_lists_take_in_earlier_variables)
              (mkMdp 6 1) (mkSpec [3]%Z []) 1%Z 1%Z false None None None
              None "b" graph_with_a self g'
              (mkVar "a/encoder/GRUCell/Gates/Linear/Matrix" [6]%Z
                     InitDefault true)
              (fun inp a => only_adds_noise_gaussian inp a (1 # 10)) E)
    as (pp & cp & P & _ & I & _).
  { vm_compute. auto. }
  exists self, g', pp. repeat split; try assumption.
  apply I. reflexivity.
Defined.

Lemma in_store_more n g g' :
  (exists new, g_vars g' = (g_vars g ++ new)%list) ->
  tf.in_store n g = true -> tf.in_store n g' = true.
Proof.
  intros (new & V). unfold tf.in_store. rewrite V, existsb_app.
  intros ->. reflexivity.
Qed.

Lemma in_store_grows n g g' :
  grows g g' -> tf.in_store n g = true -> tf.in_store n g' = true.
Proof. intros (V & _). apply in_store_more. exact V. Qed.

Lemma get_variable_in_store n shp i g t g' :
  tf.get_variable n shp i g = (inr t, g') ->
  tf.in_store (tf.join_scope (vs_name (g_scope g)) n) g' = true.
Proof.
  unfold tf.get_variable.
  destruct (tf.in_store _ g) eqn:S, (vs_reuse (g_scope g));
    intros H; inversion H; subst; try assumption.
  unfold tf.in_store, tf.add_var. simpl. rewrite existsb_app. simpl.
  rewrite String.eqb_refl. apply orb_true_r.
Qed.

Lemma get_variable_clash n shp i g :
  tf.in_store (tf.join_scope (vs_name (g_scope g)) n) g = true ->
  vs_reuse (g_scope g) = false ->
  tf.get_variable n shp i g
  = (inl (ValueError "Over-sharing: variable already exists"), g).
Proof. unfold tf.get_variable. intros -> ->. reflexivity. Qed.

(** Read the growth of the graph off a run. *)
Ltac grows_of H G :=
  match type of H with
  | ?m ?g = _ =>
      assert (G : only_adds m) by oa; apply G in H
  end.

Lemma linear_in_store args n b s g t g' :
  rnn_cell.linear args n b s g = (inr t, g') ->
  tf.in_store
    (tf.join_scope (tf.join_scope (vs_name (g_scope g)) "Linear") "Matrix")
    g' = true.
Proof.
  unfold rnn_cell.linear. intros H.
  apply variable_scope_inr in H. destruct H as (g1 & H & ->).
  mstep H as K m g2. apply get_variable_in_store in K.
  grows_of H G. change (tf.in_store ?n (tf.set_scope ?s ?g)) with
    (tf.in_store n g).
  eapply in_store_grows; eassumption.
Qed.

Lemma GRUCell_call_in_store n inputs state g os g' :
  rnn_cell.GRUCell_call n inputs state None g = (inr os, g') ->
  tf.in_store (gates_matrix (vs_name (g_scope g))) g' = true.
Proof.
  unfold rnn_cell.GRUCell_call. intros H.
  apply variable_scope_inr in H. destruct H as (g1 & H & ->).
  mstep H as K ru g2.
  apply variable_scope_inr in K. destruct K as (g3 & K & ->).
  apply linear_in_store in K.
  grows_of H G.
  change (tf.in_store ?n (tf.set_scope ?s ?g)) with (tf.in_store n g).
  eapply in_store_grows; [exact H |]. exact K.
Qed.

Lemma GRUCell_call_clash n inputs state g os g' :
  tf.in_store (gates_matrix (vs_name (g_scope g))) g = true ->
  vs_reuse (g_scope g) = false ->
  rnn_cell.GRUCell_call n inputs state None g <> (inr os, g').
Proof.
  intros S R H. unfold rnn_cell.GRUCell_call in H.
  apply variable_scope_inr in H. destruct H as (g1 & H & ->).
  mstep H as K ru g2.
  apply variable_scope_inr in K. destruct K as (g3 & K & ->).
  unfold rnn_cell.linear in K.
  apply variable_scope_inr in K. destruct K as (g4 & K & ->).
  mstep K as K1 m g5.
  rewrite get_variable_clash in K1; [discriminate | exact S | exact R].
Qed.

Lemma rnn_in_store n inputs sc g r g' :
  sc <> "" ->
  rnn.rnn (rnn_cell.GRUCell n) inputs (Some sc) g = (inr r, g') ->
  tf.in_store (gates_matrix (tf.join_scope (vs_name (g_scope g)) sc)) g'
  = true.
Proof.
  intros N. apply String.eqb_neq in N.
  unfold rnn.rnn, scope_or. rewrite N.
  destruct inputs as [| x rest]; [discriminate |].
  intros H. apply variable_scope_inr in H. destruct H as (g1 & H & ->).
  cbv zeta in H. simpl rnn.rnn_steps in H.
  mstep H as K0 u g2. mret K0.
  mstep H as K os g3. simpl call in K. apply GRUCell_call_in_store in K.
  destruct os as [o s'].
  match type of H with
  | ?m ?g = _ => assert (G : only_adds m)
  end.
  { oa. apply only_adds_rnn_steps. apply GRUCell_only_adds. }
  apply G in H.
  change (tf.in_store ?n (tf.set_scope ?s ?g)) with (tf.in_store n g).
  eapply in_store_grows; [exact H |]. exact K.
Qed.

Lemma rnn_clash n inputs sc g r g' :
  sc <> "" ->
  tf.in_store (gates_matrix (tf.join_scope (vs_name (g_scope g)) sc)) g
  = true ->
  vs_reuse (g_scope g) = false ->
  rnn.rnn (rnn_cell.GRUCell n) inputs (Some sc) g <> (inr r, g').
Proof.
  intros N S R H. apply String.eqb_neq in N.
  unfold rnn.rnn, scope_or in H. rewrite N in H.
  destruct inputs as [| x rest]; [discriminate |].
  apply variable_scope_inr in H. destruct H as (g1 & H & ->).
  cbv zeta in H. simpl rnn.rnn_steps in H.
  mstep H as K0 u g2. mret K0.
  mstep H as K os g3. simpl call in K.
  apply GRUCell_call_clash in K; [exact K | exact S | exact R].
Qed.

Lemma grows_vars g g' : grows g g' -> exists new, g_vars g' = (g_vars g ++ new)%list.
Proof. intros (V & _). exact V. Qed.

(** A successful construction of a pointer network ran its encoder in
    the scope of the instance, on a graph that held the variables it
    was given, and kept what the encoder created. *)
Lemma PointerNetDPG_encoder_run mdp sp input_dim seq_length bn inputs
    q_targets tau nz nm g self g' :
  PointerNetDPG.__init__ mdp sp input_dim seq_length bn inputs q_targets
                         tau nz nm g = (inr self, g') ->
  exists d0 ins r g2 g3,
    g_scope g2 = tf.sub_scope (g_scope g) nm None None /\
    (exists new, g_vars g2 = (g_vars g ++ new)%list) /\
    rnn.rnn (rnn_cell.GRUCell d0) ins (Some "encoder") g2 = (inr r, g3) /\
    (noiser_only_adds (noiser_of nz) ->
     exists new, g_vars g' = (g_vars g3 ++ new)%list) /\
    g_scope g' = g_scope g.
Proof.
  intros H. apply PointerNetDPG_init_inr in H.
  destruct H as (d0 & s1 & g1 & s2 & g2 & s3 & g3 & g4 & _ & _ & K1 & K2 & K3
                 & K4 & ->).
  pose proof (proj2 (PointerNetDPG_make_params_keeps _) _ _ _ K1) as N1.
  pose proof (proj2 (PointerNetDPG_make_inputs_keeps _) _ _ _ K2) as N2.
  apply PointerNetDPG_make_objectives_inr in K4. simpl in K4.
  destruct K4 as (_ & _ & _ & V4 & _).
  apply PointerNetDPG_make_graph_inr in K3.
  destruct K3 as (d0' & ins & outs & es & g1' & last & araw & dst & din & g2'
                  & ap & ae & g3' & _ & _ & R & _ & _ & D & _ & Z & K3).
  simpl in K3.
  destruct K3 as (_ & _ & _ & _ & _ & _ & _ & _ & _ & _ & _ & _ & _ & _ & _
                  & _ & V3).
  apply PointerNetDPG_make_inputs_inr in K2.
  destruct K2 as (_ & _ & _ & _ & _ & _ & V2 & S2).
  assert (P1 : g_scope g1 = tf.sub_scope (g_scope g) nm None None /\
               exists new, g_vars g1 = (g_vars g ++ new)%list).
  { apply PointerNetDPG_make_params_inr in K1.
    destruct K1 as [(_ & _ & ->) | (_ & b & c & vb & vg & _ & _ & _ & V & S
                                   & _)].
    - split; [reflexivity |]. exists []. simpl. rewrite app_nil_r.
      reflexivity.
    - split; [exact S |]. exists [vb; vg]. exact V. }
  destruct P1 as (S1 & V1).
  exists d0', ins, (outs, es), g2, g1'.
  split; [congruence |]. split; [rewrite V2; exact V1 |].
  split; [exact R |]. split; [| reflexivity].
  intros Hn. simpl g_vars. rewrite V4.
  apply only_adds_ptr_net_decoder in D;
    [| apply GRUCell_only_adds | apply loop_fn_only_adds].
  assert (Hz : grows g2' g3').
  { rewrite N2, N1 in Z. eapply Hn. exact Z. }
  pose proof (grows_vars _ _ (grows_trans _ _ _ D Hz)) as (n1 & E1).
  destruct V3 as (n2 & E2). exists (n1 ++ n2)%list.
  rewrite E2, E1, app_assoc. reflexivity.
Qed.

(** X3.  A graph holds one pointer network of a name: once a
    [PointerNetDPG] was constructed in a scope that does not reuse
    variables, constructing another one of the same name in the
    resulting graph raises, whatever the other arguments are (the
    encoder's weights exist already). *)
Theorem second_pointer_network_of_a_name_raises :
  forall mdp sp input_dim seq_length bn inputs q_targets tau nz nm g self g',
    vs_reuse (g_scope g) = false ->
    noiser_only_adds (noiser_of nz) ->
    PointerNetDPG.__init__ mdp sp input_dim seq_length bn inputs q_targets
                           tau nz nm g = (inr self, g') ->
    forall mdp2 sp2 input_dim2 seq_length2 bn2 inputs2 q_targets2 tau2 nz2,
    exists e g'',
      PointerNetDPG.__init__ mdp2 sp2 input_dim2 seq_length2 bn2 inputs2
                             q_targets2 tau2 nz2 nm g' = (inl e, g'').
Proof.
  intros mdp sp input_dim seq_length bn inputs q_targets tau nz nm g self g'
         R Hn H mdp2 sp2 input_dim2 seq_length2 bn2 inputs2 q_targets2 tau2
         nz2.
  apply PointerNetDPG_encoder_run in H.
  destruct H as (d0 & ins & r & g2 & g3 & S2 & _ & E & V & S').
  apply rnn_in_store in E; [| discriminate]. rewrite S2 in E.
  apply (in_store_more _ _ _ (V Hn)) in E.
  destruct (PointerNetDPG.__init__ mdp2 sp2 input_dim2 seq_length2 bn2
              inputs2 q_targets2 tau2 nz2 nm g')
    as [[e | self2] g''] eqn:H2; [eauto |].
  exfalso.
  apply PointerNetDPG_encoder_run in H2.
  destruct H2 as (d0' & ins' & r' & g2' & g3' & S2' & V2' & E' & _).
  apply rnn_clash in E'; [exact E' | discriminate | |].
  - rewrite S2', S'. apply (in_store_more _ _ _ V2'). exact E.
  - rewrite S2', S'. exact R.
Qed.

Lemma second_pointer_network_of_a_name_raises_witness :
  exists e g'',
    PointerNetDPG.__init__ (mkMdp 6 1) (mkSpec [3]%Z []) 1 1 false
                           None None None None "a" graph_with_a
    = (inl e, g'').
Proof.
  destruct (succeeded_inr
              (PointerNetDPG.__init__ (mkMdp 6 1) (mkSpec [3]%Z []) 1 1 false
                 None None None None "a" empty_graph))
    as (self & g' & E); [vm_compute; reflexivity |].
  assert (G : g' = graph_with_a) by (unfold graph_with_a; rewrite E; reflexivity).
  rewrite <- G.
  apply (second_pointer_network_of_a_name_raises
           (mkMdp 6 1) (mkSpec [3]%Z []) 1%Z 1%Z false None None None None
           "a" empty_graph self g' eq_refl
           (fun inp a => only_adds_noise_gaussian inp a (1 # 10)) E).
Defined.

(* ------------------------------------------------------------------ *)
(** ** Edge cases of the configuration *)

Lemma py_or_placeholder_run x shp n g :
  exists v g',
    py_or x (p <- tf.placeholder shp n ;; ret (PT p)) g = (inr v, g') /\
    (g' = g \/ g' = bump g).
Proof.
  unfold py_or. destruct x as [v |].
  - destruct (truthy (Some v)).
    + exists v, g. split; [reflexivity | auto].
    + eexists _, _. split; [reflexivity | auto].
  - eexists _, _. split; [reflexivity | auto].
Qed.

Lemma RecurrentDPG_make_inputs_empty_dims self g :
  policy_dims (spec self) = [] ->
  exists g',
    RecurrentDPG._make_inputs self g = (inl IndexError, g') /\
    g_vars g' = g_vars g /\ g_summaries g' = g_summaries g /\
    g_scope g' = g_scope g /\ (g_uid g <= g_uid g' <= g_uid g + 3)%nat.
Proof.
  intros D. unfold RecurrentDPG._make_inputs.
  destruct (py_or_placeholder_run (attr self "inputs")
              [None; Some (input_dim self)] "inputs" g)
    as (i & g1 & E1 & G1).
  rewrite (bind_run _ _ _ _ _ E1).
  match goal with
  | |- context [py_or ?x (p <- tf.placeholder [None] "q_targets" ;; _)] =>
      destruct (py_or_placeholder_run x [None] "q_targets" g1)
        as (q & g2 & E2 & G2)
  end.
  rewrite (bind_run _ _ _ _ _ E2).
  match goal with
  | |- context [py_or ?x (p <- tf.placeholder [Some 1%Z] "tau" ;; _)] =>
      destruct (py_or_placeholder_run x [Some 1%Z] "tau" g2)
        as (t & g3 & E3 & G3)
  end.
  rewrite (bind_run _ _ _ _ _ E3).
  cbn [spec setattr]. rewrite D. exists g3. split; [reflexivity |].
  destruct G1 as [-> | ->], G2 as [-> | ->], G3 as [-> | ->]; simpl;
    repeat split; lia.
Qed.

(** X4.  The sequence classes read [spec.policy_dims[0]]: with an empty
    [policy_dims] a [PointerNetDPG] raises [IndexError] before the graph
    is touched, and a [RecurrentDPG] (of any subclass) raises it while
    making its inputs, having created no more than the three
    placeholders for [inputs], [q_targets] and [tau]. *)
Theorem empty_policy_dims_raise_IndexError :
  (forall mdp cdims input_dim seq_length bn inputs q_targets tau nz nm g,
      PointerNetDPG.__init__ mdp (mkSpec [] cdims) input_dim seq_length bn
                             inputs q_targets tau nz nm g
      = (inl IndexError, g)) /\
  (forall ov mdp cdims input_dim vocab_size seq_length inputs q_targets tau
          nz nm g,
      nm <> "" ->
      exists g',
        RecurrentDPG.__init__ ov mdp (mkSpec [] cdims) input_dim vocab_size
                              seq_length inputs q_targets tau nz nm g
        = (inl IndexError, g') /\
        g_vars g' = g_vars g /\ g_summaries g' = g_summaries g /\
        g_scope g' = g_scope g /\
        (g_uid g <= g_uid g' <= g_uid g + 3)%nat).
Proof.
  split.
  - reflexivity.
  - intros ov mdp cdims input_dim vocab_size seq_length inputs q_targets tau
           nz nm g N.
    unfold RecurrentDPG.__init__, DPG.__init__, tf.variable_scope.
    apply String.eqb_neq in N. rewrite N.
    cbn [m_make_params m_make_inputs RecurrentDPG.cls].
    unfold DPG._make_params at 1.
    match goal with
    | |- context [bind (ret ?s) _ ?g0] =>
        destruct (RecurrentDPG_make_inputs_empty_dims s g0 eq_refl)
          as (g1 & E & V & S & C & U);
        change (bind (ret s) ?k g0) with (k s g0)
    end.
    cbv beta. cbn [m_make_params m_make_inputs RecurrentDPG.cls].
    rewrite (bind_fail _ _ _ _ _ E).
    exists (tf.set_scope (g_scope g) g1). split; [reflexivity |].
    simpl in *. auto.
Qed.

Lemma empty_policy_dims_raise_IndexError_witness :
  exists g',
    RecurrentDPG.__init__ softmax_feedback (mkMdp 3 2) (mkSpec [] [4]%Z)
                          2 5 2 None None None None "dpg" empty_graph
    = (inl IndexError, g') /\
    g_vars g' = [].
Proof.
  destruct (proj2 empty_policy_dims_raise_IndexError softmax_feedback
              (mkMdp 3 2) [4]%Z 2%Z 5%Z 2%Z None None None None "dpg"
              empty_graph)
    as (g' & E & V & _).
  - discriminate.
  - exists g'. split; assumption.
Defined.

(* ------------------------------------------------------------------ *)
(** ** The handles a constructor is given *)

Lemma returns_ret {A} (a : A) (Q : A -> Prop) : Q a -> returns (ret a) Q.
Proof. intros H g b g' E. apply ret_inr in E. destruct E as [<- _]. exact H. Qed.

Lemma returns_raise {A} e (Q : A -> Prop) : returns (raise e) Q.
Proof. intros g b g' E. discriminate. Qed.

Lemma returns_bind {A B} (m : M A) (k : A -> M B) (Q : B -> Prop) :
  (forall a, returns (k a) Q) -> returns (bind m k) Q.
Proof.
  intros H g b g' E. apply bind_inr in E.
  destruct E as (a & g1 & _ & E). eapply H. exact E.
Qed.

Lemma returns_bind_of {A B} (m : M A) (k : A -> M B) (P : A -> Prop)
    (Q : B -> Prop) :
  returns m P -> (forall a, P a -> returns (k a) Q) -> returns (bind m k) Q.
Proof.
  intros Hm H g b g' E. apply bind_inr in E.
  destruct E as (a & g1 & Ea & E). eapply H; [| exact E].
  eapply Hm. exact Ea.
Qed.

Lemma agrees_refl kept s : agrees kept s s.
Proof. intros k _. reflexivity. Qed.

Lemma agrees_setattr kept base s k v :
  ~ In k kept -> agrees kept base s -> agrees kept base (setattr s k v).
Proof.
  intros N H k' I. rewrite attr_setattr_neq; [apply H; exact I |].
  intros ->. exact (N I).
Qed.

Lemma agrees_trans kept s1 s2 s3 :
  agrees kept s1 s2 -> agrees kept s2 s3 -> agrees kept s1 s3.
Proof. intros H1 H2 k I. rewrite (H2 k I). apply H1. exact I. Qed.

(** Follow an instance through the steps of a method. *)
Ltac notin := simpl; intuition discriminate.

Ltac fr_step :=
  first
    [ apply returns_ret
    | apply returns_raise
    | apply agrees_refl
    | apply agrees_setattr; [notin |]
    | assumption
    | match goal with
      | |- returns (match ?x with _ => _ end) _ => destruct x
      end
    | apply returns_bind; intros ?
    | progress cbv beta zeta ].

Ltac fr := repeat fr_step.

Lemma DPG_make_graph_keeps self :
  returns (DPG._make_graph self) (agrees ["inputs"; "q_targets"; "tau"] self).
Proof. unfold DPG._make_graph. fr. Qed.

Lemma DPG_make_objectives_keeps self :
  returns (DPG._make_objectives self)
          (agrees ["inputs"; "q_targets"; "tau"] self).
Proof. unfold DPG._make_objectives. fr. Qed.

Lemma DPG_make_updates_keeps self :
  returns (DPG._make_updates self)
          (agrees ["inputs"; "q_targets"; "tau"] self).
Proof. unfold DPG._make_updates. fr. Qed.

Lemma RecurrentDPG_make_graph_keeps ov self :
  returns (RecurrentDPG._make_graph ov self)
          (agrees ["inputs"; "q_targets"; "tau"] self).
Proof. unfold RecurrentDPG._make_graph. fr. Qed.

Lemma bn_step_keeps kept base self (k1 : string) (f : tensor -> tensor -> pyval) :
  ~ In k1 kept ->
  agrees kept base self ->
  returns (if bn_actions self
           then bn_beta <- get_tensor self "bn_beta" ;;
                bn_gamma <- get_tensor self "bn_gamma" ;;
                ret (setattr self k1 (f bn_beta bn_gamma))
           else ret self)
          (agrees kept base).
Proof. intros N H. fr. Qed.

Lemma returns_py_or_placeholder x shp n :
  returns (py_or x (p <- tf.placeholder shp n ;; ret (PT p)))
          (fun v => kept_or x (placeholder_of n shp) (Some v)).
Proof.
  intros g v g' H. apply py_or_placeholder_inr in H. unfold kept_or.
  destruct H as [(-> & -> & _) | (-> & -> & _)]; [reflexivity |].
  eexists. reflexivity.
Qed.

Lemma mapM_placeholder_inr shp n l : forall g ps g',
  mapM (fun _ : nat => tf.placeholder shp n) l g = (inr ps, g') ->
  length ps = length l /\
  Forall (fun p => exists u, p = Placeholder u n shp) ps.
Proof.
  induction l as [| x l IH]; intros g ps g' H; simpl in H.
  - mret H. split; [reflexivity | constructor].
  - mstep H as K p g1. rewrite placeholder_run in K. inversion K; subst.
    mstep H as K2 ps' g2. apply IH in K2. destruct K2 as (L & F).
    mret H. simpl. split; [congruence |]. constructor; [eauto | exact F].
Qed.

Lemma length_range n : length (range n) = Z.to_nat n.
Proof. unfold range. apply length_seq. Qed.

Lemma returns_placeholders shp n count :
  returns (mapM (fun _ : nat => tf.placeholder shp n) (range count))
          (fun ps => placeholders n shp count (Some (PL ps))).
Proof.
  intros g ps g' H. apply mapM_placeholder_inr in H. destruct H as (L & F).
  exists ps. rewrite L, length_range. auto.
Qed.

(** What the three [_make_inputs] leave in [inputs], [q_targets] and
    [tau]. *)
Lemma DPG_make_inputs_returns self :
  returns (DPG._make_inputs self)
    (fun s' =>
       kept_or (attr self "inputs")
               (placeholder_of "inputs" [None; Some (state_dim (mdp_spec self))])
               (attr s' "inputs") /\
       kept_or (attr self "q_targets") (placeholder_of "q_targets" [None])
               (attr s' "q_targets") /\
       kept_or (attr self "tau") (placeholder_of "tau" [Some 1%Z])
               (attr s' "tau")).
Proof.
  unfold DPG._make_inputs.
  eapply returns_bind_of; [apply returns_py_or_placeholder |]. intros i Hi.
  eapply returns_bind_of; [apply returns_py_or_placeholder |]. intros q Hq.
  eapply returns_bind_of; [apply returns_py_or_placeholder |]. intros t Ht.
  apply returns_ret. attrs. attrs_in Hq. attrs_in Ht. auto.
Qed.

Lemma RecurrentDPG_make_inputs_returns self :
  returns (RecurrentDPG._make_inputs self)
    (fun s' =>
       kept_or (attr self "inputs")
               (placeholder_of "inputs" [None; Some (input_dim self)])
               (attr s' "inputs") /\
       kept_or (attr self "q_targets") (placeholder_of "q_targets" [None])
               (attr s' "q_targets") /\
       kept_or (attr self "tau") (placeholder_of "tau" [Some 1%Z])
               (attr s' "tau")).
Proof.
  unfold RecurrentDPG._make_inputs.
  eapply returns_bind_of; [apply returns_py_or_placeholder |]. intros i Hi.
  eapply returns_bind_of; [apply returns_py_or_placeholder |]. intros q Hq.
  eapply returns_bind_of; [apply returns_py_or_placeholder |]. intros t Ht.
  fr. attrs. attrs_in Hq. attrs_in Ht. auto.
Qed.

Lemma PointerNetDPG_make_inputs_returns self :
  returns (PointerNetDPG._make_inputs self)
    (fun s' =>
       kept_or (attr self "inputs")
               (placeholders "" [None; Some (input_dim self)]
                             (seq_length self))
               (attr s' "inputs") /\
       attr s' "q_targets" = attr self "q_targets" /\
       kept_or (attr self "tau") (placeholder_of "tau" [Some 1%Z])
               (attr s' "tau") /\
       seq_length s' = seq_length self).
Proof.
  unfold PointerNetDPG._make_inputs.
  apply (returns_bind_of _ _
           (fun s1 =>
              kept_or (attr self "inputs")
                      (placeholders "" [None; Some (input_dim self)]
                                    (seq_length self))
                      (attr s1 "inputs") /\
              agrees ["q_targets"; "tau"] self s1 /\
              seq_length s1 = seq_length self)).
  - unfold kept_or. destruct (truthy (attr self "inputs")); simpl.
    + apply returns_ret. split; [reflexivity |].
      split; [apply agrees_refl | reflexivity].
    + eapply returns_bind_of; [apply returns_placeholders |]. intros ps Hp.
      apply returns_ret. attrs. split; [exact Hp |].
      split; [| reflexivity]. apply agrees_setattr; [notin |].
      apply agrees_refl.
  - intros s1 (I & A & L).
    eapply returns_bind_of; [apply returns_py_or_placeholder |]. intros t Ht.
    apply returns_ret. attrs. rewrite (A "tau") in Ht by (simpl; auto).
    rewrite (A "q_targets") by (simpl; auto). auto.
Qed.

Lemma PointerNetDPG_make_q_targets_returns kept self :
  ~ In "q_targets" kept ->
  returns (PointerNetDPG._make_q_targets self)
    (fun s' =>
       agrees kept self s' /\
       kept_or (attr self "q_targets")
               (placeholders "" [None] (seq_length self))
               (attr s' "q_targets")).
Proof.
  intros N. unfold PointerNetDPG._make_q_targets, kept_or.
  destruct (truthy (attr self "q_targets")); simpl.
  - apply returns_ret. split; [apply agrees_refl | reflexivity].
  - eapply returns_bind_of; [apply returns_placeholders |]. intros ps Hp.
    apply returns_ret. attrs. split; [| exact Hp].
    apply agrees_setattr; [exact N |]. apply agrees_refl.
Qed.

Lemma PointerNetDPG_make_graph_returns self :
  returns (PointerNetDPG._make_graph self)
    (fun s' =>
       agrees ["inputs"; "tau"] self s' /\
       kept_or (attr self "q_targets")
               (placeholders "" [None] (seq_length self))
               (attr s' "q_targets")).
Proof.
  unfold PointerNetDPG._make_graph.
  repeat first
    [ match goal with
      | |- returns (bind (if bn_actions _ then _ else _) _) _ =>
          apply (returns_bind_of _ _
                   (fun a => agrees ["inputs"; "q_targets"; "tau"] self a /\
                             seq_length a = seq_length self));
          [ cbn [bn_actions setattr];
            destruct (bn_actions self); fr; (split; [fr | reflexivity])
          | intros ? (? & ?) ]
      | |- returns (PointerNetDPG._make_q_targets ?s) _ =>
          let A := fresh "A" in
          let K := fresh "K" in
          intros ? ? ? K;
          apply (PointerNetDPG_make_q_targets_returns ["inputs"; "tau"])
            in K; [| notin];
          destruct K as (A & K); cbn [seq_length setattr] in K
      end
    | fr_step ].
  match goal with
  | A0 : agrees _ self ?s0, L : seq_length ?s0 = _,
    K : kept_or (attr ?s _) _ _ |- _ =>
      assert (B : agrees ["inputs"; "q_targets"; "tau"] self s) by fr
  end.
  split.
  - intros k I. rewrite (A k I). apply B. simpl in *. tauto.
  - rewrite (B "q_targets") in K by (simpl; auto). congruence.
Qed.

Lemma init_self_handles self mdp sp inputs q_targets tau nz nm :
  attrs self = [] ->
  attr (init_self self mdp sp inputs q_targets tau nz nm) "inputs" = inputs /\
  attr (init_self self mdp sp inputs q_targets tau nz nm) "q_targets"
    = q_targets /\
  attr (init_self self mdp sp inputs q_targets tau nz nm) "tau" = tau.
Proof.
  intros E. repeat split; rewrite init_self_attr by auto; reflexivity.
Qed.

Lemma kept_or_agrees supplied made v v' :
  v' = v -> kept_or supplied made v -> kept_or supplied made v'.
Proof. intros ->. exact (fun H => H). Qed.

Lemma DPG_handles mdp sp inputs q_targets tau nz nm g self g' :
  DPG.new mdp sp inputs q_targets tau nz nm g = (inr self, g') ->
  kept_or inputs (placeholder_of "inputs" [None; Some (state_dim mdp)])
          (attr self "inputs") /\
  kept_or q_targets (placeholder_of "q_targets" [None])
          (attr self "q_targets") /\
  kept_or tau (placeholder_of "tau" [Some 1%Z]) (attr self "tau").
Proof.
  intros H.
  apply DPG_new_inr in H.
  destruct H as (s2 & g2 & s3 & g3 & s4 & g4 & K2 & K3 & K4 & K5 & _).
  apply DPG_make_inputs_returns in K2. apply DPG_make_graph_keeps in K3.
  apply DPG_make_objectives_keeps in K4. apply DPG_make_updates_keeps in K5.
  pose proof (agrees_trans _ _ _ _ (agrees_trans _ _ _ _ K3 K4) K5) as A.
  destruct (init_self_handles blank mdp sp inputs q_targets tau nz nm
              eq_refl) as (E1 & E2 & E3).
  rewrite E1, E2, E3 in K2. destruct K2 as (I & Q & T).
  repeat split;
    (eapply kept_or_agrees; [apply A; simpl; auto | assumption]).
Qed.

Lemma RecurrentDPG_handles ov mdp sp idim vocab slen inputs q_targets tau
    nz nm g self g' :
  RecurrentDPG.__init__ ov mdp sp idim vocab slen inputs q_targets tau nz nm
                        g = (inr self, g') ->
  kept_or inputs (placeholder_of "inputs" [None; Some idim])
          (attr self "inputs") /\
  kept_or q_targets (placeholder_of "q_targets" [None])
          (attr self "q_targets") /\
  kept_or tau (placeholder_of "tau" [Some 1%Z]) (attr self "tau").
Proof.
  intros H.
  apply RecurrentDPG_init_inr in H.
  destruct H as (s2 & g2 & s3 & g3 & K2 & K3 & K4 & _).
  apply RecurrentDPG_make_inputs_returns in K2.
  apply RecurrentDPG_make_graph_keeps in K3.
  apply DPG_make_objectives_keeps in K4.
  pose proof (agrees_trans _ _ _ _ K3 K4) as A.
  destruct (init_self_handles
              (set_sequence_config blank idim vocab slen false)
              mdp sp inputs q_targets tau nz nm eq_refl) as (E1 & E2 & E3).
  rewrite E1, E2, E3 in K2. destruct K2 as (I & Q & T).
  repeat split;
    (eapply kept_or_agrees; [apply A; simpl; auto | assumption]).
Qed.

Lemma PointerNetDPG_handles mdp sp idim slen bn inputs q_targets tau nz nm
    g self g' :
  PointerNetDPG.__init__ mdp sp idim slen bn inputs q_targets tau nz nm g
    = (inr self, g') ->
  kept_or inputs (placeholders "" [None; Some idim] slen)
          (attr self "inputs") /\
  kept_or q_targets (placeholders "" [None] slen) (attr self "q_targets") /\
  kept_or tau (placeholder_of "tau" [Some 1%Z]) (attr self "tau").
Proof.
  intros H.
  apply PointerNetDPG_init_inr in H.
  destruct H as (d0 & s1 & g1 & s2 & g2 & s3 & g3 & g4 & _ & _ & K1 & K2
                 & K3 & K4 & _).
  apply PointerNetDPG_make_objectives_inr in K4. simpl in K4.
  destruct K4 as (F & _).
  apply PointerNetDPG_make_graph_returns in K3. destruct K3 as (A3 & Q3).
  apply PointerNetDPG_make_inputs_returns in K2.
  destruct K2 as (I2 & Q2 & T2 & L2).
  destruct (init_self_handles
              (set_sequence_config blank idim 0 slen bn)
              mdp sp inputs q_targets tau nz nm eq_refl) as (E1 & E2 & E3).
  assert (P : attr s1 "inputs" = inputs /\ attr s1 "q_targets" = q_targets
              /\ attr s1 "tau" = tau /\ input_dim s1 = idim
              /\ seq_length s1 = slen).
  { apply PointerNetDPG_make_params_inr in K1.
    destruct K1 as [(_ & -> & _) | (_ & b & c & vb & vg & -> & _)];
      attrs; auto. }
  destruct P as (P1 & P2 & P3 & P4 & P5).
  rewrite P1, P4, P5 in I2. rewrite P3 in T2. rewrite P2 in Q2.
  rewrite Q2, L2, P5 in Q3.
  assert (N : forall k, In k ["inputs"; "q_targets"; "tau"] ->
                        ~ In k objective_keys).
  { intros k Hk Ho. simpl in Hk, Ho.
    repeat (destruct Hk as [<- | Hk];
            [repeat (destruct Ho as [Ho | Ho]; [discriminate |]);
             exact Ho |]).
    exact Hk. }
  rewrite !F by (apply N; simpl; auto).
  rewrite (A3 "inputs"), (A3 "tau") by (simpl; auto). auto.
Qed.

(** X5.  The constructors keep what they are given: a supplied
    [inputs], [q_targets] or [tau] that counts as true is the instance's
    handle of that name, unchanged by the rest of construction;
    otherwise the handle is a placeholder made for it -- of shape
    [(None, state_dim)] for the inputs of the base class and
    [(None, input_dim)] for a recurrent one, [(None,)] for the targets
    and [(1,)] for [tau] -- and, in a pointer network, a list of
    [seq_length] placeholders for the inputs and for the targets (an
    empty list counts as not supplied). *)
Theorem handles_are_kept_or_made :
  (forall mdp sp inputs q_targets tau nz nm g self g',
      DPG.new mdp sp inputs q_targets tau nz nm g = (inr self, g') ->
      kept_or inputs (placeholder_of "inputs" [None; Some (state_dim mdp)])
              (attr self "inputs") /\
      kept_or q_targets (placeholder_of "q_targets" [None])
              (attr self "q_targets") /\
      kept_or tau (placeholder_of "tau" [Some 1%Z]) (attr self "tau")) /\
  (forall ov mdp sp input_dim vocab_size seq_length inputs q_targets tau
          nz nm g self g',
      RecurrentDPG.__init__ ov mdp sp input_dim vocab_size seq_length inputs
                            q_targets tau nz nm g = (inr self, g') ->
      kept_or inputs (placeholder_of "inputs" [None; Some input_dim])
              (attr self "inputs") /\
      kept_or q_targets (placeholder_of "q_targets" [None])
              (attr self "q_targets") /\
      kept_or tau (placeholder_of "tau" [Some 1%Z]) (attr self "tau")) /\
  (forall mdp sp input_dim seq_length bn inputs q_targets tau nz nm g self
          g',
      PointerNetDPG.__init__ mdp sp input_dim seq_length bn inputs q_targets
                             tau nz nm g = (inr self, g') ->
      kept_or inputs (placeholders "" [None; Some input_dim] seq_length)
              (attr self "inputs") /\
      kept_or q_targets (placeholders "" [None] seq_length)
              (attr self "q_targets") /\
      kept_or tau (placeholder_of "tau" [Some 1%Z]) (attr self "tau")).
Proof.
  repeat apply conj.
  - intros mdp sp inputs q_targets tau nz nm g self g' H.
      eapply DPG_handles. exact H.
  - intros ov mdp sp idim vocab slen inputs q_targets tau nz nm g self g' H.
      eapply RecurrentDPG_handles. exact H.
  - intros mdp sp idim slen bn inputs q_targets tau nz nm g self g' H.
      eapply PointerNetDPG_handles. exact H.
Qed.

Lemma handles_are_kept_or_made_witness :
  exists self g',
    PointerNetDPG.__init__ (mkMdp 6 1) (mkSpec [3]%Z []) 1 2 false
                           (Some (PL [])) None
                           (Some (PT (Placeholder 7 "my_tau" [Some 1%Z])))
                           None "dpg" empty_graph
    = (inr self, g') /\
    placeholders "" [None; Some 1%Z] 2 (attr self "inputs") /\
    attr self "tau" = Some (PT (Placeholder 7 "my_tau" [Some 1%Z])).
Proof.
  destruct (succeeded_inr
              (PointerNetDPG.__init__ (mkMdp 6 1) (mkSpec [3]%Z []) 1 2 false
                 (Some (PL [])) None
                 (Some (PT (Placeholder 7 "my_tau" [Some 1%Z])))
                 None "dpg" empty_graph))
    as (self & g' & E); [vm_compute; reflexivity |].
  destruct (proj2 (proj2 handles_are_kept_or_made) _ _ _ _ _ _ _ _ _ _ _ _ _ E)
    as (I & _ & T).
  exists self, g'. split; [exact E |]. split; [exact I | exact T].
Defined.

(* ------------------------------------------------------------------ *)
(** ** Sequence lengths *)

Lemma rnn_steps_length cell inputs : forall time state g outs states g',
  rnn.rnn_steps cell time state inputs g = (inr (outs, states), g') ->
  length outs = length inputs /\ length states = length inputs.
Proof.
  induction inputs as [| x inputs IH]; intros time state g outs states g' H;
    simpl in H.
  - apply ret_inr in H. destruct H as [E _]. inversion E. auto.
  - mstep H as K0 u g1. mstep H as K1 os g2. destruct os as [o s'].
    mstep H as K2 r g3. destruct r as [outs' states'].
    apply IH in K2. destruct K2 as (L1 & L2).
    apply ret_inr in H. destruct H as [E _]. inversion E; subst.
    simpl. auto.
Qed.

Lemma rnn_length cell inputs scope g outs states g' :
  rnn.rnn cell inputs scope g = (inr (outs, states), g') ->
  inputs <> [] /\ length outs = length inputs /\
  length states = length inputs.
Proof.
  unfold rnn.rnn. destruct inputs as [| x rest]; [discriminate |].
  intros H. apply variable_scope_inr in H. destruct H as (g1 & H & _).
  cbv zeta in H. apply rnn_steps_length in H.
  split; [discriminate | exact H].
Qed.

Lemma length_split axis num t :
  length (tf.split axis num t) = Z.to_nat num.
Proof. unfold tf.split. rewrite length_map. apply length_range. Qed.

Lemma PointerNetDPG_make_graph_normalised self :
  returns (PointerNetDPG._make_graph self)
    (fun s' =>
       bn_actions self = true ->
       exists a_pred,
         attr s' "a_pred" = Some (PL a_pred) /\
         length a_pred = Z.to_nat (seq_length self)).
Proof.
  unfold PointerNetDPG._make_graph.
  repeat first
    [ match goal with
      | |- returns (bind (if bn_actions _ then _ else _) _) _ =>
          apply (returns_bind_of _ _
                   (fun a =>
                      bn_actions self = true ->
                      exists a_pred,
                        attr a "a_pred" = Some (PL a_pred) /\
                        length a_pred = Z.to_nat (seq_length self)));
          [ cbn [bn_actions seq_length setattr];
            destruct (bn_actions self); fr;
            [ intros _; eexists; attrs;
              split; [reflexivity | apply length_split]
            | discriminate ]
          | intros ? ? ]
      | |- returns (PointerNetDPG._make_q_targets ?s) _ =>
          let A := fresh "A" in
          let K := fresh "K" in
          intros ? ? ? K;
          apply (PointerNetDPG_make_q_targets_returns ["a_pred"]) in K;
          [| notin]; destruct K as (A & _)
      end
    | fr_step ].
  intros BN.
  match goal with
  | P : bn_actions self = true -> _ |- _ =>
      destruct (P BN) as (ap & E & L)
  end.
  exists ap. split; [| exact L].
  rewrite (A "a_pred") by (simpl; auto). attrs. exact E.
Qed.

Lemma PointerNetDPG_lengths mdp sp idim slen bn inputs q_targets tau nz nm
    g self g' :
  PointerNetDPG.__init__ mdp sp idim slen bn inputs q_targets tau nz nm g
    = (inr self, g') ->
  exists ins es,
    attr self "inputs" = Some (PL ins) /\
    attr self "encoder_states" = Some (PL es) /\
    Z.of_nat (length ins) = slen /\ length es = length ins /\
    (1 <= slen)%Z /\
    (bn = true ->
     exists a_pred,
       attr self "a_pred" = Some (PL a_pred) /\
       Z.of_nat (length a_pred) = slen).
Proof.
  intros H. apply PointerNetDPG_init_inr in H.
  destruct H as (d0 & s1 & g1 & s2 & g2 & s3 & g3 & g4 & _ & _ & K1 & K2 & K3
                 & K4 & _).
  apply PointerNetDPG_make_objectives_inr in K4. simpl in K4.
  destruct K4 as (F & _).
  pose proof (PointerNetDPG_make_graph_returns _ _ _ _ K3) as (A3 & _).
  pose proof (PointerNetDPG_make_graph_normalised _ _ _ _ K3) as N3.
  apply PointerNetDPG_make_graph_inr in K3.
  destruct K3 as (d0' & ins & outs & es & g1' & last & araw & dst & din & g2'
                  & ap & ae & g3' & _ & I & R & L & _ & _ & _ & _ & K3).
  simpl in K3. destruct K3 as (ES & _).
  apply rnn_length in R. destruct R as (NE & _ & LE).
  apply PointerNetDPG_make_inputs_inr in K2.
  destruct K2 as (_ & BN2 & _ & _ & L2 & _).
  assert (P : bn_actions s1 = bn /\ seq_length s1 = slen).
  { apply PointerNetDPG_make_params_inr in K1.
    destruct K1 as [(_ & -> & _) | (_ & b & c & vb & vg & -> & _)];
      split; reflexivity. }
  destruct P as (P1 & P2).
  assert (NK : forall k, In k ["inputs"; "encoder_states"; "a_pred"] ->
                         ~ In k objective_keys).
  { intros k Hk Ho. simpl in Hk, Ho.
    repeat (destruct Hk as [<- | Hk];
            [repeat (destruct Ho as [Ho | Ho]; [discriminate |]);
             exact Ho |]).
    exact Hk. }
  assert (LS : Z.of_nat (length ins) = slen) by (rewrite <- LE; congruence).
  exists ins, es. rewrite !F by (apply NK; simpl; auto).
  rewrite (A3 "inputs") by (simpl; auto).
  repeat split; try assumption.
  - destruct ins; [congruence | cbn [Datatypes.length] in LS; lia].
  - intros ->. destruct N3 as (a_pred & E & La); [congruence |].
    exists a_pred. split; [exact E |]. rewrite La.
    rewrite L2, P2. apply Z2Nat.id. lia.
Qed.

(** X6.  Every constructed pointer network has one input and one
    encoder state per timestep: the [inputs] it ends up with and the
    encoder states are lists of exactly [seq_length] entries, with
    [seq_length >= 1], and under [bn_actions] so is [a_pred].  So a
    pointer network cannot be constructed with [seq_length <= 0], nor
    with a supplied list of inputs of another length than
    [seq_length]: the constructor raises. *)
Theorem pointer_network_sequence_lengths :
  (forall mdp sp input_dim seq_length bn inputs q_targets tau nz nm g self
          g',
      PointerNetDPG.__init__ mdp sp input_dim seq_length bn inputs q_targets
                             tau nz nm g = (inr self, g') ->
      exists ins es,
        attr self "inputs" = Some (PL ins) /\
        attr self "encoder_states" = Some (PL es) /\
        Z.of_nat (length ins) = seq_length /\ length es = length ins /\
        (1 <= seq_length)%Z /\
        (bn = true ->
         exists a_pred,
           attr self "a_pred" = Some (PL a_pred) /\
           Z.of_nat (length a_pred) = seq_length)) /\
  (forall mdp sp input_dim seq_length bn inputs q_targets tau nz nm g,
      (seq_length <= 0)%Z \/
      (exists l, inputs = Some (PL l) /\ l <> [] /\
                 Z.of_nat (length l) <> seq_length) ->
      exists e g',
        PointerNetDPG.__init__ mdp sp input_dim seq_length bn inputs q_targets
                               tau nz nm g = (inl e, g')).
Proof.
  split.
  - intros mdp sp idim slen bn inputs q_targets tau nz nm g self g' H.
    eapply PointerNetDPG_lengths. exact H.
  - intros mdp sp idim slen bn inputs q_targets tau nz nm g C.
    destruct (PointerNetDPG.__init__ mdp sp idim slen bn inputs q_targets tau
                nz nm g) as [[e | self] g'] eqn:H; [eauto |].
    exfalso.
    pose proof (PointerNetDPG_handles _ _ _ _ _ _ _ _ _ _ _ _ _ H)
      as (K & _).
    apply PointerNetDPG_lengths in H.
    destruct H as (ins & es & I & _ & L & _ & P & _).
    destruct C as [C | (l & -> & NE & C)]; [lia |].
    unfold kept_or in K. destruct l as [| x l]; [congruence |].
    simpl in K. rewrite I in K. inversion K; subst. apply C. reflexivity.
Qed.

Lemma pointer_network_sequence_lengths_witness :
  (exists self g' ins,
      PointerNetDPG.__init__ (mkMdp 6 1) (mkSpec [3]%Z []) 1 2 true
                             None None None None "dpg" empty_graph
      = (inr self, g') /\
      attr self "inputs" = Some (PL ins) /\ length ins = 2%nat) /\
  (exists e g',
      PointerNetDPG.__init__ (mkMdp 6 1) (mkSpec [3]%Z []) 1 3 false
                             (Some (PL [Placeholder 0 "x" [];
                                        Placeholder 1 "y" []]))
                             None None None "dpg" empty_graph
      = (inl e, g')).
Proof.
  split.
  - destruct (succeeded_inr
                (PointerNetDPG.__init__ (mkMdp 6 1) (mkSpec [3]%Z []) 1 2
                   true None None None None "dpg" empty_graph))
      as (self & g' & E); [vm_compute; reflexivity |].
    destruct (proj1 pointer_network_sequence_lengths
                _ _ _ _ _ _ _ _ _ _ _ _ _ E)
      as (ins & es & I & _ & L & _).
    exists self, g', ins. split; [exact E |]. split; [exact I | lia].
  - apply (proj2 pointer_network_sequence_lengths).
    right. eexists. split; [reflexivity |]. split; [discriminate |].
    simpl. lia.
Defined.

Lemma rnn_decoder_steps_length cell lf inputs :
  forall i prev state g outs states g',
    seq2seq.rnn_decoder_steps cell lf i prev state inputs g
      = (inr (outs, states), g') ->
    length outs = length inputs /\ length states = length inputs.
Proof.
  induction inputs as [| x inputs IH];
    intros i prev state g outs states g' H; simpl in H.
  - apply ret_inr in H. destruct H as [E _]. inversion E. auto.
  - mstep H as K0 inp' g1. mstep H as K1 u g2. mstep H as K2 os g3.
    destruct os as [o s']. mstep H as K3 r g4. destruct r as [outs' states'].
    apply IH in K3. destruct K3 as (L1 & L2).
    apply ret_inr in H. destruct H as [E _]. inversion E; subst.
    simpl. auto.
Qed.

Lemma rnn_decoder_length inputs init cell lf g outs states g' :
  seq2seq.rnn_decoder inputs init cell lf g = (inr (outs, states), g') ->
  length outs = length inputs /\ length (tl states) = length inputs.
Proof.
  unfold seq2seq.rnn_decoder. intros H.
  apply variable_scope_inr in H. destruct H as (g1 & H & _).
  mstep H as K r g2. destruct r as [outs' states'].
  apply rnn_decoder_steps_length in K.
  apply ret_inr in H. destruct H as [E _]. inversion E; subst. exact K.
Qed.

Lemma noise_gaussian_list_length inp l stddev g r g' :
  noise_gaussian inp (PL l) stddev g = (inr r, g') ->
  exists l', r = PL l' /\ length l' = length l.
Proof.
  intros H. simpl in H.
  destruct (noise_list_run stddev l g) as (noised & g1 & E & F & _).
  rewrite (bind_run _ _ _ _ _ E) in H. mret H.
  exists noised. split; [reflexivity |].
  symmetry. eapply Forall2_length. exact F.
Qed.

Lemma RecurrentDPG_lengths ov mdp sp idim vocab slen inputs q_targets tau nz
    nm g self g' :
  RecurrentDPG.__init__ ov mdp sp idim vocab slen inputs q_targets tau nz nm
                        g = (inr self, g') ->
  exists a_pred states a_explore con coff,
    attr self "a_pred" = Some (PL a_pred) /\
    attr self "decoder_states" = Some (PL states) /\
    attr self "a_explore" = Some (PL a_explore) /\
    attr self "critic_on_seq" = Some (PL con) /\
    attr self "critic_off_seq" = Some (PL coff) /\
    length a_pred = Z.to_nat slen /\
    length states = Z.to_nat slen /\
    length con = Z.to_nat slen /\
    length coff = Nat.min (Z.to_nat slen) (length a_explore) /\
    (nz = None -> length a_explore = Z.to_nat slen).
Proof.
  intros H. apply RecurrentDPG_init_inr in H.
  destruct H as (s2 & g2 & s3 & g3 & K2 & K3 & K4 & _).
  assert (F : forall k, In k ["a_pred"; "decoder_states"; "a_explore";
                              "critic_on_seq"; "critic_off_seq"] ->
                        attr self k = attr s3 k).
  { intros k Hk. eapply DPG_make_objectives_frame; [exact K4 |].
    intros Ho. simpl in Hk, Ho.
    repeat (destruct Hk as [<- | Hk];
            [repeat (destruct Ho as [Ho | Ho]; [discriminate |]);
             exact Ho |]).
    exact Hk. }
  apply RecurrentDPG_make_graph_inr in K3.
  destruct K3 as (d0 & i & lf & g1 & ap & st0 & g2' & ae & g3' & g4 & dsi
                  & api & sti & g5 & aei & g6 & _ & _ & _ & D & Z & _ & _ & _
                  & _ & K3).
  simpl in K3. destruct K3 as (-> & _).
  apply rnn_decoder_length in D. rewrite length_map, length_range in D.
  destruct D as (L1 & L2).
  apply RecurrentDPG_make_inputs_inr in K2.
  destruct K2 as (i' & q' & t' & d0' & gx & -> & _).
  simpl in L1, L2.
  eexists ap, (tl st0), ae, _, _.
  rewrite !F by (simpl; auto 10). attrs.
  repeat split; try reflexivity; try assumption.
  - rewrite map2_length, L1, L2. apply Nat.min_id.
  - rewrite map2_length, L2. reflexivity.
  - intros ->.
    change (noise_gaussian (PT i) (PL ap) (1 # 10) g2' = (inr (PL ae), g3'))
      in Z.
    apply noise_gaussian_list_length in Z.
    destruct Z as (l' & E & L). inversion E; subst. congruence.
Qed.

(** X7.  The rollout of a constructed recurrent instance has one entry
    per timestep: [a_pred], [decoder_states] (the initial state
    dropped) and [critic_on_seq] are lists of [seq_length] entries (none
    when [seq_length <= 0]); [critic_off_seq] has as many entries as
    the noiser returned actions, at most [seq_length], and with the
    default noiser [a_explore] and [critic_off_seq] have [seq_length]
    entries too. *)
Theorem recurrent_rollout_lengths :
  forall ov mdp sp input_dim vocab_size seq_length inputs q_targets tau nz nm
         g self g',
    RecurrentDPG.__init__ ov mdp sp input_dim vocab_size seq_length inputs
                          q_targets tau nz nm g = (inr self, g') ->
    exists a_pred states a_explore con coff,
      attr self "a_pred" = Some (PL a_pred) /\
      attr self "decoder_states" = Some (PL states) /\
      attr self "a_explore" = Some (PL a_explore) /\
      attr self "critic_on_seq" = Some (PL con) /\
      attr self "critic_off_seq" = Some (PL coff) /\
      length a_pred = Z.to_nat seq_length /\
      length states = Z.to_nat seq_length /\
      length con = Z.to_nat seq_length /\
      length coff = Nat.min (Z.to_nat seq_length) (length a_explore) /\
      (nz = None ->
       length a_explore = Z.to_nat seq_length /\
       length coff = Z.to_nat seq_length).
Proof.
  intros ov mdp sp idim vocab slen inputs q_targets tau nz nm g self g' H.
  apply RecurrentDPG_lengths in H.
  destruct H as (ap & st & ae & con & coff & E1 & E2 & E3 & E4 & E5 & L1 & L2
                 & L3 & L4 & L5).
  exists ap, st, ae, con, coff. repeat split; try assumption.
  - apply L5. assumption.
  - rewrite L4, (L5 H). apply Nat.min_id.
Qed.

Lemma recurrent_rollout_lengths_witness :
  exists self g' con,
    RecurrentDPG.__init__ softmax_feedback (mkMdp 3 2) (mkSpec [3]%Z [4]%Z)
                          2 5 2 None None None None "dpg" empty_graph
    = (inr self, g') /\
    attr self "critic_on_seq" = Some (PL con) /\ length con = 2%nat.
Proof.
  destruct (succeeded_inr
              (RecurrentDPG.__init__ softmax_feedback (mkMdp 3 2)
                 (mkSpec [3]%Z [4]%Z) 2 5 2 None None None None "dpg"
                 empty_graph))
    as (self & g' & E); [vm_compute; reflexivity |].
  destruct (recurrent_rollout_lengths _ _ _ _ _ _ _ _ _ _ _ _ _ _ E)
    as (ap & st & ae & con & coff & _ & _ & _ & E4 & _ & _ & _ & L3 & _).
  exists self, g', con. split; [exact E |]. split; [exact E4 | exact L3].
Defined.

(* ------------------------------------------------------------------ *)
(** ** The tracking networks of the base class *)

Lemma DPG_make_graph_tracking self g self' g' :
  DPG._make_graph self g = (inr self', g') ->
  exists inputs sc gn,
    attr self "inputs" = Some (PT inputs) /\
    sc = vs_name (g_scope g) /\
    attr self' "a_pred"
      = Some (PT (policy_net (tf.join_scope sc "policy") (spec self) inputs))
    /\
    attr self' "a_pred_track"
      = Some (PT (policy_net (tf.join_scope (vs_name (g_scope gn))
                                            "policy_track")
                             (spec self) inputs)) /\
    attr self' "critic_on_track"
      = Some (PT (critic_net (tf.join_scope (vs_name (g_scope gn))
                                            "critic_track")
                             (spec self) inputs
                             (policy_net (tf.join_scope sc "policy")
                                         (spec self) inputs))) /\
    ((forall inp a r g1 g2,
         noiser self inp a g1 = (r, g2) -> g_scope g2 = g_scope g1) ->
     g_scope gn = g_scope g).
Proof.
  unfold DPG._make_graph. intros H.
  mstep H as K1 inputs g0. mget K1.
  mstep H as K2 a_pred g1. simpl in K2. apply policy_model_inr in K2.
  destruct K2 as (-> & X2 & _).
  mstep H as K3 a_explore g2.
  mstep H as K4 critic_on g3. simpl in K4. apply critic_model_inr in K4.
  destruct K4 as (-> & X4 & _).
  mstep H as K5 a_explore_t g4. mget K5.
  mstep H as K6 critic_off g5. simpl in K6. apply critic_model_inr in K6.
  destruct K6 as (-> & X6 & U6). rewrite (U6 eq_refl) in *. clear U6 X6.
  mstep H as K7 a_pred_track g6. simpl in K7.
  apply policy_model_inr in K7. destruct K7 as (-> & X7 & _).
  mstep H as K8 critic_on_track g7. simpl in K8.
  apply critic_model_inr in K8. destruct K8 as (-> & X8 & _).
  mret H. rewrite (extends_scope _ _ X7).
  exists inputs, (vs_name (g_scope g)), g3. attrs.
  repeat split; try assumption; try reflexivity.
  intros Hn. simpl in K3. apply Hn in K3.
  rewrite (extends_scope _ _ X4), K3. apply (extends_scope _ _ X2).
Qed.

(** X9.  The tracking critic of the base class is fed the live action:
    [critic_on_track] is the critic network of the [critic_track] scope
    applied to the inputs and to [a_pred], the output of the live
    [policy] network -- not to [a_pred_track], the output of the
    [policy_track] network on the same inputs.  With a
    noiser that leaves the variable scope alone the three scopes are
    [<name>/policy], [<name>/policy_track] and [<name>/critic_track]
    under the scope the constructor was called in. *)
Theorem tracking_critic_is_fed_the_live_action :
  forall mdp sp inputs q_targets tau nz nm g self g',
    DPG.new mdp sp inputs q_targets tau nz nm g = (inr self, g') ->
    exists inputs' sc sc',
      attr self "inputs" = Some (PT inputs') /\
      attr self "a_pred"
        = Some (PT (policy_net (tf.join_scope sc "policy") sp inputs')) /\
      attr self "a_pred_track"
        = Some (PT (policy_net (tf.join_scope sc' "policy_track") sp
                               inputs')) /\
      attr self "critic_on_track"
        = Some (PT (critic_net (tf.join_scope sc' "critic_track") sp inputs'
                               (policy_net (tf.join_scope sc "policy") sp
                                           inputs'))) /\
      sc = tf.join_scope (vs_name (g_scope g)) nm /\
      ((forall inp a r g1 g2,
           noiser_of nz inp a g1 = (r, g2) -> g_scope g2 = g_scope g1) ->
       sc' = sc).
Proof.
  intros mdp sp inputs q_targets tau nz nm g self g' H.
  apply DPG_new_inr in H.
  destruct H as (s2 & g2 & s3 & g3 & s4 & g4 & K2 & K3 & K4 & K5 & _).
  apply DPG_make_updates_inr in K5. destruct K5 as (_ & pu & cu & ->).
  apply make_objectives_inr in K4.
  destruct K4 as (con & coff & tg & _ & _ & _ & _ & ->).
  pose proof (DPG_make_graph_keeps _ _ _ _ K3) as A.
  apply DPG_make_graph_tracking in K3.
  destruct K3 as (i & sc & gn & I & -> & E1 & E2 & E3 & S).
  apply DPG_make_inputs_inr in K2.
  destruct K2 as (i' & q' & t' & -> & _ & _ & _ & _ & S2 & _).
  exists i, (vs_name (g_scope g2)), (vs_name (g_scope gn)). attrs.
  rewrite (A "inputs") by (simpl; auto).
  simpl in E1, E2, E3.
  repeat split; try assumption.
  - rewrite S2. reflexivity.
  - intros Hn. rewrite S; [reflexivity |]. exact Hn.
Qed.

Lemma tracking_critic_is_fed_the_live_action_witness :
  exists self g' inputs',
    DPG.new (mkMdp 4 2) (mkSpec [8]%Z [8]%Z) None None None None "dpg"
            empty_graph = (inr self, g') /\
    attr self "critic_on_track"
      = Some (PT (critic_net "dpg/critic_track" (mkSpec [8]%Z [8]%Z) inputs'
                             (policy_net "dpg/policy" (mkSpec [8]%Z [8]%Z)
                                         inputs'))).
Proof.
  destruct (succeeded_inr
              (DPG.new (mkMdp 4 2) (mkSpec [8]%Z [8]%Z) None None None None
                       "dpg" empty_graph))
    as (self & g' & E); [vm_compute; reflexivity |].
  destruct (tracking_critic_is_fed_the_live_action
              (mkMdp 4 2) (mkSpec [8]%Z [8]%Z) None None None None "dpg"
              empty_graph self g' E)
    as (i & sc & sc' & _ & _ & _ & E3 & -> & S).
  rewrite S in E3.
  - exists self, g', i. split; [exact E | exact E3].
  - intros inp a r g1 g2 H. simpl in H.
    destruct a as [t | l].
    + simpl in H. inversion H. reflexivity.
    + destruct (noise_list_run (1 # 10) l g1) as (n & g3 & R & _ & _ & SC & _).
      simpl in H. rewrite (bind_run _ _ _ _ _ R) in H. inversion H; subst.
      exact SC.
Defined.

(* ------------------------------------------------------------------ *)
(** ** The objectives of the pointer network *)

Lemma PointerNetDPG_objectives_inr self g self' g' :
  PointerNetDPG._make_objectives self g = (inr self', g') ->
  exists critic_on critic_off q_targets a_pred,
    attr self "critic_on" = Some (PL critic_on) /\
    attr self "critic_off" = Some (PL critic_off) /\
    attr self "q_targets" = Some (PL q_targets) /\
    attr self "a_pred" = Some (PL a_pred) /\
    attr self' "policy_objective"
      = Some (PT (tf.neg (mean_critic_of (seq_length self) critic_on))) /\
    attr self' "critic_objective"
      = Some (PT (critic_objective_of (seq_length self) critic_off
                                      q_targets)) /\
    g_summaries g'
    = (g_summaries g
       ++ [("critic(a_pred).mean",
            mean_critic_of (seq_length self) critic_on);
           ("critic_objective",
            critic_objective_of (seq_length self) critic_off q_targets);
           ("critic(a_explore).mean",
            tf.div (tf.reduce_mean (tf.add_n critic_off) None)
                   (IntConst (seq_length self)));
           ("a_pred.mean",
            tf.div (tf.reduce_mean (tf.add_n a_pred) None)
                   (IntConst (seq_length self)));
           ("a_pred.maxabs", tf.reduce_max (tf.abs (tf.pack a_pred)))])%list.
Proof.
  unfold PointerNetDPG._make_objectives, PointerNetDPG._policy_params.
  intros H.
  mstep H as K1 pp g1. mstep K1 as K1a vs g1'. mget K1a. mret K1.
  mstep H as K2 vs g2. mget K2.
  mstep H as K3 s1 g3.
  assert (B : agrees ["critic_on"; "critic_off"; "q_targets"; "a_pred"]
                     self s1 /\ seq_length s1 = seq_length self /\ g3 = g).
  { cbn [bn_actions setattr] in K3. destruct (bn_actions self).
    - mstep K3 as B1 beta gb. mget B1. mstep K3 as B2 gamma gb'. mget B2.
      mret K3. split; [fr | auto].
    - mret K3. split; [fr | auto]. }
  destruct B as (A & L & ->).
  mstep H as K4 con g4. mget K4.
  mstep H as K5 u1 g5. rewrite scalar_summary_run in K5.
  inversion K5; subst; clear K5.
  mstep H as K6 coff g6. mget K6. mstep H as K7 q g7. mget K7.
  mstep H as K8 u2 g8. rewrite scalar_summary_run in K8.
  inversion K8; subst; clear K8.
  mstep H as K9 u3 g9. rewrite scalar_summary_run in K9.
  inversion K9; subst; clear K9.
  mstep H as K10 ap g10. mget K10.
  mstep H as K11 u4 g11. rewrite scalar_summary_run in K11.
  inversion K11; subst; clear K11.
  mstep H as K12 u5 g12. rewrite scalar_summary_run in K12.
  inversion K12; subst; clear K12. mret H.
  repeat match goal with
         | E : attr (setattr _ _ _) _ = Some _ |- _ =>
             rewrite attr_setattr in E; simpl in E
         end.
  rewrite (A "critic_on") in * by (simpl; auto).
  rewrite (A "critic_off") in * by (simpl; auto).
  rewrite (A "q_targets") in * by (simpl; auto).
  rewrite (A "a_pred") in * by (simpl; auto).
  exists con, coff, q, ap. attrs. cbn [seq_length setattr g_summaries].
  rewrite L, map_zip_map2. rewrite <- !app_assoc.
  repeat split; try assumption; reflexivity.
Qed.

Lemma vsum_reals_from l : forall a,
  fold_left (fun acc y => match acc with
                          | Some x => bop_same Rplus x y
                          | None => None
                          end) (map VR l) (Some (VR a))
  = Some (VR (a + Rsum l)).
Proof.
  induction l as [| y l IH]; intros a; simpl.
  - rewrite Rplus_0_r. reflexivity.
  - rewrite IH. rewrite Rplus_assoc. reflexivity.
Qed.

Lemma vsum_reals ms : ms <> [] -> vsum (map VR ms) = Some (VR (Rsum ms)).
Proof.
  destruct ms as [| x l]; [congruence |]. intros _. simpl.
  apply vsum_reals_from.
Qed.

Lemma div_real_by_int s T :
  bop Rdiv (VR s) (VI T) = Some (VR (s / IZR T)).
Proof. reflexivity. Qed.

Lemma div_vec_by_int s T :
  bop Rdiv (vec s) (VI T) = Some (vec (map (fun x => (x / IZR T)%R) s)).
Proof.
  unfold bop. rewrite rank_vec. simpl. unfold vec.
  rewrite (mapO_map _ _ (fun x => VR (x / IZR T))); [| reflexivity].
  simpl. rewrite map_map. reflexivity.
Qed.

Lemma flatten_vec xs : flatten (vec xs) = xs.
Proof.
  unfold vec. simpl. induction xs as [| x xs IH]; simpl; congruence.
Qed.

Lemma eval_q_error e c q a b d :
  eval e c = Some a -> eval e q = Some b -> bop Rminus a b = Some d ->
  flatten d <> [] ->
  eval e (q_error c q)
  = Some (VR (mean (map (fun x => (x * x)%R) (flatten d)))).
Proof.
  intros Ha Hb Hd NE. unfold q_error, tf.reduce_mean, tf.square, tf.sub.
  rewrite !eval_Op1, eval_Op2, Ha, Hb. simpl. rewrite Hd. simpl.
  rewrite flatten_vmap. destruct (flatten d); [congruence | reflexivity].
Qed.

Lemma length_sum_rows xss B :
  xss <> [] -> Forall (fun r => length r = B) xss ->
  length (sum_rows xss) = B.
Proof.
  destruct xss as [| r rs]; [congruence |]. intros _ F. simpl.
  apply Forall_cons_iff in F. destruct F as (Lr & F).
  revert r Lr. induction F as [| r' rs Hr' F IH]; intros r Lr; simpl.
  - exact Lr.
  - apply IH. rewrite length_vadd; congruence.
Qed.

Lemma eval_mean_critic e T critic_on xss B :
  add_n_sums e ->
  mapO (eval e) critic_on = Some (map vec xss) ->
  xss <> [] -> Forall (fun r => length r = B) xss -> B <> 0%nat ->
  eval e (tf.neg (mean_critic_of T critic_on))
  = Some (VR (- mean (map (fun s => (s / IZR T)%R) (sum_rows xss)))).
Proof.
  intros Ha Hv NE F NB.
  unfold mean_critic_of, tf.neg, tf.reduce_mean, tf.div, tf.add_n.
  rewrite !eval_Op1, eval_Op2, eval_Op, Hv.
  cbn [eval_op]. rewrite Ha, (vsum_vecs B) by assumption.
  change (eval e (IntConst T)) with (Some (VI T)).
  cbn [eval_op]. rewrite div_vec_by_int. cbn [eval_op].
  rewrite flatten_vec.
  pose proof (length_sum_rows _ _ NE F) as L.
  destruct (map _ (sum_rows xss)) eqn:M.
  - apply (f_equal (@length R)) in M. rewrite length_map, L in M.
    simpl in M. congruence.
  - reflexivity.
Qed.

Lemma eval_critic_objective e T qs ms :
  add_n_sums e ->
  mapO (eval e) qs = Some (map VR ms) -> ms <> [] ->
  eval e (tf.div (tf.add_n qs) (IntConst T))
  = Some (VR (Rsum ms / IZR T)).
Proof.
  intros Ha Hv NE. unfold tf.div, tf.add_n.
  rewrite eval_Op2, eval_Op, Hv. cbn [eval_op].
  rewrite Ha, vsum_reals by assumption.
  change (eval e (IntConst T)) with (Some (VI T)).
  cbn [eval_op]. apply div_real_by_int.
Qed.

Lemma PointerNetDPG_objectives mdp sp idim slen bn inputs q_targets tau nz nm
    g self g' :
  PointerNetDPG.__init__ mdp sp idim slen bn inputs q_targets tau nz nm g
    = (inr self, g') ->
  exists critic_on critic_off targets,
    attr self "critic_on" = Some (PL critic_on) /\
    attr self "critic_off" = Some (PL critic_off) /\
    attr self "q_targets" = Some (PL targets) /\
    attr self "policy_objective"
      = Some (PT (tf.neg (mean_critic_of slen critic_on))) /\
    attr self "critic_objective"
      = Some (PT (critic_objective_of slen critic_off targets)).
Proof.
  intros H. apply PointerNetDPG_init_inr in H.
  destruct H as (d0 & s1 & g1 & s2 & g2 & s3 & g3 & g4 & _ & _ & K1 & K2 & K3
                 & K4 & _).
  pose proof (PointerNetDPG_make_objectives_inr _ _ _ _ K4) as F.
  simpl in F. destruct F as (F & _).
  apply PointerNetDPG_objectives_inr in K4.
  destruct K4 as (con & coff & q & ap & E1 & E2 & E3 & _ & P & C & _).
  apply PointerNetDPG_make_graph_inr in K3.
  destruct K3 as (d0' & ins & outs & es & g1' & last & araw & dst & din & g2'
                  & ap' & ae & g3' & _ & _ & _ & _ & _ & _ & _ & _ & K3).
  simpl in K3.
  destruct K3 as (_ & _ & _ & _ & _ & _ & _ & _ & _ & _ & _ & _ & L3 & _).
  apply PointerNetDPG_make_inputs_inr in K2.
  destruct K2 as (_ & _ & _ & _ & L2 & _).
  assert (L1 : seq_length s1 = slen).
  { apply PointerNetDPG_make_params_inr in K1.
    destruct K1 as [(_ & -> & _) | (_ & b & c & vb & vg & -> & _)];
      reflexivity. }
  assert (N : forall k, In k ["critic_on"; "critic_off"; "q_targets"] ->
                        ~ In k objective_keys).
  { intros k Hk Ho. simpl in Hk, Ho.
    repeat (destruct Hk as [<- | Hk];
            [repeat (destruct Ho as [Ho | Ho]; [discriminate |]);
             exact Ho |]).
    exact Hk. }
  exists con, coff, q. rewrite !F by (apply N; simpl; auto).
  rewrite L3, L2, L1 in P, C. auto.
Qed.

(** X10.  The objectives of a pointer network average over the
    timesteps: [policy_objective] is the negated mean, over the batch,
    of the sum of the per-timestep on-policy critic values divided by
    [seq_length], and [critic_objective] is the sum, over the timesteps
    that have both a critic value and a target, of the mean squared
    difference between the off-policy critic and the target, divided by
    [seq_length] (whatever the number of terms).  The values are those
    on an engine whose [add_n] sums. *)
Theorem pointer_network_objectives :
  forall mdp sp input_dim seq_length bn inputs q_targets tau nz nm g self g',
    PointerNetDPG.__init__ mdp sp input_dim seq_length bn inputs q_targets
                           tau nz nm g = (inr self, g') ->
    exists critic_on critic_off targets,
      attr self "critic_on" = Some (PL critic_on) /\
      attr self "critic_off" = Some (PL critic_off) /\
      attr self "q_targets" = Some (PL targets) /\
      attr self "policy_objective"
        = Some (PT (tf.neg (mean_critic_of seq_length critic_on))) /\
      attr self "critic_objective"
        = Some (PT (critic_objective_of seq_length critic_off targets)) /\
      length (map2 q_error critic_off targets)
        = Nat.min (length critic_off) (length targets) /\
      (forall e xss B,
          add_n_sums e ->
          mapO (eval e) critic_on = Some (map vec xss) ->
          xss <> [] -> Forall (fun r => length r = B) xss -> B <> 0%nat ->
          eval e (tf.neg (mean_critic_of seq_length critic_on))
          = Some (VR (- mean (map (fun s => (s / IZR seq_length)%R)
                                  (sum_rows xss))))) /\
      (forall e ms,
          add_n_sums e ->
          mapO (eval e) (map2 q_error critic_off targets)
            = Some (map VR ms) ->
          ms <> [] ->
          eval e (critic_objective_of seq_length critic_off targets)
          = Some (VR (Rsum ms / IZR seq_length))) /\
      (forall e c q a b d,
          eval e c = Some a -> eval e q = Some b ->
          bop Rminus a b = Some d -> flatten d <> [] ->
          eval e (q_error c q)
          = Some (VR (mean (map (fun x => (x * x)%R) (flatten d))))).
Proof.
  intros mdp sp idim slen bn inputs q_targets tau nz nm g self g' H.
  apply PointerNetDPG_objectives in H.
  destruct H as (con & coff & q & E1 & E2 & E3 & P & C).
  exists con, coff, q. repeat split; try assumption.
  - apply map2_length.
  - intros e xss B. apply eval_mean_critic.
  - intros e ms. apply eval_critic_objective.
  - intros e c q' a b d. apply eval_q_error.
Qed.

Lemma pointer_network_objectives_witness :
  exists self g' critic_on,
    PointerNetDPG.__init__ (mkMdp 6 1) (mkSpec [3]%Z []) 1 2 false
                           None None None None "dpg" empty_graph
    = (inr self, g') /\
    attr self "critic_on" = Some (PL critic_on) /\
    attr self "policy_objective"
      = Some (PT (tf.neg (mean_critic_of 2 critic_on))).
Proof.
  destruct (succeeded_inr
              (PointerNetDPG.__init__ (mkMdp 6 1) (mkSpec [3]%Z []) 1 2
                 false None None None None "dpg" empty_graph))
    as (self & g' & E); [vm_compute; reflexivity |].
  destruct (pointer_network_objectives _ _ _ _ _ _ _ _ _ _ _ _ _ E)
    as (con & coff & q & E1 & _ & _ & P & _).
  exists self, g', con. split; [exact E |]. split; [exact E1 | exact P].
Defined.

(** The summing engine satisfies the assumption on [add_n]. *)
Lemma summing_env_sums : add_n_sums summing_env.
Proof.
  intros vs. unfold summing_env. simpl. reflexivity.
Qed.

(* ------------------------------------------------------------------ *)
(** ** The policy cell *)

Lemma GRUCell_call_inr n inputs state scope g o s g' :
  rnn_cell.GRUCell_call n inputs state scope g = (inr (o, s), g') ->
  o = s /\ g_scope g' = g_scope g.
Proof.
  unfold rnn_cell.GRUCell_call. intros H.
  apply variable_scope_inr in H. destruct H as (g1 & H & ->).
  mstep H as K1 ru g2. mstep H as K2 c g3.
  apply ret_inr in H. destruct H as [E _]. inversion E.
  split; reflexivity.
Qed.

Lemma PolicyRNNCell_call_inr cell self inputs state scope g a s g' :
  call (RecurrentDPG.PolicyRNNCell cell self) inputs state scope g
    = (inr (a, s), g') ->
  exists o g1,
    call cell inputs state None g = (inr (o, s), g1) /\
    a = policy_net
          (tf.join_scope
             (tf.join_scope (vs_name (g_scope g1))
                            (scope_or scope "PolicyRNNCell"))
             "policy")
          (spec self) o /\
    g_scope g' = g_scope g1 /\ grows g1 g'.
Proof.
  simpl. unfold RecurrentDPG.PolicyRNNCell_call. intros H.
  mstep H as K1 os g1. destruct os as [output res_state].
  mstep H as K2 actions g2.
  pose proof K2 as G2.
  apply only_adds_variable_scope in G2; [| apply only_adds_policy_model].
  apply variable_scope_inr in K2. destruct K2 as (g2' & K2 & ->).
  apply policy_model_inr in K2. destruct K2 as (-> & _).
  apply ret_inr in H. destruct H as [E <-]. inversion E; subst.
  exists output, g1. split; [exact K1 |]. split; [reflexivity |].
  split; [reflexivity | exact G2].
Qed.

(** X11.  The policy cell wraps a recurrent cell without touching its
    state: a call runs the wrapped cell on the same input and state
    under the wrapped cell's default scope (the [scope] argument names
    only the scope of the policy network), hands the wrapped cell's new
    state on unchanged and returns as action the policy network applied
    to the wrapped cell's output; its output size is the action
    dimension and its input and state sizes are the wrapped cell's.
    For the cell an instance builds, around a gated recurrent cell, the
    action is the policy network applied to the new state, and the
    current variable scope is left as it was. *)
Theorem policy_cell_acts_on_the_wrapped_output :
  (forall cell self,
      output_size (RecurrentDPG._policy_cell self cell)
        = action_dim (mdp_spec self) /\
      input_size (RecurrentDPG._policy_cell self cell) = input_size cell /\
      state_size (RecurrentDPG._policy_cell self cell) = state_size cell) /\
  (forall cell self inputs state scope g a s g',
      call (RecurrentDPG._policy_cell self cell) inputs state scope g
        = (inr (a, s), g') ->
      exists o g1,
        call cell inputs state None g = (inr (o, s), g1) /\
        a = policy_net
              (tf.join_scope
                 (tf.join_scope (vs_name (g_scope g1))
                                (scope_or scope "PolicyRNNCell"))
                 "policy")
              (spec self) o /\
        g_scope g' = g_scope g1 /\ grows g1 g') /\
  (forall self d0 inputs state scope g a s g',
      call (decoder_cell_of self d0) inputs state scope g = (inr (a, s), g') ->
      a = policy_net
            (tf.join_scope
               (tf.join_scope (vs_name (g_scope g))
                              (scope_or scope "PolicyRNNCell"))
               "policy")
            (spec self) s /\
      g_scope g' = g_scope g /\ grows g g').
Proof.
  repeat apply conj.
  - intros cell self. repeat split.
  - intros cell self inputs state scope g a s g' H.
    apply PolicyRNNCell_call_inr in H. exact H.
  - intros self d0 inputs state scope g a s g' H.
    unfold decoder_cell_of, RecurrentDPG._policy_cell in H.
    apply PolicyRNNCell_call_inr in H.
    destruct H as (o & g1 & K & -> & S & G).
    pose proof (only_adds_GRUCell _ _ _ _ _ _ _ K) as G1.
    simpl in K. apply GRUCell_call_inr in K. destruct K as (-> & S1).
    rewrite S, S1. split; [reflexivity |]. split; [reflexivity |].
    eapply grows_trans; eassumption.
Qed.

Lemma policy_cell_acts_on_the_wrapped_output_witness :
  exists a s g',
    call (decoder_cell_of (init_self blank (mkMdp 4 2) (mkSpec [3]%Z [])
                                     None None None None "dpg") 3)
         (Placeholder 0 "x" []) (Placeholder 1 "h" []) None empty_graph
    = (inr (a, s), g') /\
    a = policy_net "PolicyRNNCell/policy" (mkSpec [3]%Z []) s.
Proof.
  destruct (succeeded_inr
              (call (decoder_cell_of
                       (init_self blank (mkMdp 4 2) (mkSpec [3]%Z [])
                                  None None None None "dpg") 3)
                    (Placeholder 0 "x" []) (Placeholder 1 "h" []) None
                    empty_graph))
    as ([a s] & g' & E); [vm_compute; reflexivity |].
  exists a, s, g'. split; [exact E |].
  apply (proj2 (proj2 policy_cell_acts_on_the_wrapped_output)
           _ _ _ _ _ _ _ _ _ E).
Defined.

(* ------------------------------------------------------------------ *)
(** ** The objectives of the recurrent class *)

Lemma RecurrentDPG_objectives ov mdp sp idim vocab slen inputs q_targets tau
    nz nm g self g' :
  RecurrentDPG.__init__ ov mdp sp idim vocab slen inputs q_targets tau nz nm
                        g = (inr self, g') ->
  exists d0 inputs' dsi a_pred_ind st a_explore_ind targets sc g1 g2 g3,
    attr self "inputs" = Some (PT inputs') /\
    attr self "decoder_state_ind" = Some (PT dsi) /\
    attr self "q_targets" = Some (PT targets) /\
    call (decoder_cell_of self d0) inputs' dsi None g1
      = (inr (a_pred_ind, st), g2) /\
    noiser_of nz (PT inputs') (PT a_pred_ind) g2
      = (inr (PT a_explore_ind), g3) /\
    attr self "critic_on" = Some (PT (critic_net sc sp dsi a_pred_ind)) /\
    attr self "critic_off"
      = Some (PT (critic_net sc sp dsi a_explore_ind)) /\
    attr self "policy_objective"
      = Some (PT (tf.neg (tf.reduce_mean (critic_net sc sp dsi a_pred_ind)
                                         None))) /\
    attr self "critic_objective"
      = Some (PT (tf.reduce_mean
                    (tf.square (tf.sub (critic_net sc sp dsi a_explore_ind)
                                       targets)) None)).
Proof.
  intros H. apply RecurrentDPG_init_inr in H.
  destruct H as (s2 & g2 & s3 & g3 & K2 & K3 & K4 & ->).
  apply make_objectives_inr in K4.
  destruct K4 as (con & coff & tg & O1 & O2 & O3 & _ & ->).
  apply RecurrentDPG_make_graph_inr in K3.
  destruct K3 as (d0 & i & lf & g1 & ap & st0 & g2' & ae & g3' & g4 & dsi
                  & api & sti & g5 & aei & g6 & D0 & I0 & LF & DEC & NZ1 & X34
                  & DSI & CELL & NZ2 & K3).
  cbv zeta in K3. destruct K3 as (-> & ->).
  apply RecurrentDPG_make_inputs_inr in K2.
  destruct K2 as (i' & q' & t' & d0' & gi & -> & _).
  attrs_in I0. attrs_in DSI. attrs_in O1. attrs_in O2. attrs_in O3.
  inversion O1; subst con; clear O1. inversion O2; subst coff; clear O2.
  exists d0, i, dsi, api, sti, aei, tg,
         (tf.join_scope (vs_name (g_scope g6)) "critic"), g4, g5, g6.
  attrs.
  split; [exact I0 |]. split; [exact DSI |]. split; [exact O3 |].
  split; [exact CELL |]. split; [exact NZ2 |].
  repeat split.
Qed.

(** X12.  A recurrent instance inherits the objectives of the base
    class, and they are built on the isolated single step, not on the
    rollout: [policy_objective] is the negated mean of the critic
    applied to the [decoder_state_ind] placeholder and to the action of
    one call of the policy cell on [(inputs, decoder_state_ind)], and
    [critic_objective] is the mean squared difference between the
    critic at the noised version of that action and [q_targets]. *)
Theorem recurrent_objectives_are_single_step :
  forall ov mdp sp input_dim vocab_size seq_length inputs q_targets tau nz nm
         g self g',
    RecurrentDPG.__init__ ov mdp sp input_dim vocab_size seq_length inputs
                          q_targets tau nz nm g = (inr self, g') ->
    exists d0 inputs' dsi a_pred_ind st a_explore_ind targets sc g1 g2 g3,
      attr self "inputs" = Some (PT inputs') /\
      attr self "decoder_state_ind" = Some (PT dsi) /\
      attr self "q_targets" = Some (PT targets) /\
      call (decoder_cell_of self d0) inputs' dsi None g1
        = (inr (a_pred_ind, st), g2) /\
      noiser_of nz (PT inputs') (PT a_pred_ind) g2
        = (inr (PT a_explore_ind), g3) /\
      attr self "policy_objective"
        = Some (PT (tf.neg (tf.reduce_mean (critic_net sc sp dsi a_pred_ind)
                                           None))) /\
      attr self "critic_objective"
        = Some (PT (tf.reduce_mean
                      (tf.square (tf.sub (critic_net sc sp dsi a_explore_ind)
                                         targets)) None)) /\
      (forall e v,
          eval e (critic_net sc sp dsi a_pred_ind) = Some v ->
          flatten v <> [] ->
          eval e (tf.neg (tf.reduce_mean (critic_net sc sp dsi a_pred_ind)
                                         None))
          = Some (VR (- mean (flatten v)))) /\
      (forall e a b d,
          eval e (critic_net sc sp dsi a_explore_ind) = Some a ->
          eval e targets = Some b ->
          bop Rminus a b = Some d -> flatten d <> [] ->
          eval e (tf.reduce_mean
                    (tf.square (tf.sub (critic_net sc sp dsi a_explore_ind)
                                       targets)) None)
          = Some (VR (mean (map (fun x => (x * x)%R) (flatten d))))).
Proof.
  intros ov mdp sp idim vocab slen inputs q_targets tau nz nm g self g' H.
  apply RecurrentDPG_objectives in H.
  destruct H as (d0 & i & dsi & api & st & aei & tg & sc & g1 & g2 & g3 & E1
                 & E2 & E3 & CELL & NZ & _ & _ & P & C).
  exists d0, i, dsi, api, st, aei, tg, sc, g1, g2, g3.
  split; [exact E1 |]. split; [exact E2 |]. split; [exact E3 |].
  split; [exact CELL |]. split; [exact NZ |].
  split; [exact P |]. split; [exact C |]. split.
  - intros e v Hv NE. unfold tf.neg, tf.reduce_mean.
    rewrite !eval_Op1, Hv. simpl.
    destruct (flatten v); [congruence | reflexivity].
  - intros e a b d Ha Hb Hd NE. apply (eval_q_error e _ _ a b d); assumption.
Qed.

Lemma recurrent_objectives_are_single_step_witness :
  exists self g' dsi sc a_pred_ind,
    RecurrentDPG.__init__ softmax_feedback (mkMdp 3 2) (mkSpec [3]%Z [4]%Z)
                          2 5 2 None None None None "dpg" empty_graph
    = (inr self, g') /\
    attr self "decoder_state_ind" = Some (PT dsi) /\
    attr self "policy_objective"
      = Some (PT (tf.neg (tf.reduce_mean
                            (critic_net sc (mkSpec [3]%Z [4]%Z) dsi
                                        a_pred_ind) None))).
Proof.
  destruct (succeeded_inr
              (RecurrentDPG.__init__ softmax_feedback (mkMdp 3 2)
                 (mkSpec [3]%Z [4]%Z) 2 5 2 None None None None "dpg"
                 empty_graph))
    as (self & g' & E); [vm_compute; reflexivity |].
  destruct (recurrent_objectives_are_single_step
              _ _ _ _ _ _ _ _ _ _ _ _ _ _ E)
    as (d0 & i & dsi & api & st & aei & tg & sc & g1 & g2 & g3 & _ & E2 & _
        & _ & _ & P & _).
  exists self, g', dsi, sc, api. split; [exact E |].
  split; [exact E2 | exact P].
Defined.

(* ------------------------------------------------------------------ *)
(** ** The noise nodes *)

Lemma noise_list_nodes stddev l : forall g,
  mapM (fun a => noise_gaussian_tensor a stddev) l g
  = (inr (map2 (noised stddev) l (seq (g_uid g) (length l))),
     bump_by (length l) g).
Proof.
  induction l as [| a l IH]; intros g; simpl.
  - unfold ret, bump_by. rewrite Nat.add_0_r. destruct g; reflexivity.
  - unfold bind at 1. rewrite noise_gaussian_tensor_run.
    unfold bind at 1. rewrite IH. unfold ret, bump_by, map2. simpl.
    rewrite Nat.add_succ_r. reflexivity.
Qed.

Lemma eval_noise_node e a v u m s :
  eval e a = Some v ->
  eval e (Op (ORandomNormal u m s) [tf.shape a])
  = Some (fill (shape_of v)
               (fun idx => (Q2R m + Q2R s * sample e u idx)%R)).
Proof.
  intros H. unfold tf.shape. rewrite eval_Op1, eval_Op1, H. simpl.
  rewrite mapO_as_int_shape, map_to_nat_of_nat. reflexivity.
Qed.

Lemma DPG_default_noise mdp sp inputs q_targets tau nm g self g' :
  DPG.new mdp sp inputs q_targets tau None nm g = (inr self, g') ->
  exists a_pred u,
    attr self "a_pred" = Some (PT a_pred) /\
    attr self "a_explore" = Some (PT (noised (1 # 10) a_pred u)).
Proof.
  intros H. apply DPG_new_inr in H.
  destruct H as (s2 & g2 & s3 & g3 & s4 & g4 & K2 & K3 & K4 & K5 & _).
  apply DPG_make_updates_inr in K5. destruct K5 as (_ & pu & cu & ->).
  apply make_objectives_inr in K4.
  destruct K4 as (con & coff & tg & _ & _ & _ & _ & ->).
  apply DPG_make_graph_inr in K3.
  destruct K3 as (i & ap & ae & g1' & g2' & apt & cot & _ & _ & Z & -> & _).
  apply DPG_make_inputs_inr in K2.
  destruct K2 as (i' & q' & t' & -> & _).
  change (noise_gaussian (PT i) (PT ap) (1 # 10) g1' = (inr (PT ae), g2'))
    in Z.
  unfold noise_gaussian, bind in Z. rewrite noise_gaussian_tensor_run in Z.
  unfold ret in Z. inversion Z; subst.
  exists ap, (g_uid g1'). attrs. split; reflexivity.
Qed.

(** X13.  The Gaussian noiser never looks at its [inp] argument, and
    it draws noise per timestep: a list of actions comes back with
    each action added to a noise node of its own -- consecutive fresh
    identities, so no two timesteps share a draw -- and nothing else in
    the graph changes.  The value of a noise node is, entry by entry,
    [mean + stddev] times a standard normal draw of that node, in the
    shape of the action.  A base instance built without a noiser has
    [a_explore = a_pred + noise] with standard deviation 0.1. *)
Theorem noise_is_drawn_per_timestep :
  (forall inp inp' actions stddev g,
      noise_gaussian inp actions stddev g
      = noise_gaussian inp' actions stddev g) /\
  (forall inp l stddev g,
      noise_gaussian inp (PL l) stddev g
      = (inr (PL (map2 (noised stddev) l (seq (g_uid g) (length l)))),
         bump_by (length l) g)) /\
  (forall e a v u m s,
      eval e a = Some v ->
      eval e (Op (ORandomNormal u m s) [tf.shape a])
      = Some (fill (shape_of v)
                   (fun idx => (Q2R m + Q2R s * sample e u idx)%R))) /\
  (forall mdp sp inputs q_targets tau nm g self g',
      DPG.new mdp sp inputs q_targets tau None nm g = (inr self, g') ->
      exists a_pred u,
        attr self "a_pred" = Some (PT a_pred) /\
        attr self "a_explore" = Some (PT (noised (1 # 10) a_pred u))).
Proof.
  repeat apply conj.
  - intros inp inp' actions stddev g. destruct actions; reflexivity.
  - intros inp l stddev g. simpl. unfold bind.
    rewrite noise_list_nodes. reflexivity.
  - intros e a v u m s. apply eval_noise_node.
  - intros mdp sp inputs q_targets tau nm g self g'. apply DPG_default_noise.
Qed.

Lemma noise_is_drawn_per_timestep_witness :
  exists self g' a_pred u,
    DPG.new (mkMdp 4 2) (mkSpec [8]%Z [8]%Z) None None None None "dpg"
            empty_graph = (inr self, g') /\
    attr self "a_explore" = Some (PT (noised (1 # 10) a_pred u)).
Proof.
  destruct (succeeded_inr
              (DPG.new (mkMdp 4 2) (mkSpec [8]%Z [8]%Z) None None None None
                       "dpg" empty_graph))
    as (self & g' & E); [vm_compute; reflexivity |].
  destruct (proj2 (proj2 (proj2 noise_is_drawn_per_timestep))
              _ _ _ _ _ _ _ _ _ E)
    as (ap & u & _ & A).
  exists self, g', ap, u. split; [exact E | exact A].
Defined.

(* ------------------------------------------------------------------ *)
(** ** Batch normalisation of the actions *)

Lemma PointerNetDPG_make_graph_bn self g self' g' :
  PointerNetDPG._make_graph self g = (inr self', g') ->
  bn_actions self = true ->
  exists d0 encoder_states last a_raw dec_states dec_inputs g1 g2 beta gamma
         decoder_input,
    pointer_network.ptr_net_decoder
      decoder_input last (attn_of encoder_states) (rnn_cell.GRUCell d0)
      (PointerNetDPG.loop_fn (attn_of encoder_states)) (Some "decoder") g1
      = (inr (a_raw, dec_states, dec_inputs), g2) /\
    attr self "bn_beta" = Some (PT beta) /\
    attr self "bn_gamma" = Some (PT gamma) /\
    attr self' "encoder_states" = Some (PL encoder_states) /\
    attr self' "decoder_inputs" = Some (PL dec_inputs) /\
    attr self' "a_pred"
      = Some (PL (batch_normalised (seq_length self) a_raw beta gamma)).
Proof.
  unfold PointerNetDPG._make_graph. intros H BN.
  mstep H as K0 d0 g0. pose proof K0 as K0'. apply index0_inr in K0'.
  destruct K0' as (_ & ->).
  mstep H as K1 inputs g0. mget K1.
  mstep H as K2 r g1. destruct r as [outs encoder_states].
  mstep H as K3 u g1'. cbn [seq_length setattr] in K3.
  destruct (Z.eqb_spec (Z.of_nat (length encoder_states)) (seq_length self))
    as [EL | NE]; [| discriminate]. mret K3.
  mstep H as K4 inputs0 g1'. pose proof K4 as K4'. apply index0_inr in K4'.
  destruct K4' as ((rest & ->) & ->).
  mstep H as K5 last g1'.
  assert (g1' = g1) as ->.
  { unfold index_last in K5. destruct (rev encoder_states); inversion K5.
    reflexivity. }
  mstep H as K6 lf g1'. apply PointerNetDPG_loop_function_inr in K6.
  destruct K6 as (es & E6 & -> & ->).
  attrs_in E6. inversion E6; subst es; clear E6.
  mstep H as K7 r g2. destruct r as [[a_raw dec_states] dec_inputs].
  mstep H as K8 self1 g2'.
  cbn [bn_actions seq_length setattr] in K8. rewrite BN in K8.
  mstep K8 as B1 beta gb. mget B1. mstep K8 as B2 gamma gb'. mget B2.
  mret K8.
  repeat match goal with
         | E : attr (setattr _ _ _) _ = Some _ |- _ =>
             rewrite attr_setattr in E; simpl in E
         end.
  match type of H with
  | ?m ?g0 = _ =>
      match m with
      | context [get_list ?s "a_pred"] =>
          assert (R : returns m
                        (agrees ["encoder_states"; "decoder_inputs";
                                 "a_pred"] s))
      end
  end.
  { repeat first
      [ match goal with
        | |- returns (PointerNetDPG._make_q_targets ?s) _ =>
            let K := fresh "K" in
            intros ? ? ? K;
            apply (PointerNetDPG_make_q_targets_returns
                     ["encoder_states"; "decoder_inputs"; "a_pred"]) in K;
            [| notin]; destruct K as (K & _);
            eapply agrees_trans; [| exact K]
        end
      | fr_step ]. }
  apply R in H.
  eexists d0, encoder_states, last, a_raw, dec_states, dec_inputs, g1, g2,
          beta, gamma, _.
  split; [exact K7 |].
  rewrite !(H _) by (simpl; auto). attrs.
  repeat split; assumption.
Qed.

Lemma PointerNetDPG_make_params_bn self g :
  bn_actions self = true ->
  exists vb vg g1,
    PointerNetDPG._make_params self g
    = (inr (setattr (setattr self "bn_beta" (PT (handle vb)))
                    "bn_gamma" (PT (handle vg))), g1) /\
    g_vars g1 = (g_vars g ++ [vb; vg])%list /\
    v_shape vb = [action_dim (mdp_spec self)] /\
    v_init vb = InitConstant 0 /\
    v_shape vg = [action_dim (mdp_spec self)] /\
    v_init vg = InitConstant 1 /\
    v_store vb = false /\ v_store vg = false /\
    g_summaries g1
    = (g_summaries g
       ++ [("bn_beta.mean", tf.reduce_mean (handle vb) None);
           ("bn_gamma.mean", tf.reduce_mean (handle vg) None)])%list.
Proof.
  intros BN. unfold PointerNetDPG._make_params. rewrite BN.
  unfold tf.variable_scope. simpl String.eqb. cbv iota.
  unfold bind. rewrite !new_Variable_run. cbv iota beta.
  rewrite !scalar_summary_run. unfold ret.
  eexists (mkVar _ _ _ _), (mkVar _ _ _ _), _.
  split; [reflexivity |]. simpl. rewrite <- !app_assoc. simpl.
  repeat split.
Qed.

(** X14.  A pointer network built with batch normalisation owns two
    fresh parameters of the action's width, a shift initialised to zero
    and a scale initialised to one, created outside the shared variable
    store.  The actions it stores are the decoder's outputs pooled over
    all timesteps, normalised with the pool's mean and variance, scaled
    and shifted by these two parameters and split back per timestep;
    these normalised actions are what the on-policy critic scores.  The
    inputs that the decoder feeds back to itself are computed from the
    outputs before normalisation. *)
Theorem batch_norm_rescales_the_stored_actions mdp sp idim slen inputs
    q_targets tau nz nm g self g' :
  PointerNetDPG.__init__ mdp sp idim slen true inputs q_targets tau nz nm g
    = (inr self, g') ->
  exists encoder_states outputs dec_inputs dec_states vb vg sc,
    attr self "bn_beta" = Some (PT (handle vb)) /\
    attr self "bn_gamma" = Some (PT (handle vg)) /\
    v_shape vb = [action_dim mdp] /\ v_init vb = InitConstant 0 /\
    v_shape vg = [action_dim mdp] /\ v_init vg = InitConstant 1 /\
    v_store vb = false /\ v_store vg = false /\
    attr self "encoder_states" = Some (PL encoder_states) /\
    attr self "decoder_inputs" = Some (PL dec_inputs) /\
    attr self "decoder_states" = Some (PL dec_states) /\
    attr self "a_pred"
      = Some (PL (batch_normalised slen outputs (handle vb) (handle vg))) /\
    attr self "critic_on"
      = Some (PL (map2 (critic_net sc sp)
                       (map2 ptr_state dec_inputs dec_states)
                       (batch_normalised slen outputs (handle vb)
                                         (handle vg)))) /\
    (forall t x,
        nth_error dec_inputs (S t) = Some x ->
        exists output_t,
          nth_error outputs t = Some output_t /\
          x = attend_expr (attn_of encoder_states) output_t) /\
    (noiser_only_adds (noiser_of nz) ->
     In vb (g_vars g') /\ In vg (g_vars g')).
Proof.
  intros H. apply PointerNetDPG_init_inr in H.
  destruct H as (d0 & s1 & g1 & s2 & g2 & s3 & g3 & g4 & _ & _ & K1 & K2 & K3
                 & K4 & ->).
  pose proof (PointerNetDPG_make_objectives_inr _ _ _ _ K4) as F.
  simpl in F. destruct F as (F & _ & _ & V4 & _).
  pose proof K2 as K2'.
  apply PointerNetDPG_make_inputs_inr in K2'.
  destruct K2' as (A2 & BN2 & SP2 & _ & L2 & N2 & V2 & _).
  match type of K1 with
  | PointerNetDPG._make_params ?s ?g0 = _ =>
      destruct (PointerNetDPG_make_params_bn s g0 eq_refl)
        as (vb & vg & gp & P & V1 & S1 & I1 & S2 & I2 & T1 & T2 & _)
  end.
  rewrite P in K1. inversion K1; subst s1 gp; clear K1 P.
  assert (BN : bn_actions s2 = true) by (rewrite BN2; reflexivity).
  pose proof (PointerNetDPG_make_graph_bn _ _ _ _ K3 BN)
    as (d0' & es & last & araw & dst & din & ga & gb & beta & gamma & di
        & D & B1 & B2 & E1 & E2 & E3).
  apply ptr_net_decoder_inputs in D. destruct D as (_ & D).
  rewrite A2 in B1, B2 by discriminate. attrs_in B1. attrs_in B2.
  inversion B1; subst beta; clear B1. inversion B2; subst gamma; clear B2.
  assert (N : forall k, In k ["bn_beta"; "bn_gamma"; "encoder_states";
                              "decoder_inputs"; "decoder_states"; "a_pred";
                              "critic_on"] ->
                        ~ In k objective_keys).
  { intros k Hk Ho. simpl in Hk, Ho.
    repeat (destruct Hk as [<- | Hk];
            [repeat (destruct Ho as [Ho | Ho]; [discriminate |]);
             exact Ho |]).
    exact Hk. }
  pose proof (PointerNetDPG_make_graph_inr _ _ _ _ K3) as Q.
  destruct Q as (d0'' & ins & outs & es' & g1' & last' & araw' & dst' & din'
                 & g2' & ap & ae & g3' & _ & _ & _ & _ & _ & _ & _ & _ & Q).
  cbv zeta in Q.
  destruct Q as (_ & Qa & Qd & Qs & _ & Qc & _ & _ & Q1 & Q2 & _ & _ & L3 & _).
  rewrite E3 in Qa. inversion Qa; subst ap; clear Qa.
  rewrite E2 in Qd. inversion Qd; subst din'; clear Qd.
  exists es, araw, din, (tl dst'), vb, vg.
  eexists.
  rewrite !F by (apply N; simpl; auto 10).
  rewrite Q1, Q2, !A2 by discriminate. attrs.
  try rewrite L3 in E3. try rewrite L2 in E3. simpl in E3.
  rewrite L2 in Qc. rewrite SP2 in Qc. simpl in Qc.
  assert (I : noiser_only_adds (noiser_of nz) ->
              forall v, In v (g_vars g2) -> In v (g_vars g4)).
  { intros Hn v Iv. rewrite V4.
    apply (only_adds_PointerNetDPG_make_graph s2) in K3.
    - eapply grows_In; eassumption.
    - rewrite N2. exact Hn. }
  simpl in S1, S2.
  repeat split; try assumption; try reflexivity; try exact Qc.
  - apply I; [assumption |]. rewrite V2, V1. apply in_or_app. right.
    left. reflexivity.
  - apply I; [assumption |]. rewrite V2, V1. apply in_or_app. right.
    right. left. reflexivity.
Qed.

Lemma batch_norm_rescales_the_stored_actions_witness :
  exists self g' vb,
    PointerNetDPG.__init__ (mkMdp 6 1) (mkSpec [3]%Z []) 1 2 true
                           None None None None "dpg" empty_graph
    = (inr self, g') /\
    attr self "bn_beta" = Some (PT (handle vb)) /\
    v_init vb = InitConstant 0.
Proof.
  destruct (succeeded_inr
              (PointerNetDPG.__init__ (mkMdp 6 1) (mkSpec [3]%Z []) 1 2
                 true None None None None "dpg" empty_graph))
    as (self & g' & E); [vm_compute; reflexivity |].
  destruct (batch_norm_rescales_the_stored_actions _ _ _ _ _ _ _ _ _ _ _ _ E)
    as (es & outs & din & dst & vb & vg & sc & B & _ & _ & I & _).
  exists self, g', vb. split; [exact E |]. split; [exact B | exact I].
Defined.

(* ------------------------------------------------------------------ *)
(** ** Establishing the critic and reusing it *)

Lemma get_variable_reuse_run n shp i g :
  tf.in_store (tf.join_scope (vs_name (g_scope g)) n) g = true ->
  vs_reuse (g_scope g) = true ->
  tf.get_variable n shp i g
  = (inr (VarRef (tf.join_scope (vs_name (g_scope g)) n)), g).
Proof. unfold tf.get_variable. intros -> ->. reflexivity. Qed.

Lemma stored_more (names : list string) g g' :
  (exists new, g_vars g' = (g_vars g ++ new)%list) ->
  Forall (fun n => tf.in_store n g = true) names ->
  Forall (fun n => tf.in_store n g' = true) names.
Proof.
  intros V F. eapply Forall_impl; [| exact F].
  intros n. apply in_store_more. exact V.
Qed.

Lemma extends_more g g' :
  extends g g' -> exists new, g_vars g' = (g_vars g ++ new)%list.
Proof. intros X. apply X. Qed.

Lemma mlp_from_stores hidden : forall x i src out b ts g t g',
  util.mlp_from x i src hidden out b ts g = (inr t, g') ->
  Forall (fun n => tf.in_store n g' = true)
         (mlp_param_names (vs_name (g_scope g)) i hidden b).
Proof.
  induction hidden as [| h hidden IH]; intros x i src out b ts g t g' H;
    simpl in H.
  - mstep H as K W g1. pose proof (get_variable_in_store _ _ _ _ _ _ K) as S1.
    apply get_variable_inr in K. destruct K as (_ & X1 & _).
    destruct b.
    + mstep H as K2 bb g2.
      pose proof (get_variable_in_store _ _ _ _ _ _ K2) as S2.
      apply get_variable_inr in K2. destruct K2 as (_ & X2 & _).
      apply ret_inr in H. destruct H as [_ <-].
      rewrite (extends_scope _ _ X1) in S2. simpl.
      constructor; [| constructor; [exact S2 | constructor]].
      eapply in_store_more; [apply extends_more; exact X2 | exact S1].
    + apply ret_inr in H. destruct H as [_ <-]. simpl.
      constructor; [exact S1 | constructor].
  - mstep H as K W g1. pose proof (get_variable_in_store _ _ _ _ _ _ K) as S1.
    apply get_variable_inr in K. destruct K as (_ & X1 & _).
    mstep H as K2 bb g2.
    pose proof (get_variable_in_store _ _ _ _ _ _ K2) as S2.
    apply get_variable_inr in K2. destruct K2 as (_ & X2 & _).
    rewrite (extends_scope _ _ X1) in S2.
    pose proof (mlp_from_inr _ _ _ _ _ _ _ _ _ _ H) as (_ & X3 & _).
    apply IH in H.
    rewrite (extends_scope _ _ X2), (extends_scope _ _ X1) in H.
    simpl. constructor; [| constructor; [| exact H]].
    + eapply in_store_more; [apply extends_more; exact X3 |].
      eapply in_store_more; [apply extends_more; exact X2 | exact S1].
    + eapply in_store_more; [apply extends_more; exact X3 | exact S2].
Qed.

Lemma mlp_from_reuse_run hidden : forall x i src out b ts g,
  vs_reuse (g_scope g) = true ->
  Forall (fun n => tf.in_store n g = true)
         (mlp_param_names (vs_name (g_scope g)) i hidden b) ->
  util.mlp_from x i src hidden out b ts g
  = (inr (mlp_net (vs_name (g_scope g)) x i hidden b), g).
Proof.
  induction hidden as [| h hidden IH]; intros x i src out b ts g R F;
    simpl in F |- *.
  - destruct b.
    + inversion F as [| n1 l1 S1 F1]; subst.
      inversion F1 as [| n2 l2 S2 F2]; subst. unfold bind.
      rewrite (get_variable_reuse_run _ _ _ _ S1 R).
      rewrite (get_variable_reuse_run _ _ _ _ S2 R). reflexivity.
    + inversion F as [| n1 l1 S1 F1]; subst. unfold bind.
      rewrite (get_variable_reuse_run _ _ _ _ S1 R). reflexivity.
  - inversion F as [| n1 l1 S1 F1]; subst.
    inversion F1 as [| n2 l2 S2 F2]; subst.
    unfold bind at 1. rewrite (get_variable_reuse_run _ _ _ _ S1 R).
    unfold bind at 1. rewrite (get_variable_reuse_run _ _ _ _ S2 R).
    apply IH; assumption.
Qed.

Lemma critic_model_builds inp actions mdp sp reuse g t g' :
  critic_model inp actions mdp sp "critic" reuse None g = (inr t, g') ->
  critic_built (tf.join_scope (vs_name (g_scope g)) "critic") sp g' /\
  g_scope g' = g_scope g.
Proof.
  unfold critic_model. intros H.
  apply variable_scope_inr in H. destruct H as (g1 & H & ->).
  mstep H as K o g2. unfold util.mlp in K. apply mlp_from_stores in K.
  apply ret_inr in H. destruct H as [_ <-].
  split; [exact K | reflexivity].
Qed.

Lemma critic_model_reuse_run inp actions mdp sp g :
  critic_built (tf.join_scope (vs_name (g_scope g)) "critic") sp g ->
  critic_model inp actions mdp sp "critic" (Some true) None g
  = (inr (critic_net (tf.join_scope (vs_name (g_scope g)) "critic") sp inp
                     actions), g).
Proof.
  intros B. unfold critic_model, tf.variable_scope. simpl String.eqb.
  cbv iota. unfold bind, util.mlp.
  rewrite mlp_from_reuse_run; [| reflexivity | exact B].
  unfold ret. rewrite set_scope_restore. reflexivity.
Qed.

Lemma critic_steps_reuse_run mdp sp pairs : forall t0 reuse g,
  reuse = Some true \/ (0 < t0)%nat ->
  critic_built (tf.join_scope (vs_name (g_scope g)) "critic") sp g ->
  mapM_enum
    (fun t (sa : tensor * tensor) =>
       let '(states_t, actions_t) := sa in
       critic_model states_t actions_t mdp sp "critic" (reuse_at reuse t)
                    None)
    t0 pairs g
  = (inr (map (fun p => critic_net
                          (tf.join_scope (vs_name (g_scope g)) "critic")
                          sp (fst p) (snd p)) pairs), g).
Proof.
  induction pairs as [| [s a] pairs IH]; intros t0 reuse g Hr B; simpl.
  - reflexivity.
  - assert (E : reuse_at reuse t0 = Some true).
    { unfold reuse_at. destruct Hr as [-> | Hr]; [reflexivity |].
      destruct t0; [lia |]. simpl. rewrite orb_true_r. reflexivity. }
    rewrite E. unfold bind at 1. rewrite (critic_model_reuse_run _ _ _ _ _ B).
    unfold bind at 1. rewrite IH; [reflexivity | right; lia | exact B].
Qed.

(** Once the first timestep has its critic, timestep by timestep the
    rest of [_critic] returns the same network and leaves the graph as
    the first timestep left it. *)
Lemma critic_steps_after_first mdp sp s a pairs reuse g c0 g1 :
  critic_model s a mdp sp "critic" (reuse_at reuse 0) None g = (inr c0, g1) ->
  mapM_enum
    (fun t (sa : tensor * tensor) =>
       let '(states_t, actions_t) := sa in
       critic_model states_t actions_t mdp sp "critic" (reuse_at reuse t)
                    None)
    0 ((s, a) :: pairs) g
  = (inr (map (fun p => critic_net
                          (tf.join_scope (vs_name (g_scope g)) "critic")
                          sp (fst p) (snd p)) ((s, a) :: pairs)), g1).
Proof.
  intros K. simpl. unfold bind at 1. rewrite K.
  pose proof (critic_model_builds _ _ _ _ _ _ _ _ K) as (B & S).
  apply critic_model_inr in K. destruct K as (-> & _).
  unfold bind at 1. rewrite <- S in B.
  rewrite (critic_steps_reuse_run mdp sp pairs 1 reuse g1);
    [| right; lia | exact B].
  rewrite S. reflexivity.
Qed.
(* ------------------------------------------------------------------ *)
(** ** The shared critic *)


(* ------------------------------------------------------------------ *)
(** ** The abstract operations *)

(** C4, as worded, fails: [PointerNetDPG] defines [_loop_function]
    itself, so invoking it on a pointer network without any subclass
    override does not raise; on the constructed instance below it
    returns the feedback function and leaves the graph as it is. *)
Lemma C4_pointer_loop_function_counterexample :
  exists self g' encoder_states,
    PointerNetDPG.__init__ (mkMdp 6 2) (mkSpec [3]%Z [4]%Z) 3 2 false
                           None None None None "dpg" empty_graph
    = (inr self, g') /\
    attr self "encoder_states" = Some (PL encoder_states) /\
    PointerNetDPG._loop_function self g'
    = (inr (PointerNetDPG.loop_fn (attn_of encoder_states)), g') /\
    PointerNetDPG._loop_function self g'
    <> (inl (NotImplementedError "abstract method"), g').
Proof.
  destruct (succeeded_inr
              (PointerNetDPG.__init__ (mkMdp 6 2) (mkSpec [3]%Z [4]%Z) 3 2
                 false None None None None "dpg" empty_graph))
    as (self & g' & E); [vm_compute; reflexivity |].
  pose proof E as E'. apply PointerNetDPG_init_inr in E'.
  destruct E' as (d0 & s1 & g1 & s2 & g2 & s3 & g3 & g4 & _ & _ & _ & _ & K3
                  & K4 & _).
  apply PointerNetDPG_make_objectives_inr in K4. destruct K4 as (F & _).
  apply PointerNetDPG_make_graph_inr in K3.
  destruct K3 as (d0' & i & outs & es & g1' & last & araw & dst & din & g2'
                  & ap & ae & g3' & _ & _ & _ & _ & _ & _ & _ & _ & K3).
  cbv zeta in K3. destruct K3 as (A1 & _).
  assert (A : attr self "encoder_states" = Some (PL es)).
  { rewrite F; [exact A1 |]. simpl. intros [X | [X | [X | [X | []]]]];
      discriminate X. }
  assert (R : PointerNetDPG._loop_function self g'
              = (inr (PointerNetDPG.loop_fn (attn_of es)), g')).
  { unfold PointerNetDPG._loop_function, get_list, bind. rewrite A.
    reflexivity. }
  exists self, g', es. split; [exact E |]. split; [exact A |].
  split; [exact R |]. rewrite R. discriminate.
Qed.

(** C4 (amended).  The abstract operations raise "not implemented" and
    leave the graph as it is: the feedback function and the hardening
    of a [RecurrentDPG] without override, and the hardening of a
    [PointerNetDPG] without override.  No [RecurrentDPG] without an
    override of the feedback function can be constructed, and built
    with the defaults in a fresh graph the construction ends in that
    error.  The feedback function of a [PointerNetDPG] is not abstract:
    whatever the instance, the call never ends in "not implemented",
    and on an instance that has its encoder states, as every
    constructed one has, it returns the attention feedback. *)
Theorem C4_abstract_operations_raise :
  (forall ov self g,
      RecurrentDPG.ov_loop_function ov = None ->
      RecurrentDPG.call_loop_function ov self g
      = (inl (NotImplementedError "abstract method"), g)) /\
  (forall ov self action_list g,
      RecurrentDPG.ov_harden_actions ov = None ->
      RecurrentDPG.call_harden_actions ov self action_list g
      = (inl (NotImplementedError "abstract method"), g)) /\
  (forall self action_list g,
      PointerNetDPG.call_harden_actions None self action_list g
      = (inl (NotImplementedError "abstract method"), g)) /\
  (forall ov mdp sp input_dim vocab_size seq_length inputs q_targets tau
          noiser name g self g',
      RecurrentDPG.ov_loop_function ov = None ->
      RecurrentDPG.__init__ ov mdp sp input_dim vocab_size seq_length inputs
                            q_targets tau noiser name g <> (inr self, g')) /\
  (forall mdp d0 rest cdims input_dim vocab_size seq_length,
      fst (RecurrentDPG.__init__ RecurrentDPG.abstract mdp
             (mkSpec (d0 :: rest) cdims) input_dim vocab_size seq_length
             None None None None default_name empty_graph)
      = inl (NotImplementedError "abstract method")) /\
  (forall self g msg,
      fst (PointerNetDPG._loop_function self g)
      <> inl (NotImplementedError msg)) /\
  (forall self encoder_states g,
      attr self "encoder_states" = Some (PL encoder_states) ->
      PointerNetDPG._loop_function self g
      = (inr (PointerNetDPG.loop_fn (attn_of encoder_states)), g)) /\
  (forall mdp sp input_dim seq_length bn inputs q_targets tau noiser name g
          self g',
      PointerNetDPG.__init__ mdp sp input_dim seq_length bn inputs q_targets
                             tau noiser name g = (inr self, g') ->
      exists encoder_states,
        attr self "encoder_states" = Some (PL encoder_states) /\
        PointerNetDPG._loop_function self g'
        = (inr (PointerNetDPG.loop_fn (attn_of encoder_states)), g')).
Proof.
  repeat apply conj.
  - intros ov self g E. unfold RecurrentDPG.call_loop_function. rewrite E.
    reflexivity.
  - intros ov self al g E. unfold RecurrentDPG.call_harden_actions.
    rewrite E. reflexivity.
  - reflexivity.
  - intros ov mdp sp input_dim vocab_size seq_length inputs q_targets tau
           noiser name g self g' E H.
    apply RecurrentDPG_init_inr in H.
    destruct H as (s2 & g2 & s3 & g3 & _ & K3 & _).
    apply RecurrentDPG_make_graph_inr in K3.
    destruct K3 as (d0 & i & lf & g1 & ap & st0 & g2' & ae & g3' & g4 & dsi
                    & api & sti & g5 & aei & g6 & _ & _ & K & _).
    unfold RecurrentDPG.call_loop_function in K. rewrite E in K.
    discriminate.
  - intros. reflexivity.
  - intros self g msg. unfold PointerNetDPG._loop_function, get_list, bind.
    destruct (attr self "encoder_states") as [[t | l] |]; simpl;
      discriminate.
  - intros self es g A.
    unfold PointerNetDPG._loop_function, get_list, bind. rewrite A.
    reflexivity.
  - intros mdp sp input_dim seq_length bn inputs q_targets tau noiser name g
           self g' H.
    apply PointerNetDPG_init_inr in H.
    destruct H as (d0 & s1 & g1 & s2 & g2 & s3 & g3 & g4 & _ & _ & _ & _ & K3
                   & K4 & ->).
    apply PointerNetDPG_make_objectives_inr in K4. destruct K4 as (F & _).
    apply PointerNetDPG_make_graph_inr in K3.
    destruct K3 as (d0' & i & outs & es & g1' & last & araw & dst & din & g2'
                    & ap & ae & g3' & _ & _ & _ & _ & _ & _ & _ & _ & K3).
    cbv zeta in K3. destruct K3 as (A1 & _).
    assert (A : attr self "encoder_states" = Some (PL es)).
    { rewrite F; [exact A1 |]. simpl. intros [X | [X | [X | [X | []]]]];
        discriminate X. }
    exists es. split; [exact A |].
    unfold PointerNetDPG._loop_function, get_list, bind. rewrite A.
    reflexivity.
Qed.

Lemma C4_abstract_operations_raise_witness :
  RecurrentDPG.call_loop_function RecurrentDPG.abstract blank empty_graph
  = (inl (NotImplementedError "abstract method"), empty_graph) /\
  RecurrentDPG.call_harden_actions RecurrentDPG.abstract blank [] empty_graph
  = (inl (NotImplementedError "abstract method"), empty_graph) /\
  exists self g' encoder_states,
    PointerNetDPG.__init__ (mkMdp 6 2) (mkSpec [3]%Z [4]%Z) 3 2 false
                           None None None None "dpg" empty_graph
    = (inr self, g') /\
    PointerNetDPG._loop_function self g'
    = (inr (PointerNetDPG.loop_fn (attn_of encoder_states)), g').
Proof.
  split; [| split].
  - apply (proj1 C4_abstract_operations_raise). reflexivity.
  - apply (proj1 (proj2 C4_abstract_operations_raise)). reflexivity.
  - destruct (succeeded_inr
                (PointerNetDPG.__init__ (mkMdp 6 2) (mkSpec [3]%Z [4]%Z) 3 2
                   false None None None None "dpg" empty_graph))
      as (self & g' & E); [vm_compute; reflexivity |].
    destruct (proj2 (proj2 (proj2 (proj2 (proj2 (proj2
                (proj2 C4_abstract_operations_raise))))))
                _ _ _ _ _ _ _ _ _ _ _ _ _ E) as (es & _ & R).
    exists self, g', es. split; [exact E | exact R].
Defined.
(* ------------------------------------------------------------------ *)
(** ** The isolated critic of the recurrent class *)



(* ------------------------------------------------------------------ *)
(** ** The range of the critic *)

Lemma div_within_unit a b :
  (0 < b)%R -> (- b < a < b)%R -> (-1 < a / b < 1)%R.
Proof.
  intros P (L & U). pose proof (Rinv_0_lt_compat _ P) as Q. unfold Rdiv.
  split.
  - replace (-1)%R with (- b * / b)%R by (field; lra).
    apply Rmult_lt_compat_r; assumption.
  - replace 1%R with (b * / b)%R by (field; lra).
    apply Rmult_lt_compat_r; assumption.
Qed.

Lemma div_within_closed_unit a b :
  (0 < b)%R -> (- b <= a <= b)%R -> (-1 <= a / b <= 1)%R.
Proof.
  intros P (L & U). pose proof (Rinv_0_lt_compat _ P) as Q. unfold Rdiv.
  assert (Q' : (0 <= / b)%R) by lra.
  split.
  - replace (-1)%R with (- b * / b)%R by (field; lra).
    apply Rmult_le_compat_r; assumption.
  - replace 1%R with (b * / b)%R by (field; lra).
    apply Rmult_le_compat_r; assumption.
Qed.

Lemma tanh_within_unit x : (-1 < tanh x < 1)%R.
Proof.
  unfold tanh, sinh, cosh.
  pose proof (exp_pos x) as A. pose proof (exp_pos (- x)) as B.
  assert (P : (0 < (exp x + exp (- x)) / 2)%R) by lra.
  apply div_within_unit; [exact P | lra].
Qed.

Lemma mean_within_unit xs :
  xs <> [] -> Forall (fun x => (-1 <= x <= 1)%R) xs ->
  (-1 <= mean xs <= 1)%R.
Proof.
  intros NE F. unfold mean.
  assert (B : (- INR (length xs) <= Rsum xs <= INR (length xs))%R).
  { induction F as [| x l Hx F IH]; [simpl; lra |].
    change (Rsum (x :: l)) with (x + Rsum l)%R.
    change (length (x :: l)) with (S (length l)). rewrite S_INR.
    destruct l as [| y l'].
    - simpl in *. lra.
    - assert (N : y :: l' <> []) by discriminate.
      specialize (IH N). lra. }
  assert (P : (0 < INR (length xs))%R).
  { apply lt_0_INR. destruct xs; [contradiction | simpl; lia]. }
  apply div_within_closed_unit; [exact P | exact B].
Qed.

Lemma rounded_within_unit rnd v :
  rounding rnd -> within_unit v ->
  Forall (fun x => (-1 <= x <= 1)%R) (rounded rnd v).
Proof.
  intros (Mono & Lo & Hi) W. unfold rounded, within_unit in *.
  apply Forall_forall. intros y I. apply in_map_iff in I.
  destruct I as (x & <- & I).
  pose proof (proj1 (Forall_forall _ _) W x I) as (L & U).
  split.
  - rewrite <- Lo. apply Mono. exact L.
  - rewrite <- Hi. apply Mono. exact U.
Qed.

(** The strict bound does not survive rounding: rounding to the nearest
    of -1, 0 and 1 takes [tanh 1] to 1. *)
Lemma rounded_tanh_reaches_one :
  exists rnd x, rounding rnd /\ rnd (tanh x) = 1%R.
Proof.
  exists (fun x => if Rlt_dec (1 / 2) x then 1%R
                   else if Rlt_dec x (- (1 / 2)) then (-1)%R else 0%R).
  exists 1%R. split.
  - split; [| split].
    + intros x y L.
      destruct (Rlt_dec (1 / 2) x), (Rlt_dec (1 / 2) y),
               (Rlt_dec x (- (1 / 2))), (Rlt_dec y (- (1 / 2))); lra.
    + destruct (Rlt_dec (1 / 2) (-1)), (Rlt_dec (-1) (- (1 / 2))); lra.
    + destruct (Rlt_dec (1 / 2) 1); lra.
  - assert (T : (1 / 2 < tanh 1)%R).
    { unfold tanh, sinh, cosh. replace (- (1))%R with (-1)%R by lra.
      pose proof (exp_pos 1) as A. pose proof (exp_pos (- 1)) as B.
      assert (E2 : (2 < exp 1)%R).
      { pose proof (exp_ineq1 1 ltac:(lra)). lra. }
      assert (I : (exp (- 1) * exp 1 = 1)%R).
      { rewrite <- exp_plus. replace (-1 + 1)%R with 0%R by lra.
        apply exp_0. }
      assert (S : (exp (- 1) < 1 / 2)%R) by nra.
      apply Rmult_lt_reg_r with ((exp 1 + exp (- 1)) / 2)%R; [lra |].
      replace ((exp 1 - exp (- 1)) / 2 / ((exp 1 + exp (- 1)) / 2)
               * ((exp 1 + exp (- 1)) / 2))%R
        with ((exp 1 - exp (- 1)) / 2)%R by (field; lra).
      lra. }
    destruct (Rlt_dec (1 / 2) (tanh 1)); [reflexivity | contradiction].
Qed.

Lemma critic_net_within_unit e sc sp inp a v :
  squeeze_keeps_entries e ->
  eval e (critic_net sc sp inp a) = Some v -> within_unit v.
Proof.
  intros Hs H. unfold critic_net, tf.squeeze, tf.tanh in H.
  rewrite !eval_Op1 in H.
  destruct (eval e (mlp_net _ _ _ _ _)) as [x |]; [| discriminate].
  simpl in H. apply Hs in H. unfold within_unit. rewrite H, flatten_vmap.
  apply Forall_forall. intros y I. apply in_map_iff in I.
  destruct I as (z & <- & _). pose proof (tanh_within_unit z). lra.
Qed.

Lemma critic_nets_within_unit e sc sp states actions c v :
  squeeze_keeps_entries e ->
  In c (map2 (critic_net sc sp) states actions) ->
  eval e c = Some v -> within_unit v.
Proof.
  intros Hs I H. unfold map2 in I. apply in_map_iff in I.
  destruct I as (p & <- & _). eapply critic_net_within_unit; eassumption.
Qed.


